(** * Hotspot detection pipeline of [thermal_pipeline_hottest.py]

    A shallow embedding of the detection pipeline ([hotspot_detection] and
    the helpers it calls) and the proofs of its stated properties.

    Conventions of the embedding.
    - A 2-D [np.ndarray] is a list of rows ([grid A]); a pixel is a pair
      [(r, c)] of integers, as the source computes [rr+dr] before it checks
      the bounds.
    - Temperatures and gradient magnitudes are exact rationals ([Q]): the
      grid holds no NaN (the data model excludes missing entries) and
      rounding is not modelled.
    - The module-level flag [SCIPY_AVAILABLE] is a boolean parameter.
    - Three numerical routines are parameters of the pipeline: the Gaussian
      smoothing and the square root, which leave the rationals, and the
      mean, whose binary64 rounding the measurements show. *)

From Stdlib Require Import List ZArith QArith Qround Bool Lia Arith Permutation FinFun Sorted Lqa.
From Stdlib Require Floats.
Import ListNotations.

Open Scope Z_scope.

(** ** Errors *)

Inductive error : Type :=
| ValueError_gradient    (* np.gradient: an axis has fewer than 2 samples *)
| ValueError_percentile  (* np.percentile: q outside [0, 100] *)
| IndexError.            (* an index array that does not fit the array *)

Inductive result (A : Type) : Type :=
| OK (a : A)
| Error (e : error).
Arguments OK {A} a.
Arguments Error {A} e.

Definition bind {A B} (m : result A) (k : A -> result B) : result B :=
  match m with
  | OK a => k a
  | Error e => Error e
  end.

Notation "x <- m ;; k" := (bind m (fun x => k))
  (at level 61, m at next level, right associativity).

(** ** Arrays *)

Definition grid (A : Type) := list (list A).
Definition pixel := (Z * Z)%type.

Definition nrows {A} (g : grid A) : nat := length g.
Definition ncols {A} (g : grid A) : nat := length (hd [] g).

(** [rect h w g]: [g] has shape [(h, w)]. *)
Definition rect {A} (h w : nat) (g : grid A) : Prop :=
  length g = h /\ Forall (fun row => length row = w) g.

Definition rectb {A} (h w : nat) (g : grid A) : bool :=
  (length g =? h)%nat && forallb (fun row => (length row =? w)%nat) g.

Definition in_range (h w : nat) (p : pixel) : Prop :=
  0 <= fst p < Z.of_nat h /\ 0 <= snd p < Z.of_nat w.

Definition in_rangeb (h w : Z) (p : pixel) : bool :=
  (0 <=? fst p) && (fst p <? h) && (0 <=? snd p) && (snd p <? w).

(** [a[r, c]], read with a default outside the array (every read of the
    source is inside, or guarded by a bounds test). *)
Definition get {A} (d : A) (g : grid A) (p : pixel) : A :=
  nth (Z.to_nat (snd p)) (nth (Z.to_nat (fst p)) g []) d.

Fixpoint set_nth {A} (i : nat) (v : A) (l : list A) : list A :=
  match l, i with
  | [], _ => []
  | _ :: t, O => v :: t
  | x :: t, S i' => x :: set_nth i' v t
  end.

(** [a[r, c] = v]. *)
Definition set {A} (g : grid A) (p : pixel) (v : A) : grid A :=
  let i := Z.to_nat (fst p) in
  set_nth i (set_nth (Z.to_nat (snd p)) v (nth i g [])) g.

(** [range(n)]. *)
Definition range (n : nat) : list Z := map Z.of_nat (seq 0 n).

(** All pixels of an [h] x [w] array in raster order. *)
Definition positions (h w : nat) : list pixel :=
  flat_map (fun r => map (fun c => (r, c)) (range w)) (range h).

Definition gmap {A B} (f : A -> B) (g : grid A) : grid B := map (map f) g.

Fixpoint zip_with {A B C} (f : A -> B -> C) (l1 : list A) (l2 : list B) : list C :=
  match l1, l2 with
  | x :: t1, y :: t2 => f x y :: zip_with f t1 t2
  | _, _ => []
  end.

Definition gmap2 {A B C} (f : A -> B -> C) (g1 : grid A) (g2 : grid B) : grid C :=
  zip_with (zip_with f) g1 g2.

(** A fresh array computed pixel by pixel. *)
Definition tabulate {A} (h w : nat) (f : pixel -> A) : grid A :=
  map (fun r => map (fun c => f (r, c)) (range w)) (range h).

(** [np.any], [np.sum] of a boolean array, [a.ravel()]. *)
Definition ravel {A} (g : grid A) : list A := concat g.
Definition np_any (m : grid bool) : bool := existsb (fun b => b) (ravel m).
Definition count_true (l : list bool) : nat := length (filter (fun b => b) l).
Definition np_sum (m : grid bool) : Z := Z.of_nat (count_true (ravel m)).

(** ** Connected-component labelling: [label_components] *)

Definition neighbours : list pixel := [(1, 0); (-1, 0); (0, 1); (0, -1)].

(** One turn of [for dr, dc in [(1,0),(-1,0),(0,1),(0,-1)]].  The stack is a
    Python list used from its end; its top is the head of the Rocq list. *)
Definition visit (mask : grid bool) (h w : Z) (current : Z) (p : pixel)
    (st : grid Z * list pixel) (d : pixel) : grid Z * list pixel :=
  let '(labeled, stack) := st in
  let nr := fst p + fst d in
  let nc := snd p + snd d in
  if in_rangeb h w (nr, nc) && get false mask (nr, nc)
     && (get 0 labeled (nr, nc) =? 0)
  then (set labeled (nr, nc) current, (nr, nc) :: stack)
  else (labeled, stack).

(** [while stack: ...], bounded by [fuel] turns; [None] when the bound is
    hit before the stack is empty. *)
Fixpoint flood (fuel : nat) (mask : grid bool) (h w : Z) (current : Z)
    (labeled : grid Z) (stack : list pixel) : option (grid Z) :=
  match stack with
  | [] => Some labeled
  | p :: rest =>
      match fuel with
      | O => None
      | S fuel' =>
          let '(labeled', stack') :=
            fold_left (visit mask h w current p) neighbours (labeled, rest) in
          flood fuel' mask h w current labeled' stack'
      end
  end.

(** Body of the two [for] loops at pixel [p]. *)
Definition scan_pixel (fuel : nat) (mask : grid bool) (h w : Z)
    (st : option (grid Z * Z)) (p : pixel) : option (grid Z * Z) :=
  match st with
  | None => None
  | Some (labeled, current) =>
      if get false mask p && (get 0 labeled p =? 0) then
        let current := current + 1 in
        match flood fuel mask h w current (set labeled p current) [p] with
        | Some labeled' => Some (labeled', current)
        | None => None
        end
      else Some (labeled, current)
  end.

Definition np_zeros {A} (g : grid A) : grid Z := gmap (fun _ => 0) g.

Definition label_fuel (fuel : nat) (mask : grid bool) : option (grid Z * Z) :=
  let h := nrows mask in
  let w := ncols mask in
  fold_left
    (fun st r =>
       fold_left
         (fun st c => scan_pixel fuel mask (Z.of_nat h) (Z.of_nat w) st (r, c))
         (range w) st)
    (range h) (Some (np_zeros mask, 0)).

(** The flood fill of the fallback branch.  A fill pops each pixel at most
    once, so [h * w] turns are enough ([label_fuel_enough] below). *)
Definition label_bfs (mask : grid bool) : grid Z * Z :=
  match label_fuel (nrows mask * ncols mask) mask with
  | Some res => res
  | None => (np_zeros mask, 0)
  end.

(** [ndi.label(mask)] with its default structuring element labels the
    4-connected components with 1..n in raster order of their first pixel,
    which is what the explicit flood fill computes. *)
Definition ndi_label (mask : grid bool) : grid Z * Z := label_bfs mask.

Definition label_components (SCIPY_AVAILABLE : bool) (mask : grid bool)
    : grid Z * Z :=
  if SCIPY_AVAILABLE then ndi_label mask else label_bfs mask.


(** 4-connectivity inside the foreground of [mask]: [connected mask h w p q]
    when a path of foreground pixels, each step up, down, left or right,
    leads from [p] to [q]. *)
Definition fg (mask : grid bool) (h w : nat) (p : pixel) : Prop :=
  in_range h w p /\ get false mask p = true.

Definition adjacent (p q : pixel) : Prop :=
  In (fst q - fst p, snd q - snd p) neighbours.

Inductive connected (mask : grid bool) (h w : nat) : pixel -> pixel -> Prop :=
| conn_refl p : fg mask h w p -> connected mask h w p p
| conn_step p q r :
    connected mask h w p q -> adjacent q r -> fg mask h w r ->
    connected mask h w p r.

(** ** Sorting *)

Fixpoint insert {A} (lt : A -> A -> bool) (x : A) (l : list A) : list A :=
  match l with
  | [] => [x]
  | y :: t => if lt y x then y :: insert lt x t else x :: y :: t
  end.

(** A stable sort: equal elements keep their order. *)
Definition sort_by {A} (lt : A -> A -> bool) (l : list A) : list A :=
  fold_right (insert lt) [] l.

Definition Qlt_bool (x y : Q) : bool := negb (Qle_bool y x).

(** ** Small-region filter: [remove_small_components] *)

Fixpoint dedup (l : list Z) : list Z :=
  match l with
  | x :: (y :: _) as t => if x =? y then dedup t else x :: dedup t
  | _ => l
  end.

(** [np.unique]: the sorted distinct values. *)
Definition np_unique (l : list Z) : list Z := dedup (sort_by Z.ltb l).

Definition remove_small_components (labeled : grid Z) (min_area : Z)
    : grid bool :=
  let mask := gmap (fun v => 0 <? v) labeled in
  if negb (np_any mask) then mask
  else
    let labels := np_unique (filter (fun v => 0 <? v) (ravel labeled)) in
    let keep := gmap (fun _ => false) labeled in
    fold_left
      (fun keep lab =>
         if min_area <=? np_sum (gmap (fun v => v =? lab) labeled)
         then gmap2 orb keep (gmap (fun v => v =? lab) labeled)
         else keep)
      labels keep.

(** ** Morphology *)

(** [np.argwhere]: the pixels holding [True], in raster order. *)
Definition np_argwhere (m : grid bool) : list pixel :=
  filter (get false m) (positions (nrows m) (ncols m)).

(** [y, x = np.ogrid[-r:r+1, -r:r+1]; (x*x + y*y) <= r*r]. *)
Definition disk (r : Z) : grid bool :=
  let n := Z.to_nat (2 * r + 1) in
  tabulate n n (fun p =>
    let y := fst p - r in
    let x := snd p - r in
    x * x + y * y <=? r * r).

(** Offsets of a structuring element from its centre [shape // 2]. *)
Definition se_offsets (se : grid bool) : list pixel :=
  let cy := Z.of_nat (nrows se) / 2 in
  let cx := Z.of_nat (ncols se) / 2 in
  map (fun p => (fst p - cy, snd p - cx)) (np_argwhere se).

(** [ndi.binary_dilation(input, structure)] (SciPy; one iteration, pixels
    outside the array count as background). *)
Definition ndi_binary_dilation (input : grid bool) (structure : grid bool)
    : grid bool :=
  let h := nrows input in
  let w := ncols input in
  tabulate h w (fun p =>
    existsb (fun o =>
      let q := (fst p - fst o, snd p - snd o) in
      in_rangeb (Z.of_nat h) (Z.of_nat w) q && get false input q)
      (se_offsets structure)).

(** [ndi.binary_erosion(input, structure)] (SciPy; pixels outside the array
    count as background). *)
Definition ndi_binary_erosion (input : grid bool) (structure : grid bool)
    : grid bool :=
  let h := nrows input in
  let w := ncols input in
  tabulate h w (fun p =>
    forallb (fun o =>
      let q := (fst p + fst o, snd p + snd o) in
      in_rangeb (Z.of_nat h) (Z.of_nat w) q && get false input q)
      (se_offsets structure)).

(** [ndi.binary_closing]: the dilation, then the erosion of the result. *)
Definition ndi_binary_closing (input : grid bool) (structure : grid bool)
    : grid bool :=
  ndi_binary_erosion (ndi_binary_dilation input structure) structure.

Definition on_borderb (h w : Z) (p : pixel) : bool :=
  (fst p =? 0) || (fst p =? h - 1) || (snd p =? 0) || (snd p =? w - 1).

(** [ndi.binary_fill_holes(input)] (SciPy, default structuring element):
    the background is flooded from the border of the array along 4-connected
    background paths and every pixel the flood misses becomes foreground.
    The flood is computed from the labelling of the background: a
    background pixel is reached when it shares its label with a background
    pixel of the border. *)
Definition ndi_binary_fill_holes (input : grid bool) : grid bool :=
  let h := nrows input in
  let w := ncols input in
  let bg := gmap negb input in
  let lab := fst (ndi_label bg) in
  let outer :=
    map (get 0 lab)
      (filter (fun p => on_borderb (Z.of_nat h) (Z.of_nat w) p && get false bg p)
         (positions h w)) in
  tabulate h w (fun p =>
    negb (get false bg p && existsb (fun l => l =? get 0 lab p) outer)).

(** [np.pad(arr, pad, mode='edge')]. *)
Definition np_pad_edge (pad : nat) (arr : grid Z) : grid Z :=
  let pad_row (row : list Z) :=
    repeat (hd 0 row) pad ++ row ++ repeat (last row 0) pad in
  let rows := map pad_row arr in
  repeat (hd [] rows) pad ++ rows ++ repeat (last rows []) pad.

(** [padded[r:r+k, c:c+k]]. *)
Definition window (padded : grid Z) (r c : Z) (k : nat) : grid Z :=
  map (fun row => firstn k (skipn (Z.to_nat c) row))
    (firstn k (skipn (Z.to_nat r) padded)).

Definition list_max (l : list Z) : Z :=
  match l with
  | [] => 0
  | x :: t => fold_left Z.max t x
  end.

Definition list_min (l : list Z) : Z :=
  match l with
  | [] => 0
  | x :: t => fold_left Z.min t x
  end.

Definition maximum_filter (arr : grid Z) (size : Z) : grid Z :=
  let k := Z.to_nat size in
  let pad := Z.to_nat (size / 2) in
  let padded := np_pad_edge pad arr in
  tabulate (nrows arr) (ncols arr) (fun p =>
    list_max (ravel (window padded (fst p) (snd p) k))).

Definition minimum_filter (arr : grid Z) (size : Z) : grid Z :=
  let k := Z.to_nat size in
  let pad := Z.to_nat (size / 2) in
  let padded := np_pad_edge pad arr in
  tabulate (nrows arr) (ncols arr) (fun p =>
    list_min (ravel (window padded (fst p) (snd p) k))).

(** [m.astype(int)] and [a > 0]. *)
Definition astype_int (m : grid bool) : grid Z :=
  gmap (fun b : bool => if b then 1 else 0) m.
Definition positive (a : grid Z) : grid bool := gmap (fun v => 0 <? v) a.

Definition binary_morphology (SCIPY_AVAILABLE : bool) (mask : grid bool)
    : grid bool :=
  if SCIPY_AVAILABLE then
    let se_close := disk 2 in
    let se_dil := disk 1 in
    let closed := ndi_binary_closing mask se_close in
    let dilated := ndi_binary_dilation closed se_dil in
    let filled := ndi_binary_fill_holes dilated in
    filled
  else
    let eroded := positive (minimum_filter (astype_int mask) 3) in
    let dilated := positive (maximum_filter (astype_int eroded) 3) in
    let dilated := positive (maximum_filter (astype_int dilated) 3) in
    dilated.

Definition dilate_mask (SCIPY_AVAILABLE : bool) (mask : grid bool) (radius : Z)
    : grid bool :=
  if radius <=? 0 then mask
  else if SCIPY_AVAILABLE then ndi_binary_dilation mask (disk radius)
  else
    Nat.iter (Z.to_nat radius)
      (fun out => positive (maximum_filter (astype_int out) 3)) mask.

(** ** Thresholding *)

Open Scope Q_scope.

(** [np.gradient] along one axis with unit spacing: central differences
    inside, one-sided differences at both ends. *)
Definition central (n : nat) (f : Z -> Q) (i : Z) : Q :=
  if (i =? 0)%Z then f 1%Z - f 0%Z
  else if (i =? Z.of_nat n - 1)%Z
       then f (Z.of_nat n - 1)%Z - f (Z.of_nat n - 2)%Z
       else (f (i + 1)%Z - f (i - 1)%Z) / 2.

(** [np.gradient(a)] returns the derivative along the rows axis, then along
    the columns axis; it raises when an axis has fewer than two samples. *)
Definition np_gradient (a : grid Q) : result (grid Q * grid Q) :=
  let h := nrows a in
  let w := ncols a in
  if (h <? 2)%nat || (w <? 2)%nat then Error ValueError_gradient
  else
    OK (tabulate h w (fun p => central h (fun k => get 0 a (k, snd p)) (fst p)),
        tabulate h w (fun p => central w (fun k => get 0 a (fst p, k)) (snd p))).

(** Modelled from the spec: [np.percentile] is a NumPy routine, not in the
    repository; the spec gives its rule: linear interpolation between the
    closest ranks of the sorted values, and a percentile outside [0, 100]
    is an error.  (On no values at all NumPy answers NaN; the pipeline never
    gets there, [np.gradient] has failed before.) *)
Definition np_percentile (values : list Q) (q : Q) : result Q :=
  if Qlt_bool q 0 || Qlt_bool 100 q then Error ValueError_percentile
  else
    let s := sort_by Qlt_bool values in
    let n := Z.of_nat (length s) in
    let pos := q / 100 * inject_Z (n - 1) in
    let lo := Qfloor pos in
    let hi := Z.min (lo + 1) (n - 1) in
    let frac := pos - inject_Z lo in
    let a := nth (Z.to_nat lo) s 0 in
    let b := nth (Z.to_nat hi) s 0 in
    OK (a + frac * (b - a)).

(** Lines 306-307: [tau = np.percentile(G_s, grad_pctl); M0 = G_s >= tau]. *)
Definition threshold (G_s : grid Q) (grad_pctl : Q) : result (Q * grid bool) :=
  tau <- np_percentile (ravel G_s) grad_pctl ;;
  OK (tau, gmap (fun g => Qle_bool tau g) G_s).

(** Lines 306-307 on a field in which a magnitude may be NaN ([None]), as
    the smoothing without SciPy makes every one at sigma 0, where its kernel
    is 0 / 0: [np.percentile] checks the percentile first and answers NaN as
    soon as a value is NaN, and a comparison with NaN is false. *)
Definition number (v : option Q) : Q :=
  match v with
  | Some x => x
  | None => 0
  end.

Definition isnan (v : option Q) : bool :=
  match v with
  | Some _ => false
  | None => true
  end.

Definition np_percentile_nan (values : list (option Q)) (q : Q)
    : result (option Q) :=
  if Qlt_bool q 0 || Qlt_bool 100 q then Error ValueError_percentile
  else if existsb isnan values then OK None
  else
    t <- np_percentile (map number values) q ;;
    OK (Some t).

(** [g >= tau]. *)
Definition ge_nan (g tau : option Q) : bool :=
  match g, tau with
  | Some x, Some t => Qle_bool t x
  | _, _ => false
  end.

Definition threshold_nan (G_s : grid (option Q)) (grad_pctl : Q)
    : result (option Q * grid bool) :=
  tau <- np_percentile_nan (ravel G_s) grad_pctl ;;
  OK (tau, gmap (fun g => ge_nan g tau) G_s).

(** ** Region analysis and ranking *)

Record Region : Type := mkRegion {
  ID : Z;
  area_px : Z;
  Tmax_C : Q;
  Tmean_C : Q;
  Tbg_C : Q;
  DeltaT_C : Q;
  row : Z;
  col : Z
}.

Definition Qmaxb (x y : Q) : Q := if Qlt_bool x y then y else x.

(** [np.max]. *)
Definition np_max (vals : list Q) : Q :=
  match vals with
  | [] => 0
  | x :: t => fold_left Qmaxb t x
  end.

Fixpoint argmax_from (best : Q) (besti i : nat) (l : list Q) : nat :=
  match l with
  | [] => besti
  | x :: t =>
      if Qlt_bool best x then argmax_from x i (S i) t
      else argmax_from best besti (S i) t
  end.

(** [np.argmax]: the first index of the maximum. *)
Definition np_argmax (vals : list Q) : nat :=
  match vals with
  | [] => O
  | x :: t => argmax_from x 0 1 t
  end.

Definition Qsum (vals : list Q) : Q := fold_right Qplus 0 vals.

(** The arithmetic mean, exact. *)
Definition mean_exact (vals : list Q) : Q :=
  Qsum vals / inject_Z (Z.of_nat (length vals)).

(** [np.median]: the middle of the sorted values, the mean of the two middle
    ones when their number is even. *)
Definition np_median (vals : list Q) : Q :=
  let s := sort_by Qlt_bool vals in
  let n := length s in
  if Nat.even n then (nth (n / 2 - 1) s 0 + nth (n / 2) s 0) / 2
  else nth (n / 2) s 0.

(** [np.isnan]: the grid holds rationals, none is NaN. *)
Definition np_isnan (x : Q) : bool := false.

(** [T[m]] for a boolean array [m]. *)
Definition select (T : grid Q) (m : grid bool) : list Q :=
  map (get 0 T) (np_argwhere m).

Definition same_shape {A B} (a : grid A) (b : grid B) : bool :=
  (nrows a =? nrows b)%nat && (ncols a =? ncols b)%nat.

(** Sort key [(-d["Tmax_C"], -d["DeltaT_C"])], compared as Python compares
    tuples. *)
Definition sort_key (d : Region) : Q * Q := (- Tmax_C d, - DeltaT_C d).

Definition key_lt (a b : Q * Q) : bool :=
  if Qeq_bool (fst a) (fst b) then Qlt_bool (snd a) (snd b)
  else Qlt_bool (fst a) (fst b).

(** [sorted(regions, key=...)]. *)
Definition sorted_regions (regions : list Region) : list Region :=
  sort_by (fun a b => key_lt (sort_key a) (sort_key b)) regions.

(** The local background of lines 328-336. *)
Definition local_background (SCIPY_AVAILABLE : bool) (T : grid Q)
    (mask_R : grid bool) (ring_width : Z) : Q :=
  let dilated_R := dilate_mask SCIPY_AVAILABLE mask_R ring_width in
  let ring := gmap2 andb dilated_R (gmap negb mask_R) in
  let ring_vals := select T ring in
  if (length ring_vals =? 0)%nat || forallb np_isnan ring_vals then
    let outside_vals := select T (gmap negb mask_R) in
    if (0 <? length outside_vals)%nat then np_median outside_vals
    else np_median (ravel T)
  else np_median ring_vals.

Close Scope Q_scope.

(** ** The pipeline: [hotspot_detection] *)

Record detection : Type := mkDetection {
  G_s : grid Q;
  tau : Q;
  M_clean : grid bool;
  labeled_clean : grid Z;
  regions_sorted : list Region
}.

Section Pipeline.

Variable SCIPY_AVAILABLE : bool.

(** [gaussian_smooth] (lines 77-87) weighs the grid with exponentials,
    through [ndi.gaussian_filter] or [np.exp] and [np.convolve]; its values
    are not rational, and no property below depends on them. *)
Variable gaussian_smooth : grid Q -> Q -> grid Q.

(** [np.sqrt]. *)
Variable np_sqrt : Q -> Q.

(** [np.mean]: the sum of the values, added up in binary64, over their
    number.  The rounding of the sum depends on the order of the additions
    and can leave the mean above the largest value; it is not the exact
    mean, and the properties below hold for every [np_mean]. *)
Variable np_mean : list Q -> Q.

(** Body of [for lab in range(1, nlab+1)]: no region ([continue]), one
    region, or the [IndexError] NumPy raises at [T[ring]] when the label
    map does not have the shape of [T]. *)
Definition analyze_region (T : grid Q) (labeled_clean : grid Z)
    (ring_width : Z) (lab : Z) : result (list Region) :=
  let mask_R := gmap (fun v => v =? lab) labeled_clean in
  let coords := np_argwhere mask_R in
  if (length coords =? 0)%nat then OK []
  else if negb (same_shape T labeled_clean) then Error IndexError
  else
    let area := Z.of_nat (length coords) in
    let vals := map (get 0%Q T) coords in
    let Tmax := np_max vals in
    let max_idx := np_argmax vals in
    let rmax := fst (nth max_idx coords (0, 0)) in
    let cmax := snd (nth max_idx coords (0, 0)) in
    let Tmean := np_mean vals in
    let Tbg := local_background SCIPY_AVAILABLE T mask_R ring_width in
    let deltaT := (Tmax - Tbg)%Q in
    OK [mkRegion lab area Tmax Tmean Tbg deltaT rmax cmax].

(** Lines 314-347: the list [regions], in label order. *)
Definition analyze (T : grid Q) (labeled_clean : grid Z) (nlab : Z)
    (ring_width : Z) : result (list Region) :=
  fold_left
    (fun acc lab =>
       regions <- acc ;;
       r <- analyze_region T labeled_clean ring_width lab ;;
       OK (regions ++ r))
    (map Z.of_nat (seq 1 (Z.to_nat nlab))) (OK []).

(** Lines 303-305: the gradient magnitude of the smoothed grid. *)
Definition smoothed_gradient (T : grid Q) (gaussian_sigma : Q)
    : result (grid Q) :=
  let T_s := gaussian_smooth T gaussian_sigma in
  g <- np_gradient T_s ;;
  let gys := fst g in
  let gxs := snd g in
  OK (gmap2 (fun gx gy => np_sqrt (gx * gx + gy * gy)%Q) gxs gys).

(** Lines 309-312: from the candidate mask to the filtered mask. *)
Definition clean_mask (M0 : grid bool) (region_min_area : Z) : grid bool :=
  let M := binary_morphology SCIPY_AVAILABLE M0 in
  let labeled := fst (label_components SCIPY_AVAILABLE M) in
  remove_small_components labeled region_min_area.

Definition hotspot_detection (T : grid Q) (gaussian_sigma : Q)
    (grad_pctl : Q) (region_min_area : Z) (ring_width : Z)
    : result detection :=
  G_s <- smoothed_gradient T gaussian_sigma ;;
  th <- threshold G_s grad_pctl ;;
  let tau := fst th in
  let M0 := snd th in
  let M_clean := clean_mask M0 region_min_area in
  let labeled_clean := fst (label_components SCIPY_AVAILABLE M_clean) in
  let nlab := snd (label_components SCIPY_AVAILABLE M_clean) in
  regions <- analyze T labeled_clean nlab ring_width ;;
  let regions_sorted := sorted_regions regions in
  OK (mkDetection G_s tau M_clean labeled_clean regions_sorted).

End Pipeline.

(** Instances of the numerical parameters, to run the pipeline on
    examples: the smoothing that returns its input (what
    [ndi.gaussian_filter] does for a sigma that is not positive, and what
    any normalised smoothing does on a constant grid), a square root
    that is exact on the squares of rationals, and for the mean the exact
    mean [mean_exact] or the binary64 mean [mean_binary64] below. *)
Definition smooth_none (a : grid Q) (sigma : Q) : grid Q := a.

Definition sqrt_exact (q : Q) : Q :=
  Qmake (Z.sqrt (Qnum q * Z.pos (Qden q))) (Qden q).

(** ** Binary64

    The mean that [np.mean] computes, on doubles: the values are added up
    by NumPy's pairwise summation (fewer than 8 values one after the other
    from 0, up to 128 values in eight partial sums, more by halves), the
    sum is added to the initial 0 of the reduction and divided by the
    number of values.  A rational stands for the double nearest to it, and
    a double for the rational it is; a sum that overflows has no rational
    and reads 0. *)
Definition Z2F (z : Z) : PrimFloat.float :=
  FloatOps.SF2Prim
    (SpecFloat.binary_normalize FloatOps.prec FloatOps.emax z 0 false).

Definition Q2F (q : Q) : PrimFloat.float :=
  PrimFloat.div (Z2F (Qnum q)) (Z2F (Zpos (Qden q))).

Definition F2Q (f : PrimFloat.float) : Q :=
  match FloatOps.Prim2SF f with
  | SpecFloat.S754_finite s m e =>
      let n := if s then Zneg m else Zpos m in
      if 0 <=? e then inject_Z (n * 2 ^ e)
      else Qmake n (Z.to_pos (2 ^ (- e)))
  | _ => 0%Q
  end.

(** [res = 0.; for (i = 0; i < n; i++) res += a[i]]. *)
Definition sum_from (res : PrimFloat.float) (a : list PrimFloat.float)
    : PrimFloat.float :=
  fold_left PrimFloat.add a res.

(** The eight partial sums [r[0..7]] over the blocks of 8 values. *)
Fixpoint sum_blocks (fuel : nat) (r : list PrimFloat.float)
    (a : list PrimFloat.float) : list PrimFloat.float * list PrimFloat.float :=
  match fuel with
  | O => (r, a)
  | S fuel' =>
      if (8 <=? length a)%nat
      then sum_blocks fuel' (zip_with PrimFloat.add r (firstn 8 a)) (skipn 8 a)
      else (r, a)
  end.

Definition sum_unrolled (a : list PrimFloat.float) : PrimFloat.float :=
  let '(r, rest) := sum_blocks (length a) (firstn 8 a) (skipn 8 a) in
  let r' i := nth i r PrimFloat.zero in
  let res :=
    PrimFloat.add
      (PrimFloat.add (PrimFloat.add (r' 0%nat) (r' 1%nat))
                     (PrimFloat.add (r' 2%nat) (r' 3%nat)))
      (PrimFloat.add (PrimFloat.add (r' 4%nat) (r' 5%nat))
                     (PrimFloat.add (r' 6%nat) (r' 7%nat))) in
  sum_from res rest.

Fixpoint pairwise_sum (fuel : nat) (a : list PrimFloat.float)
    : PrimFloat.float :=
  let n := length a in
  if (n <? 8)%nat then sum_from PrimFloat.zero a
  else if (n <=? 128)%nat then sum_unrolled a
  else
    match fuel with
    | O => sum_unrolled a
    | S fuel' =>
        let n2 := (n / 2 - (n / 2) mod 8)%nat in
        PrimFloat.add (pairwise_sum fuel' (firstn n2 a))
                      (pairwise_sum fuel' (skipn n2 a))
    end.

Definition mean_binary64 (vals : list Q) : Q :=
  let a := map Q2F vals in
  let total := PrimFloat.add PrimFloat.zero (pairwise_sum (length a) a) in
  F2Q (PrimFloat.div total (Z2F (Z.of_nat (length vals)))).


(** ** Specification of a labelling, and the invariants of the flood fill *)

(** [label_spec mask h w labeled n]: [labeled] numbers the 4-connected
    components of the foreground of [mask] with 1..n. *)
Record label_spec (mask : grid bool) (h w : nat) (labeled : grid Z) (n : Z)
    : Prop := {
  ls_rect : rect h w labeled;
  ls_count : 0 <= n;
  ls_fg : forall p, fg mask h w p -> 1 <= get 0 labeled p <= n;
  ls_bg : forall p, in_range h w p -> get false mask p = false ->
                    get 0 labeled p = 0;
  ls_conn : forall p q, fg mask h w p -> fg mask h w q ->
                        (get 0 labeled p = get 0 labeled q <->
                         connected mask h w p q);
  ls_used : forall l, 1 <= l <= n ->
                      exists p, fg mask h w p /\ get 0 labeled p = l
}.

(** Foreground pixels still without a label. *)
Definition pending (mask : grid bool) (h w : nat) (labeled : grid Z) : nat :=
  length (filter (fun p => get false mask p && (get 0 labeled p =? 0))
            (positions h w)).

(** Labels are never overwritten. *)
Definition extends (h w : nat) (L0 L : grid Z) : Prop :=
  forall p, in_range h w p -> get 0 L0 p <> 0 -> get 0 L p = get 0 L0 p.

(** Invariant of the labelling: labels lie in 0..cur and on the foreground,
    equal labels are connected, every label below [closed] marks a whole
    component, and every label of 1..cur is in use. *)
Record label_inv (mask : grid bool) (h w : nat) (cur closed : Z)
    (L : grid Z) : Prop := {
  li_rect : rect h w L;
  li_fg : forall p, in_range h w p -> get 0 L p <> 0 ->
                    get false mask p = true;
  li_bound : forall p, in_range h w p -> 0 <= get 0 L p <= cur;
  li_sound : forall p q, in_range h w p -> in_range h w q ->
                         get 0 L p = get 0 L q -> get 0 L p <> 0 ->
                         connected mask h w p q;
  li_closed : forall p q, in_range h w p -> in_range h w q -> adjacent p q ->
                          0 < get 0 L p < closed -> get false mask q = true ->
                          get 0 L q = get 0 L p;
  li_used : forall l, 1 <= l <= cur ->
                      exists p, in_range h w p /\ get 0 L p = l
}.

(** The neighbours of [p] in the directions [D] are labelled, where they
    are foreground. *)
Definition explored (mask : grid bool) (h w : nat) (L : grid Z) (p : pixel)
    (D : list pixel) : Prop :=
  forall d, In d D ->
    in_range h w (fst p + fst d, snd p + snd d) ->
    get false mask (fst p + fst d, snd p + snd d) = true ->
    get 0 L (fst p + fst d, snd p + snd d) <> 0.

Definition stack_ok (h w : nat) (cur : Z) (L : grid Z) (stack : list pixel)
    : Prop :=
  forall p, In p stack -> in_range h w p /\ get 0 L p = cur.

(** State of the fill while the neighbours of the popped pixel [p0] are
    visited, the directions [D] being done. *)
Definition visiting (mask : grid bool) (h w : nat) (cur : Z) (L0 : grid Z)
    (p0 : pixel) (D : list pixel) (n : nat) (st : grid Z * list pixel)
    : Prop :=
  label_inv mask h w cur cur (fst st) /\
  stack_ok h w cur (fst st) (snd st) /\
  extends h w L0 (fst st) /\
  get 0 (fst st) p0 = cur /\
  (forall p, in_range h w p -> get 0 (fst st) p = cur ->
             p = p0 \/ In p (snd st) \/ explored mask h w (fst st) p neighbours) /\
  explored mask h w (fst st) p0 D /\
  (pending mask h w (fst st) + length (snd st) = n)%nat.

(** State of the fill between two turns of its loop. *)
Definition filling (mask : grid bool) (h w : nat) (cur : Z) (L0 : grid Z)
    (n : nat) (L : grid Z) (stack : list pixel) : Prop :=
  label_inv mask h w cur cur L /\
  stack_ok h w cur L stack /\
  extends h w L0 L /\
  (forall p, in_range h w p -> get 0 L p = cur ->
             In p stack \/ explored mask h w L p neighbours) /\
  (pending mask h w L + length stack = n)%nat.

(** State of the scan after the pixels [done]. *)
Definition scanned (mask : grid bool) (h w : nat) (done : list pixel)
    (st : option (grid Z * Z)) : Prop :=
  exists L cur,
    st = Some (L, cur) /\ 0 <= cur /\
    label_inv mask h w cur (cur + 1) L /\
    (forall p, In p done -> in_range h w p -> get false mask p = true ->
               get 0 L p <> 0).

(** ** Stated properties *)

(** The ranking order: each region is followed by one with a lower peak,
    or with the same peak and no larger contrast. *)
Definition ranked (l : list Region) : Prop :=
  forall i a b,
    nth_error l i = Some a -> nth_error l (S i) = Some b ->
    (Tmax_C b < Tmax_C a)%Q \/
    (Tmax_C a == Tmax_C b /\ DeltaT_C b <= DeltaT_C a)%Q.

(** The pixels of the region [lab] of a label map. *)
Definition region_pixels (labeled : grid Z) (lab : Z) (p : pixel) : Prop :=
  in_range (nrows labeled) (ncols labeled) p /\ get 0 labeled p = lab.

(** [np.sum(labeled == lab)] counts the pixels labelled [lab]. *)
Definition area_of (h w : nat) (labeled : grid Z) (lab : Z) : nat :=
  length (filter (fun q => get 0 labeled q =? lab) (positions h w)).

(** [labeled] and [count] number the maximal 4-connected components of the
    foreground: positive labels on the foreground, 0 elsewhere, one label
    per component, and [count] components, listed by one pixel each. *)
Definition labels_components (mask : grid bool) (h w : nat)
    (labeled : grid Z) (count : Z) : Prop :=
  rect h w labeled /\
  (forall p, fg mask h w p -> 1 <= get 0 labeled p <= count) /\
  (forall p, in_range h w p -> get false mask p = false ->
             get 0 labeled p = 0) /\
  (forall p q, fg mask h w p -> fg mask h w q ->
     (get 0 labeled p = get 0 labeled q <-> connected mask h w p q)) /\
  (exists reps : list pixel,
     Z.of_nat (length reps) = count /\
     (forall r, In r reps -> fg mask h w r) /\
     (forall i j r s, nth_error reps i = Some r -> nth_error reps j = Some s ->
                      connected mask h w r s -> i = j) /\
     (forall p, fg mask h w p ->
                exists r, In r reps /\ connected mask h w r p)) /\
  ((forall p, in_range h w p -> get false mask p = false) -> count = 0).

(** What the analysis reports for a region [r] of the label map: peak,
    mean and peak location are those of the grid [T] over the pixels of
    the region.  The mean is what [np_mean] makes of the values of the
    pixels, taken in raster order (the order of [np.argwhere]). *)
Definition measured (np_mean : list Q -> Q) (T : grid Q) (labeled : grid Z)
    (r : Region) : Prop :=
  let px := region_pixels labeled (ID r) in
  (forall p, px p -> (get 0 T p <= Tmax_C r)%Q) /\
  (exists p, px p /\ get 0%Q T p = Tmax_C r) /\
  (exists pixels : list pixel,
     pixels = np_argwhere (gmap (fun v => v =? ID r) labeled) /\
     NoDup pixels /\ (forall p, In p pixels <-> px p) /\ pixels <> [] /\
     area_px r = Z.of_nat (length pixels) /\
     Tmean_C r = np_mean (map (get 0%Q T) pixels)) /\
  px (row r, col r) /\
  get 0%Q T (row r, col r) = Tmax_C r.




(** Squared Euclidean distance of two pixels. *)
Definition dist2 (p q : pixel) : Z :=
  (fst p - fst q) * (fst p - fst q) + (snd p - snd q) * (snd p - snd q).

(** [out] is the dilation of [m] by the disk of radius [r]: a pixel is
    foreground when a foreground pixel of [m] lies within distance [r]. *)
Definition is_dilation (r : Z) (h w : nat) (m out : grid bool) : Prop :=
  forall p, in_range h w p ->
    (get false out p = true <->
     exists q, fg m h w q /\ dist2 p q <= r * r).

(** [out] is the erosion of [m] by the disk of radius [r]: a pixel stays
    foreground when every pixel within distance [r] is foreground of [m]
    (outside the array there is no foreground). *)
Definition is_erosion (r : Z) (h w : nat) (m out : grid bool) : Prop :=
  forall p, in_range h w p ->
    (get false out p = true <->
     forall q, dist2 p q <= r * r -> fg m h w q).

Definition on_border (h w : nat) (p : pixel) : Prop :=
  in_range h w p /\
  (fst p = 0 \/ fst p = Z.of_nat h - 1 \/ snd p = 0 \/ snd p = Z.of_nat w - 1).

(** A path of background pixels leads from the border of the array to [p]. *)
Definition reaches_border (m : grid bool) (h w : nat) (p : pixel) : Prop :=
  exists b, on_border h w b /\ connected (gmap negb m) h w b p.

(** [out] is [m] with its holes filled: the background pixels that no
    background path joins to the border have become foreground. *)
Definition is_hole_filling (h w : nat) (m out : grid bool) : Prop :=
  forall p, in_range h w p ->
    (get false out p = true <->
     get false m p = true \/ ~ reaches_border m h w p).

(** The sequence of the morphology engine: closing with radius 2 (dilation,
    then erosion), dilation with radius 1, hole filling.  Every mask of the
    sequence has the shape of the input, so that each stage determines the
    next one at every pixel. *)
Definition refined (h w : nat) (mask out : grid bool) : Prop :=
  rect h w out /\
  exists dilated closed grown : grid bool,
    rect h w dilated /\ rect h w closed /\ rect h w grown /\
    is_dilation 2 h w mask dilated /\
    is_erosion 2 h w dilated closed /\
    is_dilation 1 h w closed grown /\
    is_hole_filling h w grown out.

(** The local background as the analyzer's contract words it: dilate the
    mask of the region by a disk of radius [ringWidth], keep the ring (the
    dilated mask minus the region), take the median of the grid over the
    ring; on an empty ring the median over the pixels outside the region,
    and the median of the whole grid when there is none. *)
Definition dilate_disk (region : grid bool) (radius : Z) : grid bool :=
  let h := nrows region in
  let w := ncols region in
  tabulate h w (fun p =>
    (0 <=? radius)
    && existsb (fun q => get false region q && (dist2 p q <=? radius * radius))
         (positions h w)).

Definition background_spec (T : grid Q) (region : grid bool) (ringWidth : Z)
    : Q :=
  let expanded := dilate_disk region ringWidth in
  let ring := gmap2 andb expanded (gmap negb region) in
  match select T ring with
  | [] =>
      match select T (gmap negb region) with
      | [] => np_median (ravel T)
      | outside => np_median outside
      end
  | ring_vals => np_median ring_vals
  end.

(** Chessboard distance of two pixels, and the 3 x 3 window of a pixel in
    an array padded by its edge values: out of the array the window reads
    the nearest pixel of the array. *)
Definition cheb (p q : pixel) : Z :=
  Z.max (Z.abs (fst p - fst q)) (Z.abs (snd p - snd q)).

Definition clamp (n : nat) (x : Z) : Z := Z.max 0 (Z.min x (Z.of_nat n - 1)).

Definition window_pixels (h w : nat) (p : pixel) : list pixel :=
  flat_map
    (fun di => map (fun dj => (clamp h (fst p + di), clamp w (snd p + dj)))
                 [-1; 0; 1])
    [-1; 0; 1].

(** ** Loading: [load_and_clean_csv] from the parsed rows on

    The reading of the file and the parsing of its lines (lines 204-222 of
    the source) are outside the model: [load_and_clean_csv] takes the list
    [rows] they produce.  A cell is what [safe_float] returns: a finite
    number (an exact rational), an infinity ([float] reads the tokens inf
    and -inf) or NaN (also for a token that is no number).  A shape is a
    pair of integers, as [main] passes the override; negative entries are
    kept, with what Python's slices and list repetition make of them. *)

Inductive load_error : Type :=
| RuntimeError_no_rows   (* "No numeric rows parsed." *)
| TypeError_no_shape     (* unpacking [None]: no standard shape to choose *)
| ValueError_ragged.     (* [np.array]: rows of different lengths *)

Inductive load_result (A : Type) : Type :=
| Loaded (a : A)
| Failed (e : load_error).
Arguments Loaded {A} a.
Arguments Failed {A} e.

Inductive cell : Type :=
| Num (x : Q)
| PosInf
| NegInf
| NaN.

Definition is_nan (v : cell) : bool :=
  match v with
  | NaN => true
  | _ => false
  end.

Definition is_inf (v : cell) : bool :=
  match v with
  | PosInf | NegInf => true
  | _ => false
  end.

(** [[v for v in r if not np.isnan(v)]]. *)
Definition numbers (r : list cell) : list cell :=
  filter (fun v => negb (is_nan v)) r.

(** The order of the values that are not NaN. *)
Definition cell_lt (a b : cell) : bool :=
  match a, b with
  | NegInf, NegInf => false
  | NegInf, _ => true
  | Num x, Num y => Qlt_bool x y
  | Num _, PosInf => true
  | _, _ => false
  end.

(** Sum and half with infinities: inf + -inf is NaN. *)
Definition cell_add (a b : cell) : cell :=
  match a, b with
  | NaN, _ | _, NaN => NaN
  | PosInf, NegInf | NegInf, PosInf => NaN
  | PosInf, _ | _, PosInf => PosInf
  | NegInf, _ | _, NegInf => NegInf
  | Num x, Num y => Num (x + y)%Q
  end.

Definition cell_half (a : cell) : cell :=
  match a with
  | Num x => Num (x / 2)%Q
  | v => v
  end.

(** [np.median] of values none of which is NaN: the middle of the sorted
    values, the mean of the two middle ones when their number is even. *)
Definition median_cells (vals : list cell) : cell :=
  let s := sort_by cell_lt vals in
  let n := length s in
  if Nat.even n
  then cell_half (cell_add (nth (n / 2 - 1) s NaN) (nth (n / 2) s NaN))
  else nth (n / 2) s NaN.

(** [l[:n]]: a negative [n] counts from the end. *)
Definition slice_to {A} (l : list A) (n : Z) : list A :=
  if n <? 0 then firstn (length l - Z.to_nat (- n)) l
  else firstn (Z.to_nat n) l.

(** [float(np.median(vals)) if vals else default]. *)
Definition median_or (default : cell) (vals : list cell) : cell :=
  match vals with
  | [] => default
  | _ => median_cells vals
  end.

(** [abs(num_rows_observed - tr) + abs(median_cols - tc)]. *)
Definition shape_score (num_rows_observed median_cols : Z) (s : Z * Z) : Z :=
  Z.abs (num_rows_observed - fst s) + Z.abs (median_cols - snd s).

(** The loop over [standard_shapes]: [best] and [best_score]. *)
Definition choose_shape (num_rows_observed median_cols : Z)
    (standard_shapes : list (Z * Z)) : option ((Z * Z) * Z) :=
  fold_left
    (fun best s =>
       let score := shape_score num_rows_observed median_cols s in
       match best with
       | None => Some (s, score)
       | Some (_, best_score) =>
           if score <? best_score then Some (s, score) else best
       end)
    standard_shapes None.

Definition target_shape (num_rows_observed median_cols : Z)
    (standard_shapes : list (Z * Z)) (shape_override : option (Z * Z))
    : option (Z * Z) :=
  match shape_override with
  | Some s => Some s
  | None =>
      option_map fst (choose_shape num_rows_observed median_cols standard_shapes)
  end.

(** [row_median if np.isnan(v) else v]. *)
Definition fill (med : cell) (v : cell) : cell :=
  if is_nan v then med else v.

(** The body of the loop over [rows[:target_rows]]. *)
Definition clean_row (global_median : cell) (target_cols : Z) (r : list cell)
    : list cell :=
  let rr :=
    if Z.of_nat (length r) >? target_cols then slice_to r target_cols
    else r ++ repeat NaN (Z.to_nat (target_cols - Z.of_nat (length r))) in
  let row_median := median_or global_median (numbers rr) in
  map (fill row_median) rr.

(** [np.array(processed_rows, dtype=float)]. *)
Definition np_array (rows : list (list cell)) : load_result (grid cell) :=
  match rows with
  | [] => Loaded []
  | r :: t =>
      if forallb (fun r' => (length r' =? length r)%nat) t then Loaded rows
      else Failed ValueError_ragged
  end.

(** The second pass over the rows of [T] that still hold a NaN. *)
Definition refill_row (global_median : cell) (row : list cell) : list cell :=
  if existsb is_nan row
  then map (fill (median_or global_median (numbers row))) row
  else row.

Definition refill (global_median : cell) (T : grid cell) : grid cell :=
  if existsb (existsb is_nan) T then map (refill_row global_median) T else T.

Definition median_cols (rows : list (list cell)) : Z :=
  Qfloor (np_median (map (fun r => inject_Z (Z.of_nat (length r))) rows)).

Definition global_median (rows : list (list cell)) : cell :=
  median_or (Num 0%Q) (flat_map numbers rows).

(** The loop over [rows[:target_rows]], then the loop
    [while len(processed_rows) < target_rows] that appends rows of
    [global_median]. *)
Definition processed_rows (gm : cell) (target_rows target_cols : Z)
    (rows : list (list cell)) : list (list cell) :=
  let processed :=
    map (clean_row gm target_cols) (slice_to rows target_rows) in
  processed ++
  repeat (repeat gm (Z.to_nat target_cols))
    (Z.to_nat (target_rows - Z.of_nat (length processed))).

Definition load_and_clean_csv (rows : list (list cell))
    (standard_shapes : list (Z * Z)) (shape_override : option (Z * Z))
    : load_result (grid cell * (Z * Z)) :=
  let num_rows_observed := Z.of_nat (length rows) in
  if num_rows_observed =? 0 then Failed RuntimeError_no_rows
  else
    match target_shape num_rows_observed (median_cols rows)
            standard_shapes shape_override with
    | None => Failed TypeError_no_shape
    | Some (target_rows, target_cols) =>
        let gm := global_median rows in
        match np_array (processed_rows gm target_rows target_cols rows) with
        | Failed e => Failed e
        | Loaded T => Loaded (refill gm T, (target_rows, target_cols))
        end
    end.

(** A uniform grid of the double nearest to 0.11. *)
Definition ex_uniform : grid Q := repeat (repeat (F2Q (Q2F (11 # 100))) 5) 5.

(** The rows of the example: a row too long with a NaN, a row too short,
    a row of NaN. *)
Definition ex_rows : list (list cell) :=
  [[Num 1%Q; NaN; Num 3%Q; Num 9%Q];
   [Num 4%Q; Num 6%Q];
   [NaN; NaN; NaN]].

(** ** Examples *)

Definition ex_mask : grid bool :=
  [[true; true; false; false];
   [false; true; false; true];
   [true; false; false; true]].

(** Two hot pixels, 60 and 80 degrees, on a 7 x 14 grid at 20 degrees. *)
Definition ex_T : grid Q :=
  [[20; 20; 20; 20; 20; 20; 20; 20; 20; 20; 20; 20; 20; 20];
   [20; 20; 20; 20; 20; 20; 20; 20; 20; 20; 20; 20; 20; 20];
   [20; 20; 20; 20; 20; 20; 20; 20; 20; 20; 20; 20; 20; 20];
   [20; 20; 20; 60; 20; 20; 20; 20; 20; 20; 80; 20; 20; 20];
   [20; 20; 20; 20; 20; 20; 20; 20; 20; 20; 20; 20; 20; 20];
   [20; 20; 20; 20; 20; 20; 20; 20; 20; 20; 20; 20; 20; 20];
   [20; 20; 20; 20; 20; 20; 20; 20; 20; 20; 20; 20; 20; 20]]%Q.

(** One foreground pixel in the middle of a 5 x 5 mask. *)
Definition ex_dot : grid bool :=
  [[false; false; false; false; false];
   [false; false; false; false; false];
   [false; false; true;  false; false];
   [false; false; false; false; false];
   [false; false; false; false; false]].

(** A one-pixel region with warm diagonal neighbours. *)
Definition ex_cross_T : grid Q := [[9; 0; 9]; [0; 5; 0]; [9; 0; 9]]%Q.
Definition ex_cross_labels : grid Z := [[0; 0; 0]; [0; 1; 0]; [0; 0; 0]].

(** * Proofs *)

(** ** The definitions at work *)

Example label_components_ex :
  label_components false ex_mask
  = ([[1; 1; 0; 0]; [0; 1; 0; 2]; [3; 0; 0; 2]], 3).
Proof. reflexivity. Qed.

Example remove_small_components_ex :
  remove_small_components [[1; 1; 0; 0]; [0; 1; 0; 2]; [3; 0; 0; 2]] 2
  = [[true; true; false; false];
     [false; true; false; true];
     [false; false; false; true]].
Proof. reflexivity. Qed.

Example disk_ex :
  disk 1 = [[false; true; false]; [true; true; true]; [false; true; false]].
Proof. reflexivity. Qed.

Example binary_morphology_ex :
  binary_morphology true ex_dot
  = [[false; false; false; false; false];
     [false; false; true;  false; false];
     [false; true;  true;  true;  false];
     [false; false; true;  false; false];
     [false; false; false; false; false]].
Proof. reflexivity. Qed.

Example dilate_mask_ex :
  dilate_mask true (gmap (fun v => v =? 1) ex_cross_labels) 1
  = [[false; true; false]; [true; true; true]; [false; true; false]] /\
  dilate_mask false (gmap (fun v => v =? 1) ex_cross_labels) 1
  = [[true; true; true]; [true; true; true]; [true; true; true]].
Proof. split; reflexivity. Qed.

Example np_gradient_ex :
  exists gy gx,
    np_gradient [[1; 2; 4]; [3; 5; 9]]%Q = OK (gy, gx) /\
    gy = [[2; 3; 5]; [2; 3; 5]]%Q /\
    Forall2 (Forall2 Qeq) gx [[1; 3 # 2; 2]; [2; 3; 4]]%Q.
Proof.
  eexists. eexists. split; [vm_compute; reflexivity|].
  split; [reflexivity|]. repeat constructor.
Qed.

Example threshold_ex :
  exists t M0,
    threshold [[1; 5]; [3; 9]]%Q 50 = OK (t, M0) /\
    (t == 4)%Q /\ M0 = [[false; true]; [false; true]].
Proof.
  eexists. eexists. split; [vm_compute; reflexivity|].
  split; reflexivity.
Qed.

Example np_median_ex :
  (np_median [3; 1; 2] == 2)%Q /\ (np_median [4; 1; 3; 2] == 5 # 2)%Q.
Proof. split; reflexivity. Qed.

Example hotspot_detection_ex :
  exists out,
    hotspot_detection true smooth_none sqrt_exact mean_exact ex_T 1 92 1 1 = OK out /\
    map (fun r => (ID r, area_px r, row r, col r)) (regions_sorted out)
    = [(2, 13, 3, 10); (1, 13, 3, 3)].
Proof. eexists. split; [vm_compute; reflexivity|reflexivity]. Qed.


(** ** Arrays *)

Lemma in_rangeb_true h w p :
  in_rangeb (Z.of_nat h) (Z.of_nat w) p = true <-> in_range h w p.
Proof.
  unfold in_rangeb, in_range.
  rewrite !andb_true_iff, !Z.leb_le, !Z.ltb_lt. tauto.
Qed.

Lemma in_range_dec h w p : {in_range h w p} + {~ in_range h w p}.
Proof.
  destruct (in_rangeb (Z.of_nat h) (Z.of_nat w) p) eqn:E.
  - left. now apply in_rangeb_true.
  - right. intros H. apply in_rangeb_true in H. congruence.
Qed.

Lemma pixel_eq_dec (p q : pixel) : {p = q} + {p <> q}.
Proof. decide equality; apply Z.eq_dec. Qed.

Lemma rectb_true {A} h w (g : grid A) : rectb h w g = true <-> rect h w g.
Proof.
  unfold rectb, rect.
  rewrite andb_true_iff, Nat.eqb_eq, forallb_forall, Forall_forall.
  split; intros [H1 H2]; split; auto; intros x Hx;
    specialize (H2 x Hx); now apply Nat.eqb_eq.
Qed.

Lemma length_set_nth {A} i (v : A) l : length (set_nth i v l) = length l.
Proof.
  revert i; induction l as [|x l IH]; intros [|i]; simpl; auto.
Qed.

Lemma nth_set_nth_same {A} i (v d : A) l :
  (i < length l)%nat -> nth i (set_nth i v l) d = v.
Proof.
  revert i; induction l as [|x l IH]; intros [|i] H; simpl in *; try lia; auto.
  apply IH; lia.
Qed.

Lemma nth_set_nth_other {A} i j (v d : A) l :
  i <> j -> nth j (set_nth i v l) d = nth j l d.
Proof.
  revert i j; induction l as [|x l IH]; intros [|i] [|j] H; simpl; auto;
    try congruence.
Qed.

Lemma rect_nth {A} h w (g : grid A) i :
  rect h w g -> (i < h)%nat -> length (nth i g []) = w.
Proof.
  intros [Hl Hf] Hi. rewrite Forall_forall in Hf.
  apply Hf, nth_In. lia.
Qed.

Lemma rect_set {A} h w (g : grid A) p v : rect h w g -> rect h w (set g p v).
Proof.
  intros Hr. pose proof Hr as [Hl Hf]. unfold set. split.
  - now rewrite length_set_nth.
  - rewrite Forall_forall in *. intros x Hx.
    destruct (In_nth _ _ [] Hx) as [n [Hn Hnth]].
    rewrite length_set_nth in Hn.
    destruct (Nat.eq_dec (Z.to_nat (fst p)) n) as [E|Hne].
    + subst n. rewrite nth_set_nth_same in Hnth by lia. subst x.
      rewrite length_set_nth. apply Hf, nth_In; lia.
    + rewrite nth_set_nth_other in Hnth by auto. subst x.
      apply Hf, nth_In; lia.
Qed.

Lemma get_set_same {A} h w (g : grid A) p v d :
  rect h w g -> in_range h w p -> get d (set g p v) p = v.
Proof.
  intros Hr [Hp1 Hp2]. unfold get, set.
  rewrite nth_set_nth_same by (destruct Hr; lia).
  apply nth_set_nth_same.
  rewrite (rect_nth h w) by (auto; lia). lia.
Qed.

Lemma get_set_other {A} (g : grid A) p q v d :
  p <> q -> 0 <= fst p -> 0 <= snd p -> 0 <= fst q -> 0 <= snd q ->
  get d (set g p v) q = get d g q.
Proof.
  intros Hne Hp1 Hp2 Hq1 Hq2. unfold get, set.
  destruct (Nat.eq_dec (Z.to_nat (fst p)) (Z.to_nat (fst q))) as [E|E].
  - destruct (Nat.lt_ge_cases (Z.to_nat (fst p)) (length g)) as [Hlt|Hge].
    + rewrite <- E. rewrite nth_set_nth_same by auto.
      apply nth_set_nth_other.
      intros E2. apply Hne. destruct p, q; simpl in *. f_equal; lia.
    + rewrite <- E.
      rewrite !(nth_overflow _ _ Hge).
      rewrite (nth_overflow (set_nth _ _ _)) by (rewrite length_set_nth; auto).
      reflexivity.
  - now rewrite nth_set_nth_other.
Qed.

Lemma in_range_nonneg h w p : in_range h w p -> 0 <= fst p /\ 0 <= snd p.
Proof. unfold in_range; lia. Qed.

Lemma get_set_other_in {A} h w (g : grid A) p q v d :
  p <> q -> in_range h w p -> in_range h w q ->
  get d (set g p v) q = get d g q.
Proof.
  intros Hne Hp Hq. apply in_range_nonneg in Hp, Hq.
  apply get_set_other; tauto.
Qed.

Lemma In_range n z : In z (range n) <-> 0 <= z < Z.of_nat n.
Proof.
  unfold range. rewrite in_map_iff. split.
  - intros [k [<- Hk]]. apply in_seq in Hk. lia.
  - intros H. exists (Z.to_nat z). split; [lia|]. apply in_seq. lia.
Qed.

Lemma NoDup_range n : NoDup (range n).
Proof.
  unfold range. apply Finite.Injective_map_NoDup.
  - intros x y. apply Nat2Z.inj.
  - apply seq_NoDup.
Qed.

Lemma length_range n : length (range n) = n.
Proof. unfold range. now rewrite length_map, length_seq. Qed.

Lemma nth_range n i d : (i < n)%nat -> nth i (range n) d = Z.of_nat i.
Proof.
  intros H. unfold range.
  rewrite (nth_indep _ d (Z.of_nat 0)) by (rewrite length_map, length_seq; lia).
  rewrite map_nth, seq_nth by lia. reflexivity.
Qed.

Lemma In_positions h w p : In p (positions h w) <-> in_range h w p.
Proof.
  unfold positions, in_range. rewrite in_flat_map. split.
  - intros [r [Hr Hp]]. apply in_map_iff in Hp as [c [<- Hc]].
    apply In_range in Hr, Hc. simpl. lia.
  - intros [H1 H2]. exists (fst p). split; [now apply In_range|].
    apply in_map_iff. exists (snd p). split; [now destruct p|now apply In_range].
Qed.

Lemma NoDup_positions h w : NoDup (positions h w).
Proof.
  unfold positions.
  pose proof (NoDup_range h) as Hh. revert Hh.
  generalize (range h) as rs. induction rs as [|r rs IH]; intros Hnd; simpl.
  - constructor.
  - inversion Hnd as [|? ? Hnotin Hnd']; subst.
    apply NoDup_app.
    + apply Finite.Injective_map_NoDup; [|apply NoDup_range].
      intros x y E. now inversion E.
    + now apply IH.
    + intros x Hx Hy. apply in_map_iff in Hx as [c [<- _]].
      apply in_flat_map in Hy as [r' [Hr' Hy]].
      apply in_map_iff in Hy as [c' [E _]]. inversion E; subst. contradiction.
Qed.

Lemma length_positions h w : length (positions h w) = (h * w)%nat.
Proof.
  unfold positions.
  assert (H : forall rs : list Z,
             length (flat_map (fun r => map (fun c => (r, c)) (range w)) rs)
             = (length rs * w)%nat).
  { induction rs as [|r rs IH]; simpl; auto.
    rewrite length_app, length_map, length_range, IH. reflexivity. }
  rewrite H, length_range. reflexivity.
Qed.

Lemma rect_tabulate {A} h w (f : pixel -> A) : rect h w (tabulate h w f).
Proof.
  unfold tabulate, rect. split.
  - now rewrite length_map, length_range.
  - apply Forall_forall. intros x Hx. apply in_map_iff in Hx as [r [<- _]].
    now rewrite length_map, length_range.
Qed.

Lemma get_tabulate {A} h w (f : pixel -> A) d p :
  in_range h w p -> get d (tabulate h w f) p = f p.
Proof.
  intros [H1 H2]. unfold get, tabulate.
  rewrite (nth_indep _ [] (map (fun c => f (0, c)) (range w)))
    by (rewrite length_map, length_range; lia).
  rewrite (map_nth (fun r => map (fun c => f (r, c)) (range w)) (range h) 0).
  rewrite nth_range by lia.
  rewrite (nth_indep _ d (f (Z.of_nat (Z.to_nat (fst p)), 0)))
    by (rewrite length_map, length_range; lia).
  rewrite (map_nth (fun c => f (Z.of_nat (Z.to_nat (fst p)), c)) (range w) 0).
  rewrite nth_range by lia.
  destruct p; simpl in *. f_equal. f_equal; lia.
Qed.

Lemma get_outside {A} h w (g : grid A) d p :
  rect h w g -> 0 <= fst p -> 0 <= snd p -> ~ in_range h w p -> get d g p = d.
Proof.
  intros Hr H1 H2 Hn. unfold get.
  destruct (Nat.lt_ge_cases (Z.to_nat (fst p)) h) as [Hlt|Hge].
  - apply nth_overflow. rewrite (rect_nth h w) by auto.
    unfold in_range in Hn. lia.
  - rewrite (nth_overflow g) by (destruct Hr; lia). now destruct (Z.to_nat (snd p)).
Qed.

(** Two arrays of one shape that agree at every pixel are equal. *)
Lemma grid_ext {A} h w (g1 g2 : grid A) d :
  rect h w g1 -> rect h w g2 ->
  (forall p, in_range h w p -> get d g1 p = get d g2 p) -> g1 = g2.
Proof.
  intros Hr1 Hr2 Hp.
  apply (nth_ext _ _ [] []).
  - destruct Hr1, Hr2; congruence.
  - intros i Hi. assert (Hih : (i < h)%nat) by (destruct Hr1; lia).
    apply (nth_ext _ _ d d).
    + now rewrite !(rect_nth h w).
    + intros j Hj. rewrite (rect_nth h w) in Hj by auto.
      specialize (Hp (Z.of_nat i, Z.of_nat j)).
      unfold get in Hp. simpl in Hp. rewrite !Nat2Z.id in Hp.
      apply Hp. unfold in_range; simpl; lia.
Qed.

Lemma tabulate_get {A} h w (g : grid A) d :
  rect h w g -> tabulate h w (get d g) = g.
Proof.
  intros Hr. apply (grid_ext h w _ _ d); auto using rect_tabulate.
  intros p Hp. now apply get_tabulate.
Qed.

Lemma ravel_tabulate {A} h w (f : pixel -> A) :
  ravel (tabulate h w f) = map f (positions h w).
Proof.
  unfold ravel, tabulate, positions.
  induction (range h) as [|r rs IH]; simpl; auto.
  rewrite map_app, IH, map_map. reflexivity.
Qed.

(** The flattened array lists the values of the pixels in raster order. *)
Lemma ravel_positions {A} h w (g : grid A) d :
  rect h w g -> ravel g = map (get d g) (positions h w).
Proof.
  intros Hr. rewrite <- (tabulate_get h w g d Hr) at 1. apply ravel_tabulate.
Qed.

Lemma rect_gmap {A B} h w (f : A -> B) g : rect h w g -> rect h w (gmap f g).
Proof.
  intros [Hl Hf]. unfold gmap. split.
  - now rewrite length_map.
  - rewrite Forall_forall in *. intros x Hx.
    apply in_map_iff in Hx as [y [<- Hy]]. rewrite length_map. auto.
Qed.

Lemma get_gmap {A B} h w (f : A -> B) g d d' p :
  rect h w g -> in_range h w p -> get d' (gmap f g) p = f (get d g p).
Proof.
  intros Hr [H1 H2]. unfold get, gmap.
  rewrite (nth_indep _ [] (map f [])) by (rewrite length_map; destruct Hr; lia).
  rewrite map_nth.
  rewrite (nth_indep _ d' (f d)) by (rewrite length_map, (rect_nth h w); auto; lia).
  now rewrite map_nth.
Qed.

Lemma gmap_tabulate {A B} h w (f : A -> B) g d :
  rect h w g -> gmap f g = tabulate h w (fun p => f (get d g p)).
Proof.
  intros Hr. apply (grid_ext h w _ _ (f d)).
  - now apply rect_gmap.
  - apply rect_tabulate.
  - intros p Hp. rewrite (get_gmap h w f g d) by auto.
    now rewrite get_tabulate.
Qed.

Lemma nrows_rect {A} h w (g : grid A) : rect h w g -> nrows g = h.
Proof. now intros [H _]. Qed.

Lemma ncols_rect {A} h w (g : grid A) : rect h w g -> (0 < h)%nat -> ncols g = w.
Proof.
  intros [Hl Hf] Hh. unfold ncols. destruct g as [|row g]; simpl in *; [lia|].
  now inversion Hf.
Qed.

(** ** Connectivity *)

Lemma adjacent_sym p q : adjacent p q -> adjacent q p.
Proof.
  unfold adjacent, neighbours. simpl. intros H.
  repeat (destruct H as [H|H]; [inversion H;
    match goal with
    | H1 : _ = fst q - fst p, H2 : _ = snd q - snd p |- _ =>
        replace (fst p - fst q) with (- (fst q - fst p)) by lia;
        replace (snd p - snd q) with (- (snd q - snd p)) by lia;
        rewrite <- H1, <- H2; simpl; tauto
    end|]).
  contradiction.
Qed.

Lemma adjacent_step p d :
  In d neighbours -> adjacent p (fst p + fst d, snd p + snd d).
Proof.
  intros H. unfold adjacent. simpl.
  replace (fst p + fst d - fst p) with (fst d) by lia.
  replace (snd p + snd d - snd p) with (snd d) by lia.
  now destruct d.
Qed.

Lemma adjacent_inv p q :
  adjacent p q ->
  exists d, In d neighbours /\ q = (fst p + fst d, snd p + snd d).
Proof.
  intros H. exists (fst q - fst p, snd q - snd p). split; auto.
  destruct q; simpl. f_equal; lia.
Qed.

Section Connectivity.

Variable mask : grid bool.
Variables h w : nat.

Lemma connected_fg_l p q : connected mask h w p q -> fg mask h w p.
Proof. induction 1; auto. Qed.

Lemma connected_fg_r p q : connected mask h w p q -> fg mask h w q.
Proof. induction 1; auto. Qed.

Lemma connected_trans p q r :
  connected mask h w p q -> connected mask h w q r -> connected mask h w p r.
Proof.
  intros Hpq Hqr. revert Hpq.
  induction Hqr as [q Hq | q r s Hqr IH Ha Hs]; intros Hpq; auto.
  apply conn_step with r; auto.
Qed.

Lemma connected_one p q :
  fg mask h w p -> fg mask h w q -> adjacent p q -> connected mask h w p q.
Proof.
  intros Hp Hq Ha. eapply conn_step; eauto. now apply conn_refl.
Qed.

Lemma connected_sym p q : connected mask h w p q -> connected mask h w q p.
Proof.
  induction 1 as [p Hp | p q r Hpq IH Ha Hr].
  - now apply conn_refl.
  - apply connected_trans with q; auto.
    apply connected_one; auto using adjacent_sym.
    now apply connected_fg_r with p.
Qed.

End Connectivity.

(** ** Counting *)

Lemma filter_length_mono {A} (f g : A -> bool) l :
  (forall x, In x l -> f x = true -> g x = true) ->
  (length (filter f l) <= length (filter g l))%nat.
Proof.
  induction l as [|x l IH]; intros H; simpl; auto.
  assert (IH' := IH (fun y Hy => H y (or_intror Hy))).
  destruct (f x) eqn:Ef.
  - rewrite (H x (or_introl eq_refl) Ef). simpl. lia.
  - destruct (g x); simpl; lia.
Qed.

Lemma filter_length_remove {A} (f g : A -> bool) l x :
  NoDup l -> In x l -> f x = true -> g x = false ->
  (forall y, In y l -> y <> x -> g y = f y) ->
  S (length (filter g l)) = length (filter f l).
Proof.
  induction l as [|y l IH]; intros Hnd Hin Hf Hg Hsame; [contradiction|].
  inversion Hnd as [|? ? Hnotin Hnd']; subst. simpl.
  destruct Hin as [->|Hin].
  - rewrite Hf, Hg. simpl. f_equal. f_equal.
    apply filter_ext_in. intros z Hz. apply Hsame; [now right|].
    intros ->. contradiction.
  - rewrite (Hsame y (or_introl eq_refl)) by (intros ->; contradiction).
    assert (IH' : S (length (filter g l)) = length (filter f l)).
    { apply IH; auto. intros z Hz. apply Hsame. now right. }
    destruct (f y); simpl; lia.
Qed.

Lemma pending_le mask h w L : (pending mask h w L <= h * w)%nat.
Proof.
  unfold pending. rewrite <- (length_positions h w). apply List.filter_length_le.
Qed.

Lemma pending_set mask h w L p v :
  rect h w L -> in_range h w p -> get false mask p = true ->
  get 0 L p = 0 -> v <> 0 ->
  S (pending mask h w (set L p v)) = pending mask h w L.
Proof.
  intros Hr Hp Hm Hl Hv. unfold pending.
  apply filter_length_remove with p.
  - apply NoDup_positions.
  - now apply In_positions.
  - rewrite Hm, Hl. reflexivity.
  - rewrite (get_set_same h w) by auto.
    apply andb_false_intro2. now apply Z.eqb_neq.
  - intros q Hq Hne. apply In_positions in Hq.
    rewrite (get_set_other_in h w) by auto. reflexivity.
Qed.

(** ** The flood fill *)

Section Flood.

Variable mask : grid bool.
Variables h w : nat.

Lemma get_set_cases (L : grid Z) q v r :
  rect h w L -> in_range h w q -> in_range h w r ->
  (r = q /\ get 0 (set L q v) r = v) \/
  (r <> q /\ get 0 (set L q v) r = get 0 L r).
Proof.
  intros Hr Hq Hrr. destruct (pixel_eq_dec r q) as [->|Hne].
  - left. split; auto. now apply (get_set_same h w).
  - right. split; auto. apply (get_set_other_in h w); auto.
Qed.

Lemma explored_mono (L L' : grid Z) p D :
  (forall r, in_range h w r -> get 0 L r <> 0 -> get 0 L' r <> 0) ->
  explored mask h w L p D -> explored mask h w L' p D.
Proof.
  intros Hmono He d Hd Hin Hm. apply Hmono; auto.
Qed.

(** Labelling a fresh foreground pixel next to a pixel of the current
    component keeps the invariant. *)
Lemma label_inv_set cur L p0 q :
  0 < cur ->
  label_inv mask h w cur cur L ->
  in_range h w p0 -> get 0 L p0 = cur ->
  in_range h w q -> adjacent p0 q ->
  get false mask q = true -> get 0 L q = 0 ->
  label_inv mask h w cur cur (set L q cur).
Proof.
  intros Hcur Hinv Hp0 Hl0 Hq Hadj Hmq Hlq.
  destruct Hinv as [Hrect Hfg Hbound Hsound Hclosed Hused].
  assert (Hfgq : fg mask h w q) by (split; auto).
  assert (Hfgp0 : fg mask h w p0).
  { split; auto. apply Hfg; auto. lia. }
  assert (Hconn : forall r, in_range h w r -> get 0 L r = cur ->
                            connected mask h w r q).
  { intros r Hr Hlr. apply conn_step with p0; auto.
    apply Hsound; auto; lia. }
  split.
  - now apply rect_set.
  - intros p Hp Hne.
    destruct (get_set_cases L q cur p Hrect Hq Hp) as [[-> _]|[_ E]]; auto.
    rewrite E in Hne. auto.
  - intros p Hp.
    destruct (get_set_cases L q cur p Hrect Hq Hp) as [[_ E]|[_ E]];
      rewrite E; auto. lia.
  - intros p r Hp Hr Heq Hne.
    destruct (get_set_cases L q cur p Hrect Hq Hp) as [[-> Ep]|[_ Ep]];
      destruct (get_set_cases L q cur r Hrect Hq Hr) as [[-> Er]|[_ Er]];
      rewrite ?Ep, ?Er in *.
    + now apply conn_refl.
    + apply connected_sym. apply Hconn; auto.
    + apply Hconn; auto.
    + apply Hsound; auto.
  - intros p r Hp Hr Ha Hlt Hmr.
    destruct (get_set_cases L q cur p Hrect Hq Hp) as [[-> Ep]|[_ Ep]];
      rewrite Ep in *; [lia|].
    assert (E : get 0 L r = get 0 L p) by (apply Hclosed; auto).
    destruct (get_set_cases L q cur r Hrect Hq Hr) as [[-> Er]|[_ Er]];
      rewrite Er; auto. lia.
  - intros l Hl. destruct (Hused l Hl) as [p [Hp E]].
    exists p. split; auto.
    destruct (get_set_cases L q cur p Hrect Hq Hp) as [[-> Ep]|[_ Ep]];
      rewrite Ep; auto. lia.
Qed.

Lemma visit_step cur L0 p0 D n st d :
  0 < cur -> in_range h w p0 -> In d neighbours ->
  visiting mask h w cur L0 p0 D n st ->
  visiting mask h w cur L0 p0 (d :: D) n
    (visit mask (Z.of_nat h) (Z.of_nat w) cur p0 st d).
Proof.
  intros Hcur Hp0 Hd. destruct st as [L S]. unfold visiting, visit. simpl.
  intros (Hinv & Hst & Hext & Hl0 & Hfront & Hexp & Hn).
  set (q := (fst p0 + fst d, snd p0 + snd d)).
  destruct (in_rangeb (Z.of_nat h) (Z.of_nat w) q && get false mask q
            && (get 0 L q =? 0)) eqn:Ec; simpl.
  - apply andb_true_iff in Ec as [Ec Elq].
    apply andb_true_iff in Ec as [Eq Emq].
    apply in_rangeb_true in Eq. apply Z.eqb_eq in Elq.
    assert (Hrect : rect h w L) by apply Hinv.
    assert (Hfresh : forall r, in_range h w r -> get 0 L r <> 0 ->
                               get 0 (set L q cur) r = get 0 L r).
    { intros r Hr Hne.
      destruct (get_set_cases L q cur r Hrect Eq Hr) as [[-> _]|[_ E]]; auto.
      contradiction. }
    assert (Hmono : forall r, in_range h w r -> get 0 L r <> 0 ->
                              get 0 (set L q cur) r <> 0).
    { intros r Hr Hne. now rewrite Hfresh. }
    assert (Hq : get 0 (set L q cur) q = cur) by now apply (get_set_same h w).
    refine (conj _ (conj _ (conj _ (conj _ (conj _ (conj _ _)))))).
    + apply label_inv_set with p0; auto. now apply adjacent_step.
    + intros p [<-|H]; [split; auto|].
      destruct (Hst p H) as [Hp E]. split; auto.
      rewrite Hfresh; auto. lia.
    + intros r Hr Hne. rewrite Hfresh; auto. rewrite (Hext r); auto.
    + rewrite Hfresh; auto. lia.
    + intros p Hp Hlp.
      destruct (get_set_cases L q cur p Hrect Eq Hp) as [[-> _]|[_ E]].
      * right. left. now left.
      * rewrite E in Hlp.
        destruct (Hfront p Hp Hlp) as [H|[H|H]];
          [ now left
          | right; left; now right
          | right; right; now apply explored_mono with L ].
    + intros d' [<-|Hd'] Hin Hm.
      * fold q. rewrite Hq. lia.
      * apply Hmono; auto.
    + rewrite <- Hn. rewrite <- (pending_set mask h w L q cur); auto; lia.
  - refine (conj _ (conj _ (conj _ (conj _ (conj _ (conj _ _)))))); auto.
    intros d' [<-|Hd'] Hin Hm; [|now apply Hexp].
    fold q in Hin, Hm |- *.
    apply in_rangeb_true in Hin. rewrite Hin, Hm in Ec. simpl in Ec.
    now apply Z.eqb_neq.
Qed.

(** With fuel for every pending pixel the fill returns, and the current
    label then marks a whole component. *)
Lemma flood_correct cur L0 :
  0 < cur ->
  forall fuel L S n,
    filling mask h w cur L0 n L S -> (n <= fuel)%nat ->
    exists L' n',
      flood fuel mask (Z.of_nat h) (Z.of_nat w) cur L S = Some L' /\
      filling mask h w cur L0 n' L' [].
Proof.
  intros Hcur. induction fuel as [|fuel IH]; intros L S n Hf Hle.
  - destruct S as [|p rest].
    + exists L, n. split; auto.
    + destruct Hf as (_ & _ & _ & _ & Hn). simpl in Hn. lia.
  - destruct S as [|p rest].
    + exists L, n. split; auto.
    + destruct Hf as (Hinv & Hst & Hext & Hfront & Hn).
      destruct (Hst p (or_introl eq_refl)) as [Hp Hlp].
      assert (V0 : visiting mask h w cur L0 p [] (n - 1) (L, rest)).
      { unfold visiting; simpl.
        refine (conj _ (conj _ (conj _ (conj _ (conj _ (conj _ _)))))); auto.
        - intros r Hr. apply Hst. now right.
        - intros r Hr Hlr. destruct (Hfront r Hr Hlr) as [[<-|H]|H]; auto.
        - intros d [].
        - simpl in Hn. lia. }
      unfold flood; fold flood. unfold neighbours at 1. simpl fold_left.
      pose proof (visit_step cur L0 p _ _ _ (1, 0) Hcur Hp
                    ltac:(simpl; tauto) V0) as V1.
      pose proof (visit_step cur L0 p _ _ _ (-1, 0) Hcur Hp
                    ltac:(simpl; tauto) V1) as V2.
      pose proof (visit_step cur L0 p _ _ _ (0, 1) Hcur Hp
                    ltac:(simpl; tauto) V2) as V3.
      pose proof (visit_step cur L0 p _ _ _ (0, -1) Hcur Hp
                    ltac:(simpl; tauto) V3) as V4.
      clear V0 V1 V2 V3.
      destruct (visit mask (Z.of_nat h) (Z.of_nat w) cur p _ (0, -1))
        as [L' S'] eqn:E.
      destruct V4 as (Hinv' & Hst' & Hext' & Hlp' & Hfront' & Hexp' & Hn').
      simpl in *.
      apply (IH L' S' (n - 1)%nat); [|lia].
      refine (conj _ (conj _ (conj _ (conj _ _)))); auto.
      intros r Hr Hlr. destruct (Hfront' r Hr Hlr) as [->|[H|H]]; auto.
      right. intros d Hd. apply Hexp'. unfold neighbours in Hd. simpl in *.
      tauto.
Qed.

End Flood.

(** ** The labelling loop *)

Lemma fold_left_positions {S} (F : S -> pixel -> S) (rs cs : list Z) init :
  fold_left (fun st r => fold_left (fun st c => F st (r, c)) cs st) rs init =
  fold_left F (flat_map (fun r => map (fun c => (r, c)) cs) rs) init.
Proof.
  revert init. induction rs as [|r rs IH]; intros init; simpl; auto.
  rewrite fold_left_app, IH. f_equal.
  clear IH. generalize init.
  induction cs as [|c cs IHc]; intros i; simpl; auto.
Qed.

Section Labelling.

Variable mask : grid bool.
Variables h w : nat.
Hypothesis Hmask : rect h w mask.

Lemma get_np_zeros p : in_range h w p -> get 0 (np_zeros mask) p = 0.
Proof.
  intros Hp. unfold np_zeros. now rewrite (get_gmap h w _ mask false).
Qed.

Lemma label_inv_zeros : label_inv mask h w 0 1 (np_zeros mask).
Proof.
  split.
  - now apply rect_gmap.
  - intros p Hp Hne. now rewrite get_np_zeros in Hne.
  - intros p Hp. rewrite get_np_zeros; auto. lia.
  - intros p q Hp _ _ Hne. now rewrite get_np_zeros in Hne.
  - intros p q Hp _ _ Hlt. rewrite get_np_zeros in Hlt; auto. lia.
  - intros l Hl. lia.
Qed.

(** A new label on a fresh foreground pixel starts a fill. *)
Lemma filling_start cur L p :
  0 <= cur -> label_inv mask h w cur (cur + 1) L ->
  in_range h w p -> get false mask p = true -> get 0 L p = 0 ->
  filling mask h w (cur + 1) (set L p (cur + 1))
    (pending mask h w (set L p (cur + 1)) + 1) (set L p (cur + 1)) [p].
Proof.
  intros Hcur [Hrect Hfg Hbound Hsound Hclosed Hused] Hp Hmp Hlp.
  assert (Hcases := fun r => get_set_cases h w L p (cur + 1) r Hrect Hp).
  refine (conj _ (conj _ (conj _ (conj _ _)))).
  - split.
    + now apply rect_set.
    + intros r Hr Hne. destruct (Hcases r Hr) as [[-> _]|[_ E]]; auto.
      rewrite E in Hne. auto.
    + intros r Hr. specialize (Hbound r Hr).
      destruct (Hcases r Hr) as [[_ E]|[_ E]]; rewrite E; lia.
    + intros r s Hr Hs Heq Hne.
      specialize (Hbound r Hr) as Br. specialize (Hbound s Hs) as Bs.
      destruct (Hcases r Hr) as [[-> Er]|[_ Er]];
        destruct (Hcases s Hs) as [[-> Es]|[_ Es]];
        rewrite ?Er, ?Es in *; try lia.
      * apply conn_refl. split; auto.
      * apply Hsound; auto.
    + intros r s Hr Hs Ha Hlt Hms.
      destruct (Hcases r Hr) as [[-> Er]|[_ Er]]; rewrite Er in *; [lia|].
      assert (E : get 0 L s = get 0 L r) by (apply Hclosed; auto; lia).
      destruct (Hcases s Hs) as [[-> Es]|[_ Es]]; rewrite Es; auto. lia.
    + intros l Hl. destruct (Z.eq_dec l (cur + 1)) as [->|Hne].
      * exists p. split; auto. now apply (get_set_same h w).
      * destruct (Hused l ltac:(lia)) as [r [Hr E]]. exists r. split; auto.
        destruct (Hcases r Hr) as [[-> Er]|[_ Er]]; rewrite Er; auto. lia.
  - intros r [<-|[]]. split; auto. now apply (get_set_same h w).
  - intros r Hr Hne. reflexivity.
  - intros r Hr Hlr. left. left.
    destruct (Hcases r Hr) as [[-> Er]|[_ Er]]; auto.
    rewrite Er in Hlr. specialize (Hbound r Hr). lia.
  - reflexivity.
Qed.

(** When the stack is empty the current label marks a whole component. *)
Lemma filling_end cur L0 n L :
  0 < cur -> filling mask h w cur L0 n L [] ->
  label_inv mask h w cur (cur + 1) L.
Proof.
  intros Hcur ([Hrect Hfg Hbound Hsound Hclosed Hused] & _ & _ & Hfront & _).
  split; auto.
  intros p q Hp Hq Ha Hlt Hmq.
  destruct (Z.eq_dec (get 0 L p) cur) as [E|Hne].
  - destruct (Hfront p Hp E) as [[]|Hexp].
    destruct (adjacent_inv p q Ha) as [d [Hd ->]].
    specialize (Hexp d Hd Hq Hmq). specialize (Hbound _ Hq).
    destruct (Z.eq_dec (get 0 L (fst p + fst d, snd p + snd d)) cur)
      as [E'|Hne']; [congruence|].
    symmetry. apply Hclosed; auto using adjacent_sym; try lia.
    apply Hfg; auto. lia.
  - apply Hclosed; auto. lia.
Qed.

Lemma scan_pixel_step fuel done st p :
  (h * w <= fuel)%nat -> in_range h w p ->
  scanned mask h w done st ->
  scanned mask h w (p :: done)
    (scan_pixel fuel mask (Z.of_nat h) (Z.of_nat w) st p).
Proof.
  intros Hfuel Hp (L & cur & -> & Hcur & Hinv & Hdone). unfold scan_pixel.
  destruct (get false mask p && (get 0 L p =? 0)) eqn:Ec.
  - apply andb_true_iff in Ec as [Hmp Hlp]. apply Z.eqb_eq in Hlp.
    pose proof (filling_start cur L p Hcur Hinv Hp Hmp Hlp) as Hfill.
    assert (Hrect : rect h w L) by apply Hinv.
    assert (Hn : (pending mask h w (set L p (cur + 1)%Z) + 1 <= fuel)%nat).
    { pose proof (pending_set mask h w L p (cur + 1) Hrect Hp Hmp Hlp
                    ltac:(lia)).
      pose proof (pending_le mask h w L). lia. }
    destruct (flood_correct mask h w (cur + 1) _ ltac:(lia) fuel _ _ _ Hfill Hn)
      as (L' & n' & -> & Hfill').
    exists L', (cur + 1). split; auto. split; [lia|]. split.
    + apply filling_end with (set L p (cur + 1)) n'; auto. lia.
    + destruct Hfill' as (_ & _ & Hext & _).
      assert (Hpl : get 0 (set L p (cur + 1)) p = cur + 1)
        by now apply (get_set_same h w).
      intros r [<-|Hr] Hrr Hmr.
      * rewrite Hext; auto; lia.
      * specialize (Hdone r Hr Hrr Hmr).
        destruct (get_set_cases h w L p (cur + 1) r Hrect Hp Hrr)
          as [[-> E]|[_ E]]; [contradiction|].
        rewrite Hext; auto; rewrite E; auto.
  - exists L, cur. split; auto. split; auto. split; auto.
    intros r [<-|Hr] Hrr Hmr; auto.
    rewrite Hmr in Ec. simpl in Ec. now apply Z.eqb_neq.
Qed.

Lemma scan_pixels fuel ps :
  (h * w <= fuel)%nat -> (forall p, In p ps -> in_range h w p) ->
  forall done st,
    scanned mask h w done st ->
    scanned mask h w (rev ps ++ done)
      (fold_left (scan_pixel fuel mask (Z.of_nat h) (Z.of_nat w)) ps st).
Proof.
  intros Hfuel. induction ps as [|p ps IH]; intros Hps done st Hst; auto.
  simpl. rewrite <- app_assoc. simpl.
  apply IH; [intros q Hq; apply Hps; now right|].
  apply scan_pixel_step; auto. apply Hps. now left.
Qed.

Lemma scanned_spec L cur :
  scanned mask h w (positions h w) (Some (L, cur)) ->
  label_spec mask h w L cur.
Proof.
  intros (L' & cur' & E & Hcur & [Hrect Hfg Hbound Hsound Hclosed Hused] & Hdone).
  inversion E; subst L' cur'; clear E.
  assert (Hlab : forall p, fg mask h w p -> 1 <= get 0 L p <= cur).
  { intros p [Hp Hmp]. specialize (Hbound p Hp).
    specialize (Hdone p ltac:(now apply In_positions) Hp Hmp). lia. }
  split; auto.
  - intros p Hp Hmp. destruct (Z.eq_dec (get 0 L p) 0) as [|Hne]; auto.
    rewrite (Hfg p Hp Hne) in Hmp. discriminate.
  - intros p q Hfp Hfq. split.
    + intros E. apply Hsound; try apply Hfp; try apply Hfq; auto.
      specialize (Hlab p Hfp). lia.
    + clear Hfp Hfq. induction 1 as [p Hp | p q r Hpq IH Ha Hr]; auto.
      rewrite IH. symmetry.
      pose proof (connected_fg_r _ _ _ _ _ Hpq) as Hq.
      apply Hclosed; try apply Hq; try apply Hr; auto.
      specialize (Hlab q Hq). lia.
  - intros l Hl. destruct (Hused l Hl) as [p [Hp E]].
    exists p. split; auto. split; auto. apply Hfg; auto. lia.
Qed.

(** The fuel of [label_bfs] is enough, and its result numbers the
    components. *)
Lemma label_fuel_enough :
  exists L n,
    label_fuel (nrows mask * ncols mask) mask = Some (L, n) /\
    label_spec mask h w L n.
Proof.
  unfold label_fuel. rewrite fold_left_positions.
  fold (positions (nrows mask) (ncols mask)).
  rewrite (nrows_rect h w) by auto.
  destruct (Nat.eq_dec h 0) as [Hh|Hh].
  - exists (np_zeros mask), 0. split; [now rewrite Hh|].
    apply scanned_spec. exists (np_zeros mask), 0.
    split; auto. split; [lia|]. split; [apply label_inv_zeros|].
    intros p Hp. apply In_positions in Hp. unfold in_range in Hp. lia.
  - rewrite (ncols_rect h w) by (auto; lia).
    assert (Hs : scanned mask h w (rev (positions h w) ++ [])
                   (fold_left (scan_pixel (h * w) mask (Z.of_nat h) (Z.of_nat w))
                      (positions h w) (Some (np_zeros mask, 0)))).
    { apply scan_pixels; auto.
      - intros p. apply In_positions.
      - exists (np_zeros mask), 0. split; auto. split; [lia|].
        split; [apply label_inv_zeros|]. intros p []. }
    destruct Hs as (L & cur & E & Hcur & Hinv & Hdone).
    exists L, cur. split; auto.
    apply scanned_spec. exists L, cur. split; auto. split; auto. split; auto.
    intros p Hp. apply Hdone. rewrite app_nil_r. now apply -> in_rev.
Qed.

Lemma label_bfs_spec :
  label_spec mask h w (fst (label_bfs mask)) (snd (label_bfs mask)).
Proof.
  unfold label_bfs. destruct label_fuel_enough as (L & n & -> & H). exact H.
Qed.

Lemma label_components_spec scipy :
  label_spec mask h w (fst (label_components scipy mask))
    (snd (label_components scipy mask)).
Proof.
  unfold label_components, ndi_label. destruct scipy; apply label_bfs_spec.
Qed.

End Labelling.

(** ** More on arrays: pointwise operations, counting *)

Lemma length_zip_with {A B C} (f : A -> B -> C) l1 l2 :
  length l1 = length l2 -> length (zip_with f l1 l2) = length l1.
Proof.
  revert l2; induction l1 as [|x l1 IH]; intros [|y l2] H; simpl in *;
    try lia. f_equal. apply IH. lia.
Qed.

Lemma nth_zip_with {A B C} (f : A -> B -> C) l1 l2 i d1 d2 d :
  length l1 = length l2 -> (i < length l1)%nat ->
  nth i (zip_with f l1 l2) d = f (nth i l1 d1) (nth i l2 d2).
Proof.
  revert l2 i; induction l1 as [|x l1 IH]; intros [|y l2] [|i] H Hi;
    simpl in *; try lia; auto.
  apply IH; lia.
Qed.

Lemma rect_gmap2 {A B C} h w (f : A -> B -> C) g1 g2 :
  rect h w g1 -> rect h w g2 -> rect h w (gmap2 f g1 g2).
Proof.
  intros H1 H2. unfold gmap2. split.
  - rewrite length_zip_with; destruct H1, H2; congruence.
  - apply Forall_forall. intros x Hx.
    destruct (In_nth _ _ [] Hx) as [i [Hi E]].
    rewrite length_zip_with in Hi by (destruct H1, H2; congruence).
    rewrite (nth_zip_with _ _ _ _ [] []) in E
      by (auto; destruct H1, H2; congruence).
    subst x. assert (Hih : (i < h)%nat) by (destruct H1; lia).
    rewrite length_zip_with; rewrite !(rect_nth h w); auto.
Qed.

Lemma get_gmap2 {A B C} h w (f : A -> B -> C) g1 g2 d1 d2 d p :
  rect h w g1 -> rect h w g2 -> in_range h w p ->
  get d (gmap2 f g1 g2) p = f (get d1 g1 p) (get d2 g2 p).
Proof.
  intros H1 H2 [Hp1 Hp2]. unfold get, gmap2.
  assert (Hi : (Z.to_nat (fst p) < h)%nat) by lia.
  rewrite (nth_zip_with _ _ _ _ [] []) by (destruct H1, H2; congruence || lia).
  apply nth_zip_with; rewrite !(rect_nth h w); auto; lia.
Qed.

Lemma rect_tabulate_shape {A B} h w (m : grid A) (f : pixel -> B) :
  rect h w m -> rect h w (tabulate (nrows m) (ncols m) f).
Proof.
  intros Hm. rewrite (nrows_rect h w) by auto.
  destruct (Nat.eq_dec h 0) as [Hh|Hh].
  - rewrite Hh. split; simpl; auto.
  - rewrite (ncols_rect h w) by (auto; lia). apply rect_tabulate.
Qed.

Lemma get_tabulate_shape {A B} h w (m : grid A) (f : pixel -> B) d p :
  rect h w m -> in_range h w p ->
  get d (tabulate (nrows m) (ncols m) f) p = f p.
Proof.
  intros Hm Hp. rewrite (nrows_rect h w) by auto.
  rewrite (ncols_rect h w) by (auto; unfold in_range in Hp; lia).
  now apply get_tabulate.
Qed.

Lemma positions_shape {A} h w (m : grid A) :
  rect h w m -> positions (nrows m) (ncols m) = positions h w.
Proof.
  intros Hm. rewrite (nrows_rect h w) by auto.
  destruct (Nat.eq_dec h 0) as [Hh|Hh].
  - now rewrite Hh.
  - now rewrite (ncols_rect h w) by (auto; lia).
Qed.

Lemma np_any_false h w (m : grid bool) :
  rect h w m ->
  (np_any m = false <-> forall p, in_range h w p -> get false m p = false).
Proof.
  intros Hm. unfold np_any. rewrite (ravel_positions h w m false Hm).
  split.
  - intros H p Hp.
    destruct (get false m p) eqn:E; auto.
    assert (Hex : existsb (fun b : bool => b) (map (get false m) (positions h w)) = true).
    { apply existsb_exists. exists true. split; auto.
      rewrite <- E. apply in_map. now apply In_positions. }
    congruence.
  - intros H. destruct (existsb _ _) eqn:E; auto.
    apply existsb_exists in E as [b [Hb ->]].
    apply in_map_iff in Hb as [p [E Hp]]. apply In_positions in Hp.
    rewrite H in E; auto.
Qed.

Lemma count_true_map {A} (f : A -> bool) l :
  count_true (map f l) = length (filter f l).
Proof.
  unfold count_true. induction l as [|x l IH]; simpl; auto.
  destruct (f x); simpl; auto.
Qed.

Lemma np_sum_label h w (L : grid Z) lab :
  rect h w L ->
  np_sum (gmap (fun v => v =? lab) L) = Z.of_nat (area_of h w L lab).
Proof.
  intros HL. unfold np_sum, area_of. f_equal.
  rewrite (ravel_positions h w _ false) by now apply rect_gmap.
  rewrite count_true_map. f_equal.
  apply filter_ext_in. intros p Hp. apply In_positions in Hp.
  now rewrite (get_gmap h w _ L 0).
Qed.

(** ** Sorting *)

Lemma In_insert {A} (lt : A -> A -> bool) x y l :
  In y (insert lt x l) <-> y = x \/ In y l.
Proof.
  induction l as [|z l IH]; simpl.
  - split; intros [H|H]; auto.
  - destruct (lt z x); simpl; rewrite ?IH; split; intuition auto.
Qed.

Lemma In_sort_by {A} (lt : A -> A -> bool) y l :
  In y (sort_by lt l) <-> In y l.
Proof.
  unfold sort_by. induction l as [|x l IH]; simpl; [tauto|].
  rewrite In_insert, IH. split; intros [H|H]; auto.
Qed.

Lemma Permutation_insert {A} (lt : A -> A -> bool) x l :
  Permutation (x :: l) (insert lt x l).
Proof.
  induction l as [|y l IH]; simpl; auto.
  destruct (lt y x); auto.
  rewrite perm_swap. now apply perm_skip.
Qed.

Lemma Permutation_sort_by {A} (lt : A -> A -> bool) l :
  Permutation l (sort_by lt l).
Proof.
  unfold sort_by. induction l as [|x l IH]; simpl; auto.
  rewrite <- Permutation_insert. now apply perm_skip.
Qed.

Lemma length_sort_by {A} (lt : A -> A -> bool) l :
  length (sort_by lt l) = length l.
Proof. symmetry. apply Permutation_length, Permutation_sort_by. Qed.

Lemma In_dedup x l : In x (dedup l) <-> In x l.
Proof.
  induction l as [|y l IH]; [tauto|].
  destruct l as [|z l]; [tauto|].
  change (dedup (y :: z :: l))
    with (if y =? z then dedup (z :: l) else y :: dedup (z :: l)).
  destruct (Z.eqb_spec y z) as [->|Hne].
  - rewrite IH. simpl. tauto.
  - simpl In at 1. rewrite IH. simpl. tauto.
Qed.

Lemma In_np_unique x l : In x (np_unique l) <-> In x l.
Proof. unfold np_unique. now rewrite In_dedup, In_sort_by. Qed.

(** ** The small-region filter *)

Section Filter.

Variables h w : nat.
Variable labeled : grid Z.
Hypothesis Hlab : rect h w labeled.
Variable min_area : Z.

Let big (lab : Z) : bool :=
  min_area <=? np_sum (gmap (fun v => v =? lab) labeled).

Lemma keep_loop labels :
  forall keep, rect h w keep ->
    let res :=
      fold_left
        (fun keep lab =>
           if big lab then gmap2 orb keep (gmap (fun v => v =? lab) labeled)
           else keep)
        labels keep in
    rect h w res /\
    forall p, in_range h w p ->
      get false res p =
      get false keep p
      || existsb (fun lab => big lab && (get 0 labeled p =? lab)) labels.
Proof.
  induction labels as [|lab labels IH]; intros keep Hk; simpl.
  - split; auto. intros p _. now rewrite orb_false_r.
  - destruct (big lab) eqn:Eb.
    + destruct (IH (gmap2 orb keep (gmap (fun v => v =? lab) labeled)))
        as [Hr Hp].
      { apply rect_gmap2; auto. now apply rect_gmap. }
      split; auto. intros p Hin. rewrite (Hp p Hin).
      rewrite (get_gmap2 h w orb _ _ false false) by
          (auto; now apply rect_gmap).
      rewrite (get_gmap h w _ labeled 0) by auto.
      simpl. now rewrite orb_assoc.
    + destruct (IH keep Hk) as [Hr Hp]. split; auto.
  Qed.

Lemma rect_remove_small :
  rect h w (remove_small_components labeled min_area).
Proof.
  unfold remove_small_components.
  destruct (negb _).
  - now apply rect_gmap.
  - apply keep_loop. now apply rect_gmap.
Qed.

(** A pixel is kept when its label is positive and marks at least
    [min_area] pixels. *)
Lemma get_remove_small p :
  in_range h w p ->
  get false (remove_small_components labeled min_area) p =
  (0 <? get 0 labeled p)
  && (min_area <=? Z.of_nat (area_of h w labeled (get 0 labeled p))).
Proof.
  intros Hp. unfold remove_small_components.
  destruct (negb (np_any (gmap (fun v => 0 <? v) labeled))) eqn:Eany.
  - apply negb_true_iff in Eany.
    rewrite (np_any_false h w) in Eany by now apply rect_gmap.
    specialize (Eany p Hp). rewrite Eany.
    rewrite (get_gmap h w _ labeled 0) in Eany by auto.
    now rewrite Eany.
  - destruct (keep_loop
                (np_unique (filter (fun v => 0 <? v) (ravel labeled)))
                (gmap (fun _ => false) labeled)) as [_ H].
    { now apply rect_gmap. }
    unfold big in H. rewrite (H p Hp).
    rewrite (get_gmap h w _ labeled 0) by auto. simpl.
    rewrite <- (np_sum_label h w labeled) by auto.
    destruct (0 <? get 0 labeled p) eqn:Epos; simpl.
    + destruct (min_area <=?
                np_sum (gmap (fun v => v =? get 0 labeled p) labeled)) eqn:Eb.
      * apply existsb_exists. exists (get 0 labeled p). split.
        -- apply In_np_unique, filter_In. split; auto.
           rewrite (ravel_positions h w labeled 0) by auto.
           apply in_map. now apply In_positions.
        -- cbv beta. rewrite Eb, Z.eqb_refl. reflexivity.
      * destruct (existsb _ _) eqn:E; auto.
        apply existsb_exists in E as [lab [_ E]].
        apply andb_true_iff in E as [E1 E2]. apply Z.eqb_eq in E2.
        subst lab. congruence.
    + destruct (existsb _ _) eqn:E; auto.
      apply existsb_exists in E as [lab [Hin E]].
      apply andb_true_iff in E as [_ E2]. apply Z.eqb_eq in E2. subst lab.
      apply In_np_unique, filter_In in Hin. destruct Hin. congruence.
Qed.

End Filter.

(** ** Filtering and labelling again *)

Lemma connected_transfer mask mask' h w p q :
  connected mask h w p q ->
  (forall r, connected mask h w p r -> fg mask' h w r) ->
  connected mask' h w p q.
Proof.
  induction 1 as [p Hp | p q r Hpq IH Ha Hr]; intros Hall.
  - apply conn_refl. apply Hall. now apply conn_refl.
  - apply conn_step with q; auto.
    apply Hall. now apply conn_step with q.
Qed.

Section Refilter.

Variables h w : nat.
Variables (mask : grid bool) (L : grid Z) (n : Z).
Hypothesis HL : label_spec mask h w L n.
Variable min_area : Z.
Variables (L2 : grid Z) (n2 : Z).
Hypothesis HL2 :
  label_spec (remove_small_components L min_area) h w L2 n2.

Lemma kept_inv p :
  in_range h w p ->
  get false (remove_small_components L min_area) p = true ->
  0 < get 0 L p /\ min_area <= Z.of_nat (area_of h w L (get 0 L p)).
Proof.
  intros Hp Hk. rewrite (get_remove_small h w) in Hk by (auto; apply HL).
  apply andb_true_iff in Hk as [H1 H2].
  apply Z.ltb_lt in H1. apply Z.leb_le in H2. auto.
Qed.

Lemma labelled_fg p : in_range h w p -> 0 < get 0 L p -> fg mask h w p.
Proof.
  intros Hp Hpos. split; auto.
  destruct (get false mask p) eqn:E; auto.
  rewrite (ls_bg _ _ _ _ _ HL p Hp E) in Hpos. lia.
Qed.

(** A kept component stays in one piece: its pixels get one new label. *)
Lemma kept_component_relabelled p q :
  fg (remove_small_components L min_area) h w p ->
  in_range h w q -> get 0 L q = get 0 L p ->
  get 0 L2 q = get 0 L2 p.
Proof.
  intros [Hp Hkp] Hq Heq.
  destruct (kept_inv p Hp Hkp) as [Hpos Harea].
  assert (Hfp : fg mask h w p) by now apply labelled_fg.
  assert (Hsame : forall r, in_range h w r -> get 0 L r = get 0 L p ->
                            fg (remove_small_components L min_area) h w r).
  { intros r Hr E. split; auto.
    rewrite (get_remove_small h w) by (auto; apply HL).
    rewrite E. rewrite (get_remove_small h w) in Hkp by (auto; apply HL).
    exact Hkp. }
  symmetry. apply (ls_conn _ _ _ _ _ HL2); [split; auto|now apply Hsame|].
  apply connected_transfer with mask.
  - apply (ls_conn _ _ _ _ _ HL); auto.
    apply labelled_fg; auto; lia.
  - intros r Hr. pose proof (connected_fg_r _ _ _ _ _ Hr) as Hfr.
    apply Hsame; [apply Hfr|].
    symmetry. now apply (ls_conn _ _ _ _ _ HL).
Qed.

(** Every component of the filtered mask has at least [min_area] pixels. *)
Lemma kept_components_large p :
  fg (remove_small_components L min_area) h w p ->
  min_area <= Z.of_nat (area_of h w L2 (get 0 L2 p)).
Proof.
  intros Hfp. pose proof Hfp as [Hp Hkp].
  destruct (kept_inv p Hp Hkp) as [Hpos Harea].
  assert (Hle : (area_of h w L (get 0%Z L p)
                 <= area_of h w L2 (get 0%Z L2 p))%nat).
  { apply filter_length_mono. intros q Hq E.
    apply In_positions in Hq. apply Z.eqb_eq in E. apply Z.eqb_eq.
    now apply kept_component_relabelled. }
  lia.
Qed.

(** Filtering the new labelling changes nothing. *)
Lemma refilter_same :
  remove_small_components L2 min_area = remove_small_components L min_area.
Proof.
  apply (grid_ext h w _ _ false).
  - apply rect_remove_small, HL2.
  - apply rect_remove_small, HL.
  - intros p Hp. rewrite (get_remove_small h w L2) by (auto; apply HL2).
    destruct (get false (remove_small_components L min_area) p) eqn:Ek.
    + assert (Hfp : fg (remove_small_components L min_area) h w p)
        by (split; auto).
      pose proof (ls_fg _ _ _ _ _ HL2 p Hfp).
      pose proof (kept_components_large p Hfp).
      apply andb_true_iff. split; [apply Z.ltb_lt|apply Z.leb_le]; lia.
    + rewrite (ls_bg _ _ _ _ _ HL2 p Hp Ek). reflexivity.
Qed.

End Refilter.

(** ** Ranking *)

Section Sorting.

Context {A : Type}.
Variable lt : A -> A -> bool.
Hypothesis lt_asym : forall x y, lt x y = true -> lt y x = false.

(** [b] may follow [a]. *)
Let ord (a b : A) : Prop := lt b a = false.

Lemma insert_sorted x l :
  Sorted ord l -> Sorted ord (insert lt x l).
Proof.
  induction 1 as [|y l Hs IH Hhd]; simpl.
  - repeat constructor.
  - destruct (lt y x) eqn:E.
    + constructor; auto.
      destruct l as [|z l]; simpl.
      * constructor. unfold ord. auto.
      * destruct (lt z x) eqn:E2.
        -- constructor. now inversion Hhd.
        -- constructor. unfold ord. auto.
    + constructor; [constructor; auto|]. constructor. exact E.
Qed.

Lemma sort_by_sorted l : Sorted ord (sort_by lt l).
Proof.
  unfold sort_by. induction l as [|x l IH]; simpl.
  - constructor.
  - now apply insert_sorted.
Qed.

Lemma sorted_adjacent l :
  Sorted ord l ->
  forall i a b, nth_error l i = Some a -> nth_error l (S i) = Some b ->
                lt b a = false.
Proof.
  induction 1 as [|x l Hs IH Hhd]; intros i a b Ha Hb.
  - destruct i; discriminate.
  - destruct i as [|i]; simpl in *.
    + inversion Ha; subst. destruct l as [|y l]; [discriminate|].
      simpl in Hb. inversion Hb; subst. now inversion Hhd.
    + eapply IH; eauto.
Qed.

Lemma sort_by_adjacent l i a b :
  nth_error (sort_by lt l) i = Some a ->
  nth_error (sort_by lt l) (S i) = Some b ->
  lt b a = false.
Proof. apply sorted_adjacent, sort_by_sorted. Qed.

End Sorting.

Lemma Qlt_bool_true x y : Qlt_bool x y = true <-> (x < y)%Q.
Proof.
  unfold Qlt_bool. rewrite negb_true_iff.
  split.
  - intros H. apply Qnot_le_lt. intros Hle.
    apply Qle_bool_iff in Hle. congruence.
  - intros H. destruct (Qle_bool y x) eqn:E; auto.
    apply Qle_bool_iff in E. exfalso. now apply (Qlt_not_le x y).
Qed.

Lemma Qlt_bool_false x y : Qlt_bool x y = false <-> (y <= x)%Q.
Proof.
  unfold Qlt_bool. rewrite negb_false_iff. apply Qle_bool_iff.
Qed.

Lemma key_lt_asym a b : key_lt a b = true -> key_lt b a = false.
Proof.
  unfold key_lt. destruct (Qeq_bool (fst a) (fst b)) eqn:E.
  - apply Qeq_bool_iff in E.
    assert (E' : Qeq_bool (fst b) (fst a) = true)
      by (apply Qeq_bool_iff; now symmetry).
    rewrite E'. rewrite Qlt_bool_true, Qlt_bool_false. apply Qlt_le_weak.
  - assert (E' : Qeq_bool (fst b) (fst a) = false).
    { destruct (Qeq_bool (fst b) (fst a)) eqn:E2; auto.
      apply Qeq_bool_iff in E2. symmetry in E2. apply Qeq_bool_iff in E2.
      congruence. }
    rewrite E'. rewrite Qlt_bool_true, Qlt_bool_false. apply Qlt_le_weak.
Qed.

Lemma sorted_regions_ranked regions : ranked (sorted_regions regions).
Proof.
  unfold ranked, sorted_regions. intros i a b Ha Hb.
  pose proof (sort_by_adjacent
                (fun a b => key_lt (sort_key a) (sort_key b))
                (fun x y => key_lt_asym (sort_key x) (sort_key y))
                regions i a b Ha Hb) as H.
  unfold key_lt, sort_key in H. simpl in H.
  destruct (Qeq_bool (- Tmax_C b) (- Tmax_C a)) eqn:E.
  - right. apply Qeq_bool_iff in E. apply Qlt_bool_false in H.
    split.
    + apply Qopp_comp in E. rewrite !Qopp_involutive in E. now symmetry.
    + apply Qopp_le_compat in H. now rewrite !Qopp_involutive in H.
  - left. apply Qlt_bool_false in H.
    apply Qopp_le_compat in H. rewrite !Qopp_involutive in H.
    apply Qle_lteq in H as [H|H]; auto.
    exfalso. apply Qopp_comp in H.
    apply Qeq_bool_iff in H. congruence.
Qed.

(** ** Maximum, argmax and mean *)

Lemma Qmaxb_cases x y :
  (Qmaxb x y = y /\ (x < y)%Q) \/ (Qmaxb x y = x /\ (y <= x)%Q).
Proof.
  unfold Qmaxb. destruct (Qlt_bool x y) eqn:E.
  - left. split; auto. now apply Qlt_bool_true.
  - right. split; auto. now apply Qlt_bool_false.
Qed.

Lemma fold_max_ge l : forall best,
  (best <= fold_left Qmaxb l best)%Q /\
  forall x, In x l -> (x <= fold_left Qmaxb l best)%Q.
Proof.
  induction l as [|y l IH]; intros best; simpl.
  - split; [apply Qle_refl|intros x []].
  - destruct (IH (Qmaxb best y)) as [H1 H2].
    destruct (Qmaxb_cases best y) as [[E Hlt]|[E Hle]]; rewrite E in *.
    + split; [eapply Qle_trans; [apply Qlt_le_weak, Hlt|apply H1]|].
      intros x [<-|Hx]; auto.
    + split; auto. intros x [<-|Hx]; auto.
      eapply Qle_trans; eauto.
Qed.

Lemma np_max_ge vals x : In x vals -> (x <= np_max vals)%Q.
Proof.
  destruct vals as [|y l]; [intros []|]. simpl.
  destruct (fold_max_ge l y) as [H1 H2]. intros [<-|Hx]; auto.
Qed.

(** [argmax_from] walks the list as [fold_left Qmaxb] does and remembers
    where the maximum came from. *)
Lemma argmax_from_spec l : forall best besti i,
  (argmax_from best besti i l = besti /\ fold_left Qmaxb l best = best) \/
  ((i <= argmax_from best besti i l < i + length l)%nat /\
   nth (argmax_from best besti i l - i) l 0%Q = fold_left Qmaxb l best).
Proof.
  induction l as [|y l IH]; intros best besti i; simpl.
  - left. auto.
  - destruct (Qlt_bool best y) eqn:E.
    + assert (Em : Qmaxb best y = y) by (unfold Qmaxb; now rewrite E).
      rewrite Em.
      right. destruct (IH y i (S i)) as [[E1 E2]|[H1 H2]].
      * rewrite E1, E2, Nat.sub_diag. split; auto. lia.
      * split; [lia|].
        destruct (argmax_from y i (S i) l - i)%nat as [|k] eqn:Ek; [lia|].
        replace (argmax_from y i (S i) l - S i)%nat with k in H2 by lia.
        exact H2.
    + assert (Em : Qmaxb best y = best) by (unfold Qmaxb; now rewrite E).
      rewrite Em.
      destruct (IH best besti (S i)) as [[E1 E2]|[H1 H2]].
      * left. auto.
      * right. split; [lia|].
        destruct (argmax_from best besti (S i) l - i)%nat as [|k] eqn:Ek; [lia|].
        replace (argmax_from best besti (S i) l - S i)%nat with k in H2 by lia.
        exact H2.
Qed.

Lemma np_argmax_spec vals :
  vals <> [] ->
  (np_argmax vals < length vals)%nat /\
  nth (np_argmax vals) vals 0%Q = np_max vals.
Proof.
  destruct vals as [|x l]; [congruence|]. intros _. simpl.
  destruct (argmax_from_spec l x 0%nat 1%nat) as [[E1 E2]|[H1 H2]].
  - rewrite E1, E2. split; auto. lia.
  - split; [lia|].
    destruct (argmax_from x 0 1 l) as [|k] eqn:Ek; [lia|].
    replace (S k - 1)%nat with k in H2 by lia. exact H2.
Qed.

Lemma Qsum_le_max vals m :
  (forall x, In x vals -> (x <= m)%Q) ->
  (Qsum vals <= inject_Z (Z.of_nat (length vals)) * m)%Q.
Proof.
  induction vals as [|x l IH]; intros H.
  - change (0 <= 0 * m)%Q. lra.
  - assert (Hx : (x <= m)%Q) by (apply H; now left).
    assert (Hl : (Qsum l <= inject_Z (Z.of_nat (length l)) * m)%Q)
      by (apply IH; intros y Hy; apply H; now right).
    change (Qsum (x :: l)) with (x + Qsum l)%Q.
    replace (Z.of_nat (length (x :: l))) with (1 + Z.of_nat (length l))%Z
      by (simpl length; lia).
    rewrite inject_Z_plus. change (inject_Z 1) with 1%Q. lra.
Qed.

Lemma mean_exact_le_max vals :
  vals <> [] -> (mean_exact vals <= np_max vals)%Q.
Proof.
  intros Hne. unfold mean_exact.
  assert (Hpos : (0 < inject_Z (Z.of_nat (length vals)))%Q).
  { change 0%Q with (inject_Z 0). rewrite <- Zlt_Qlt.
    destruct vals; [congruence|simpl; lia]. }
  apply Qle_shift_div_r; auto.
  rewrite Qmult_comm. apply Qsum_le_max. apply np_max_ge.
Qed.

(** ** [np.argwhere] *)

Lemma In_np_argwhere m p :
  In p (np_argwhere m) <->
  in_range (nrows m) (ncols m) p /\ get false m p = true.
Proof.
  unfold np_argwhere. rewrite filter_In, In_positions. tauto.
Qed.

Lemma NoDup_np_argwhere m : NoDup (np_argwhere m).
Proof. apply NoDup_filter, NoDup_positions. Qed.

Lemma nrows_gmap {A B} (f : A -> B) g : nrows (gmap f g) = nrows g.
Proof. unfold nrows, gmap. apply length_map. Qed.

Lemma ncols_gmap {A B} (f : A -> B) g : ncols (gmap f g) = ncols g.
Proof.
  unfold ncols, gmap. destruct g; simpl; auto. apply length_map.
Qed.

Lemma rect_shape {A} h w (g : grid A) :
  rect h w g -> rect (nrows g) (ncols g) g.
Proof.
  intros Hr. rewrite (nrows_rect h w) by auto.
  destruct (Nat.eq_dec h 0) as [Hh|Hh].
  - destruct Hr as [Hl Hf]. rewrite Hh in *.
    destruct g; [|discriminate]. split; auto.
  - now rewrite (ncols_rect h w) by (auto; lia).
Qed.

(** The pixels [np.argwhere(labeled == lab)] are the pixels of the region. *)
Lemma In_region_coords h w (L : grid Z) lab p :
  rect h w L ->
  (In p (np_argwhere (gmap (fun v => v =? lab) L)) <-> region_pixels L lab p).
Proof.
  intros HL. rewrite In_np_argwhere, nrows_gmap, ncols_gmap.
  unfold region_pixels. split; intros [Hp E]; split; auto.
  - rewrite (get_gmap _ _ _ L 0 false p (rect_shape h w L HL) Hp) in E.
    now apply Z.eqb_eq.
  - rewrite (get_gmap _ _ _ L 0 false p (rect_shape h w L HL) Hp).
    now apply Z.eqb_eq.
Qed.

(** ** Shapes along the pipeline *)

Lemma rect_ndi_binary_dilation h w m se :
  rect h w m -> rect h w (ndi_binary_dilation m se).
Proof. apply rect_tabulate_shape. Qed.

Lemma rect_ndi_binary_erosion h w m se :
  rect h w m -> rect h w (ndi_binary_erosion m se).
Proof. apply rect_tabulate_shape. Qed.

Lemma rect_ndi_binary_fill_holes h w m :
  rect h w m -> rect h w (ndi_binary_fill_holes m).
Proof. apply rect_tabulate_shape. Qed.

Lemma rect_max_step h w m :
  rect h w m -> rect h w (positive (maximum_filter (astype_int m) 3)).
Proof.
  intros Hm. apply rect_gmap, rect_tabulate_shape. now apply rect_gmap.
Qed.

Lemma rect_min_step h w m :
  rect h w m -> rect h w (positive (minimum_filter (astype_int m) 3)).
Proof.
  intros Hm. apply rect_gmap, rect_tabulate_shape. now apply rect_gmap.
Qed.

Lemma rect_binary_morphology scipy h w m :
  rect h w m -> rect h w (binary_morphology scipy m).
Proof.
  intros Hm. unfold binary_morphology. destruct scipy.
  - apply rect_ndi_binary_fill_holes, rect_ndi_binary_dilation.
    unfold ndi_binary_closing.
    now apply rect_ndi_binary_erosion, rect_ndi_binary_dilation.
  - now apply rect_max_step, rect_max_step, rect_min_step.
Qed.

Lemma rect_dilate_mask scipy h w m r :
  rect h w m -> rect h w (dilate_mask scipy m r).
Proof.
  intros Hm. unfold dilate_mask. destruct (r <=? 0); auto.
  destruct scipy.
  - now apply rect_ndi_binary_dilation.
  - induction (Z.to_nat r) as [|k IH]; simpl; auto.
    now apply rect_max_step.
Qed.

Lemma np_gradient_inv a gy gx :
  np_gradient a = OK (gy, gx) ->
  (2 <= nrows a)%nat /\ (2 <= ncols a)%nat /\
  rect (nrows a) (ncols a) gy /\ rect (nrows a) (ncols a) gx.
Proof.
  unfold np_gradient.
  destruct ((nrows a <? 2)%nat || (ncols a <? 2)%nat) eqn:E; [discriminate|].
  apply orb_false_iff in E as [E1 E2].
  apply Nat.ltb_ge in E1, E2.
  intros H. inversion H; subst. auto using rect_tabulate.
Qed.

Section PipelineShapes.

Variable SCIPY_AVAILABLE : bool.
Variable gaussian_smooth : grid Q -> Q -> grid Q.
Variable np_sqrt : Q -> Q.
Variable np_mean : list Q -> Q.

Lemma smoothed_gradient_inv T sigma G :
  smoothed_gradient gaussian_smooth np_sqrt T sigma = OK G ->
  let T_s := gaussian_smooth T sigma in
  (2 <= nrows T_s)%nat /\ (2 <= ncols T_s)%nat /\
  rect (nrows T_s) (ncols T_s) G.
Proof.
  unfold smoothed_gradient.
  destruct (np_gradient (gaussian_smooth T sigma)) as [[gy gx]|e] eqn:E;
    simpl; [|discriminate].
  intros H. inversion H; subst.
  destruct (np_gradient_inv _ _ _ E) as (H1 & H2 & H3 & H4).
  auto using rect_gmap2.
Qed.

Lemma threshold_inv G pctl t M0 h w :
  rect h w G -> threshold G pctl = OK (t, M0) -> rect h w M0.
Proof.
  unfold threshold. intros HG.
  destruct (np_percentile (ravel G) pctl); simpl; [|discriminate].
  intros H. inversion H; subst. now apply rect_gmap.
Qed.

Lemma rect_clean_mask h w M0 a :
  rect h w M0 -> rect h w (clean_mask SCIPY_AVAILABLE M0 a).
Proof.
  intros HM. unfold clean_mask. apply rect_remove_small.
  apply (label_components_spec _ h w).
  now apply rect_binary_morphology.
Qed.

(** What a successful run has computed. *)
Lemma hotspot_detection_inv T sigma pctl a ring out :
  hotspot_detection SCIPY_AVAILABLE gaussian_smooth np_sqrt np_mean
    T sigma pctl a ring = OK out ->
  exists G M0 regions h w,
    smoothed_gradient gaussian_smooth np_sqrt T sigma = OK G /\
    threshold G pctl = OK (tau out, M0) /\
    rect h w M0 /\ (2 <= h)%nat /\ (2 <= w)%nat /\
    G_s out = G /\
    M_clean out = clean_mask SCIPY_AVAILABLE M0 a /\
    label_spec (M_clean out) h w (labeled_clean out)
      (snd (label_components SCIPY_AVAILABLE (M_clean out))) /\
    labeled_clean out = fst (label_components SCIPY_AVAILABLE (M_clean out)) /\
    analyze SCIPY_AVAILABLE np_mean T (labeled_clean out)
      (snd (label_components SCIPY_AVAILABLE (M_clean out))) ring
    = OK regions /\
    regions_sorted out = sorted_regions regions.
Proof.
  unfold hotspot_detection.
  destruct (smoothed_gradient gaussian_smooth np_sqrt T sigma) as [G|e] eqn:EG;
    simpl; [|discriminate].
  destruct (threshold G pctl) as [[t M0]|e] eqn:Et; simpl; [|discriminate].
  destruct (analyze _ _ _ _ _ _) as [regions|e] eqn:Ea; simpl; [|discriminate].
  intros H. inversion H; subst; clear H. simpl.
  destruct (smoothed_gradient_inv _ _ _ EG) as (H1 & H2 & H3).
  exists G, M0, regions, (nrows (gaussian_smooth T sigma)),
    (ncols (gaussian_smooth T sigma)).
  pose proof (threshold_inv _ _ _ _ _ _ H3 Et) as HM0.
  split; [reflexivity|]. split; [exact Et|]. split; [exact HM0|].
  split; [exact H1|]. split; [exact H2|]. split; [reflexivity|].
  split; [reflexivity|].
  split; [|split; [reflexivity|split; [exact Ea|reflexivity]]].
  apply label_components_spec. now apply rect_clean_mask.
Qed.

Lemma analyze_loop T L ring labs : forall acc,
  match
    fold_left
      (fun acc lab =>
         regions <- acc ;;
         r <- analyze_region SCIPY_AVAILABLE np_mean T L ring lab ;;
         OK (regions ++ r))
      labs acc
  with
  | OK regions =>
      exists acc0, acc = OK acc0 /\
        forall r, In r regions ->
          In r acc0 \/
          exists lab, In lab labs /\
            analyze_region SCIPY_AVAILABLE np_mean T L ring lab = OK [r]
  | Error _ => True
  end.
Proof.
  induction labs as [|lab labs IH]; intros acc; simpl.
  - destruct acc; auto. exists a. auto.
  - specialize (IH (regions <- acc ;;
                    r <- analyze_region SCIPY_AVAILABLE np_mean T L ring lab ;;
                    OK (regions ++ r))).
    destruct (fold_left _ labs _) as [regions|e]; auto.
    destruct IH as (acc1 & E & H).
    destruct acc as [acc0|e]; simpl in E; [|discriminate].
    exists acc0. split; auto. intros r Hr.
    destruct (analyze_region SCIPY_AVAILABLE np_mean T L ring lab) as [rs|e] eqn:Er;
      simpl in E; [|discriminate].
    inversion E; subst acc1; clear E.
    destruct (H r Hr) as [Hin|(lab' & Hl & E')].
    + apply in_app_or in Hin as [Hin|Hin]; auto.
      right. exists lab. split; auto.
      unfold analyze_region in Er |- *.
      destruct (length _ =? 0)%nat.
      * inversion Er; subst. destruct Hin.
      * destruct (negb _); [discriminate|].
        inversion Er; subst. destruct Hin as [<-|[]]. reflexivity.
    + right. exists lab'. auto.
Qed.

Lemma analyze_inv T L nlab ring regions r :
  analyze SCIPY_AVAILABLE np_mean T L nlab ring = OK regions -> In r regions ->
  exists lab, 1 <= lab <= nlab /\
    analyze_region SCIPY_AVAILABLE np_mean T L ring lab = OK [r].
Proof.
  unfold analyze. intros E Hr.
  pose proof (analyze_loop T L ring (map Z.of_nat (seq 1 (Z.to_nat nlab)))
                (OK [])) as H.
  rewrite E in H. destruct H as (acc0 & E0 & H). inversion E0; subst.
  destruct (H r Hr) as [[]|(lab & Hl & E')].
  exists lab. split; auto.
  apply in_map_iff in Hl as (k & <- & Hk). apply in_seq in Hk. lia.
Qed.

End PipelineShapes.

(** * The stated properties *)

(** ** Component labelling *)

Lemma component_representatives mask h w L n :
  label_spec mask h w L n ->
  forall k, Z.of_nat k <= n ->
    exists reps : list pixel,
      length reps = k /\
      forall i r, nth_error reps i = Some r ->
                  fg mask h w r /\ get 0 L r = Z.of_nat i + 1.
Proof.
  intros HL. induction k as [|k IH]; intros Hk.
  - exists []. split; auto. intros [|i] r H; discriminate.
  - destruct IH as (reps & Hlen & Hreps); [lia|].
    destruct (ls_used _ _ _ _ _ HL (Z.of_nat k + 1) ltac:(lia)) as (p & Hp & E).
    exists (reps ++ [p]). split; [rewrite length_app; simpl; lia|].
    intros i r Hi.
    destruct (Nat.lt_ge_cases i (length reps)) as [Hlt|Hge].
    + rewrite nth_error_app1 in Hi by auto. now apply Hreps.
    + rewrite nth_error_app2 in Hi by auto.
      destruct (i - length reps)%nat as [|j] eqn:Ej; simpl in Hi.
      * inversion Hi; subst r. split; auto. rewrite E. lia.
      * destruct j; discriminate.
Qed.

Lemma label_spec_components mask h w L n :
  label_spec mask h w L n -> labels_components mask h w L n.
Proof.
  intros HL. pose proof HL as [Hrect Hn Hfg Hbg Hconn Hused].
  refine (conj Hrect (conj Hfg (conj Hbg (conj Hconn (conj _ _))))).
  - destruct (component_representatives mask h w L n HL (Z.to_nat n) ltac:(lia))
      as (reps & Hlen & Hreps).
    exists reps. split; [lia|]. split; [|split].
    + intros r Hr. apply In_nth_error in Hr as [i Hi]. now apply (Hreps i).
    + intros i j r s Hi Hj Hc.
      destruct (Hreps i r Hi) as [Hfr Er]. destruct (Hreps j s Hj) as [Hfs Es].
      apply (Hconn r s Hfr Hfs) in Hc. lia.
    + intros p Hp. specialize (Hfg p Hp).
      destruct (nth_error reps (Z.to_nat (get 0 L p - 1))) as [r|] eqn:Er.
      * exists r. split; [eapply nth_error_In; eauto|].
        destruct (Hreps _ r Er) as [Hfr E].
        apply (Hconn r p Hfr Hp). lia.
      * apply nth_error_None in Er. lia.
  - intros Hall. destruct (Z.eq_dec n 0) as [|Hne]; auto.
    destruct (Hused 1 ltac:(lia)) as (p & [Hp Hm] & _).
    rewrite (Hall p Hp) in Hm. discriminate.
Qed.

(** C6. For every binary mask, [label_components] gives every foreground
    pixel a label of 1..count and every background pixel the label 0; two
    foreground pixels share their label exactly when a 4-connected path of
    foreground pixels joins them; and count is the number of these
    components: one pixel of each can be listed, count of them, no two
    connected, every foreground pixel connected to one of them (so count is
    0 on a mask that is all false).  Both branches, SciPy and fallback. *)
Theorem label_components_partition (SCIPY_AVAILABLE : bool)
    (mask : grid bool) (h w : nat) :
  rect h w mask ->
  labels_components mask h w
    (fst (label_components SCIPY_AVAILABLE mask))
    (snd (label_components SCIPY_AVAILABLE mask)).
Proof.
  intros Hm. apply label_spec_components. now apply label_components_spec.
Qed.

Lemma label_components_partition_witness :
  labels_components ex_mask 3 4
    (fst (label_components false ex_mask))
    (snd (label_components false ex_mask)).
Proof.
  apply (label_components_partition false ex_mask 3 4).
  apply rectb_true. reflexivity.
Defined.

(** X2: the fallback flood fill needs no more than [h * w] turns of its loop. *)
Lemma label_components_terminates (mask : grid bool) (h w : nat) :
  rect h w mask ->
  label_fuel (nrows mask * ncols mask) mask = Some (label_bfs mask).
Proof.
  intros Hm. unfold label_bfs.
  destruct (label_fuel_enough mask h w Hm) as (L & n & -> & _). reflexivity.
Qed.

(** ** Region filter *)

(** C9, as amended. For every label map that [label_components] produces
    (from any mask) and every minimum area: filtering, labelling the
    filtered mask again and filtering again gives the mask of the first
    filtering. *)
Theorem refilter_idempotent (SCIPY_AVAILABLE : bool) (mask : grid bool)
    (h w : nat) (min_area : Z) :
  rect h w mask ->
  let labeled := fst (label_components SCIPY_AVAILABLE mask) in
  let filtered := remove_small_components labeled min_area in
  remove_small_components
    (fst (label_components SCIPY_AVAILABLE filtered)) min_area = filtered.
Proof.
  intros Hm labeled filtered.
  pose proof (label_components_spec mask h w Hm SCIPY_AVAILABLE) as HL.
  fold labeled in HL.
  assert (Hf : rect h w filtered) by (apply rect_remove_small, HL).
  pose proof (label_components_spec filtered h w Hf SCIPY_AVAILABLE) as HL2.
  eapply refilter_same; eauto.
Qed.

Lemma refilter_idempotent_witness :
  let labeled := fst (label_components true ex_mask) in
  let filtered := remove_small_components labeled 2 in
  remove_small_components (fst (label_components true filtered)) 2 = filtered.
Proof.
  apply (refilter_idempotent true ex_mask 3 4 2).
  apply rectb_true. reflexivity.
Defined.

(** C9 as stated fails on a label map whose label 1 marks two pixels that
    do not touch: with minimum area 2 the first filtering keeps both, the
    second labelling splits them and the second filtering drops them. *)
Lemma refilter_not_idempotent_on_split_label :
  let labeled := [[1; 0; 1]] in
  let filtered := remove_small_components labeled 2 in
  filtered = [[true; false; true]] /\
  remove_small_components (fst (label_components false filtered)) 2
  = [[false; false; false]] /\
  remove_small_components (fst (label_components false filtered)) 2
  <> filtered.
Proof. split; [reflexivity|]. split; [reflexivity|]. vm_compute. discriminate. Qed.

(** ** The pipeline *)

Section PipelineProperties.

Variable SCIPY_AVAILABLE : bool.
Variable gaussian_smooth : grid Q -> Q -> grid Q.
Variable np_sqrt : Q -> Q.
Variable np_mean : list Q -> Q.

Let detect := hotspot_detection SCIPY_AVAILABLE gaussian_smooth np_sqrt np_mean.

(** The regions of a successful run, one by one. *)
Lemma output_region T sigma pctl a ring out r :
  detect T sigma pctl a ring = OK out -> In r (regions_sorted out) ->
  exists h w lab,
    label_spec (M_clean out) h w (labeled_clean out)
      (snd (label_components SCIPY_AVAILABLE (M_clean out))) /\
    (exists M0, rect h w M0 /\
                M_clean out = clean_mask SCIPY_AVAILABLE M0 a) /\
    1 <= lab <= snd (label_components SCIPY_AVAILABLE (M_clean out)) /\
    analyze_region SCIPY_AVAILABLE np_mean T (labeled_clean out) ring lab = OK [r].
Proof.
  intros Hd Hr.
  destruct (hotspot_detection_inv _ _ _ _ _ _ _ _ _ _ Hd)
    as (G & M0 & regions & h & w & _ & _ & HM0 & _ & _ & _ & HMc & HL & _
        & Ha & Hs).
  rewrite Hs in Hr. apply In_sort_by in Hr.
  destruct (analyze_inv _ _ _ _ _ _ _ _ Ha Hr) as (lab & Hlab & E).
  exists h, w, lab. split; auto. split; eauto.
Qed.

(** What [analyze_region] puts in a region. *)
Lemma analyze_region_inv T L ring lab r :
  analyze_region SCIPY_AVAILABLE np_mean T L ring lab = OK [r] ->
  let coords := np_argwhere (gmap (fun v => v =? lab) L) in
  let vals := map (get 0%Q T) coords in
  coords <> [] /\ same_shape T L = true /\
  r = mkRegion lab (Z.of_nat (length coords)) (np_max vals) (np_mean vals)
        (local_background SCIPY_AVAILABLE T (gmap (fun v => v =? lab) L) ring)
        (np_max vals
         - local_background SCIPY_AVAILABLE T (gmap (fun v => v =? lab) L) ring)%Q
        (fst (nth (np_argmax vals) coords (0, 0)))
        (snd (nth (np_argmax vals) coords (0, 0))).
Proof.
  unfold analyze_region.
  destruct (np_argwhere (gmap (fun v => v =? lab) L)) as [|c coords] eqn:Ec.
  - simpl. discriminate.
  - simpl length. simpl Nat.eqb. cbv iota.
    destruct (same_shape T L); simpl; [|discriminate].
    intros H. inversion H; subst. split; [discriminate|]. split; auto.
Qed.

Lemma analyze_region_measured T L h w ring lab r :
  rect h w L ->
  analyze_region SCIPY_AVAILABLE np_mean T L ring lab = OK [r] ->
  measured np_mean T L r.
Proof.
  intros HL Hr. destruct (analyze_region_inv _ _ _ _ _ Hr) as (Hne & _ & ->).
  set (coords := np_argwhere (gmap (fun v => v =? lab) L)) in *.
  set (vals := map (get 0%Q T) coords).
  assert (Hvne : vals <> []).
  { unfold vals. destruct coords; [congruence|discriminate]. }
  destruct (np_argmax_spec vals Hvne) as [Hlt Hmax].
  assert (Hlt' : (np_argmax vals < length coords)%nat)
    by (unfold vals in Hlt; now rewrite length_map in Hlt).
  assert (Hpk : In (nth (np_argmax vals) coords (0, 0)) coords)
    by now apply nth_In.
  assert (Hval : get 0%Q T (nth (np_argmax vals) coords (0, 0)) = np_max vals).
  { rewrite <- Hmax. unfold vals.
    rewrite (nth_indep _ 0%Q (get 0%Q T (0, 0)))
      by now rewrite length_map.
    now rewrite map_nth. }
  unfold measured. simpl.
  rewrite <- surjective_pairing.
  split; [|split; [|split; [|split]]].
  - intros p Hp. apply np_max_ge. apply in_map.
    now apply (In_region_coords h w).
  - exists (nth (np_argmax vals) coords (0, 0)). split; auto.
    now apply (In_region_coords h w L lab).
  - exists coords. split; [reflexivity|].
    split; [apply NoDup_np_argwhere|].
    split; [intros p; now apply In_region_coords with h w|].
    split; auto.
  - now apply (In_region_coords h w L lab).
  - exact Hval.
Qed.

End PipelineProperties.

Lemma in_range_shape {A} h w (g : grid A) p :
  rect h w g -> (in_range (nrows g) (ncols g) p <-> in_range h w p).
Proof.
  intros Hg. rewrite (nrows_rect h w) by auto.
  destruct (Nat.eq_dec h 0) as [Hh|Hh].
  - unfold in_range. rewrite Hh at 1. lia.
  - now rewrite (ncols_rect h w) by (auto; lia).
Qed.

Lemma length_region_coords h w (L : grid Z) lab :
  rect h w L ->
  length (np_argwhere (gmap (fun v => v =? lab) L)) = area_of h w L lab.
Proof.
  intros HL. unfold np_argwhere, area_of.
  rewrite (positions_shape h w) by now apply rect_gmap.
  f_equal. apply filter_ext_in. intros p Hp. apply In_positions in Hp.
  now rewrite (get_gmap h w _ L 0).
Qed.

(** ** Ranking *)

(** C1. The regions [hotspot_detection] returns are ranked: every region is
    followed by one with a lower Tmax, or with an equal Tmax and a DeltaT
    that is not larger. *)
Theorem hotspot_detection_ranked (SCIPY_AVAILABLE : bool)
    (gaussian_smooth : grid Q -> Q -> grid Q) (np_sqrt : Q -> Q)
    (np_mean : list Q -> Q)
    (T : grid Q) (sigma pctl : Q) (region_min_area ring_width : Z)
    (out : detection) :
  hotspot_detection SCIPY_AVAILABLE gaussian_smooth np_sqrt np_mean
    T sigma pctl region_min_area ring_width = OK out ->
  ranked (regions_sorted out).
Proof.
  intros Hd.
  destruct (hotspot_detection_inv _ _ _ _ _ _ _ _ _ _ Hd)
    as (G & M0 & regions & h & w & _ & _ & _ & _ & _ & _ & _ & _ & _ & _ & Hs).
  rewrite Hs. apply sorted_regions_ranked.
Qed.

Lemma hotspot_detection_ranked_witness :
  exists out,
    hotspot_detection true smooth_none sqrt_exact mean_exact ex_T 1 92 1 1 = OK out /\
    length (regions_sorted out) = 2%nat /\
    ranked (regions_sorted out).
Proof.
  eexists. split; [vm_compute; reflexivity|]. split; [reflexivity|].
  apply (hotspot_detection_ranked true smooth_none sqrt_exact mean_exact ex_T 1 92 1 1).
  vm_compute. reflexivity.
Defined.

(** ** Region measurements *)

(** C7, as amended. For every region of the output, Tmax is the largest
    value of the original grid [T] over the pixels of the region, Tmean is
    what [np.mean] makes of these values, taken in raster order, and the
    reported (row, col) is a pixel of the region, where [T] holds Tmax.
    Tmean <= Tmax holds whenever the mean of values is never above the
    largest of them, as for the exact mean; for the mean that [np.mean]
    rounds in binary64 it can fail. *)
Theorem region_measurements (SCIPY_AVAILABLE : bool)
    (gaussian_smooth : grid Q -> Q -> grid Q) (np_sqrt : Q -> Q)
    (np_mean : list Q -> Q)
    (T : grid Q) (sigma pctl : Q) (region_min_area ring_width : Z)
    (out : detection) (r : Region) :
  hotspot_detection SCIPY_AVAILABLE gaussian_smooth np_sqrt np_mean
    T sigma pctl region_min_area ring_width = OK out ->
  In r (regions_sorted out) ->
  measured np_mean T (labeled_clean out) r /\
  ((forall vals, vals <> [] -> (np_mean vals <= np_max vals)%Q) ->
   (Tmean_C r <= Tmax_C r)%Q).
Proof.
  intros Hd Hr.
  destruct (output_region _ _ _ _ _ _ _ _ _ _ _ Hd Hr)
    as (h & w & lab & HL & _ & _ & Ha).
  split.
  - eapply analyze_region_measured; eauto. apply HL.
  - intros Hle.
    destruct (analyze_region_inv _ _ _ _ _ _ _ Ha) as (Hne & _ & ->).
    cbn [Tmean_C Tmax_C]. apply Hle.
    destruct (np_argwhere _); [congruence|discriminate].
Qed.

Lemma region_measurements_witness :
  exists out r,
    hotspot_detection true smooth_none sqrt_exact mean_exact ex_T 1 92 1 1
    = OK out /\
    In r (regions_sorted out) /\
    Tmax_C r = 80%Q /\
    measured mean_exact ex_T (labeled_clean out) r /\
    (Tmean_C r <= Tmax_C r)%Q.
Proof.
  eexists. eexists. split; [vm_compute; reflexivity|].
  split; [left; reflexivity|]. split; [reflexivity|].
  destruct (region_measurements true smooth_none sqrt_exact mean_exact
              ex_T 1 92 1 1 _ _ ltac:(vm_compute; reflexivity)
              ltac:(left; reflexivity)) as [Hm Hle].
  split; [exact Hm|]. apply Hle. exact mean_exact_le_max.
Defined.

(** C7 as stated fails: [np.mean] adds the values up in binary64, and the
    rounded mean of equal values can lie above them.  On the 5 x 5 grid
    that holds the double nearest to 0.11 everywhere (SciPy available, no
    smoothing: sigma 0), the gradient is zero, every pixel is a candidate,
    the closing leaves the centre and the dilation the five pixels of the
    cross around it: Tmax is that double, and the binary64 mean of five
    copies of it is the next double above. *)
Lemma rounded_mean_exceeds_max :
  exists out r,
    hotspot_detection true smooth_none sqrt_exact mean_binary64
      ex_uniform 0 50 1 1 = OK out /\
    regions_sorted out = [r] /\
    area_px r = 5 /\
    Tmax_C r = F2Q (Q2F (11 # 100)) /\
    (Tmax_C r < Tmean_C r)%Q.
Proof.
  eexists. eexists. split; [vm_compute; reflexivity|].
  split; [reflexivity|]. split; [reflexivity|].
  split; [vm_compute; reflexivity|]. vm_compute. reflexivity.
Qed.

(** ** No region smaller than the minimum area *)

(** C10. Every region of the output has at least [region_min_area] pixels
    (for every minimum area, in particular every one that is >= 1): the
    filter keeps whole components, and the second labelling finds each kept
    component in one piece. *)
Theorem regions_reach_min_area (SCIPY_AVAILABLE : bool)
    (gaussian_smooth : grid Q -> Q -> grid Q) (np_sqrt : Q -> Q)
    (np_mean : list Q -> Q)
    (T : grid Q) (sigma pctl : Q) (region_min_area ring_width : Z)
    (out : detection) (r : Region) :
  1 <= region_min_area ->
  hotspot_detection SCIPY_AVAILABLE gaussian_smooth np_sqrt np_mean
    T sigma pctl region_min_area ring_width = OK out ->
  In r (regions_sorted out) ->
  region_min_area <= area_px r.
Proof.
  intros _ Hd Hr.
  destruct (output_region _ _ _ _ _ _ _ _ _ _ _ Hd Hr)
    as (h & w & lab & HL2 & (M0 & HM0 & HMc) & Hlab & Ha).
  destruct (analyze_region_inv _ _ _ _ _ _ _ Ha) as (Hne & _ & ->). simpl.
  pose proof (ls_rect _ _ _ _ _ HL2) as Hrect.
  rewrite (length_region_coords h w) by auto.
  destruct (np_argwhere (gmap (fun v => v =? lab) (labeled_clean out)))
    as [|p coords] eqn:Ec; [congruence|].
  assert (Hp : region_pixels (labeled_clean out) lab p).
  { apply (In_region_coords h w); auto. rewrite Ec. now left. }
  destruct Hp as [Hp Elab]. apply (in_range_shape h w) in Hp; auto.
  rewrite <- Elab.
  unfold clean_mask in HMc. rewrite HMc in HL2.
  pose proof (label_components_spec _ h w
                (rect_binary_morphology SCIPY_AVAILABLE h w M0 HM0)
                SCIPY_AVAILABLE) as HL.
  apply (kept_components_large h w _ _ _ HL region_min_area _ _ HL2 p).
  apply (labelled_fg h w _ _ _ HL2); auto. lia.
Qed.

Lemma regions_reach_min_area_witness :
  exists out r,
    hotspot_detection true smooth_none sqrt_exact mean_exact ex_T 1 92 10 1 = OK out /\
    In r (regions_sorted out) /\
    (1 <= 10 <= area_px r)%Z.
Proof.
  eexists. eexists. split; [vm_compute; reflexivity|].
  split; [left; reflexivity|]. split; [lia|].
  eapply (regions_reach_min_area true smooth_none sqrt_exact mean_exact ex_T 1 92 10 1).
  - lia.
  - vm_compute. reflexivity.
  - left. reflexivity.
Defined.

(** ** No region at all *)

(** C8. When the mask is empty after filtering the pipeline returns
    normally, with an empty ranked list. *)
Theorem no_region_is_not_an_error (SCIPY_AVAILABLE : bool)
    (gaussian_smooth : grid Q -> Q -> grid Q) (np_sqrt : Q -> Q)
    (np_mean : list Q -> Q)
    (T : grid Q) (sigma pctl : Q) (region_min_area ring_width : Z)
    (G : grid Q) (t : Q) (M0 : grid bool) :
  smoothed_gradient gaussian_smooth np_sqrt T sigma = OK G ->
  threshold G pctl = OK (t, M0) ->
  np_any (clean_mask SCIPY_AVAILABLE M0 region_min_area) = false ->
  exists out,
    hotspot_detection SCIPY_AVAILABLE gaussian_smooth np_sqrt np_mean
      T sigma pctl region_min_area ring_width = OK out /\
    M_clean out = clean_mask SCIPY_AVAILABLE M0 region_min_area /\
    regions_sorted out = [].
Proof.
  intros HG Ht Hany.
  destruct (smoothed_gradient_inv _ _ _ _ _ HG) as (_ & _ & Hrect).
  pose proof (threshold_inv _ _ _ _ _ _ Hrect Ht) as HM0.
  pose proof (rect_clean_mask SCIPY_AVAILABLE _ _ _ region_min_area HM0) as Hc.
  pose proof (label_components_spec _ _ _ Hc SCIPY_AVAILABLE) as HL.
  assert (Hn : snd (label_components SCIPY_AVAILABLE
                      (clean_mask SCIPY_AVAILABLE M0 region_min_area)) = 0).
  { apply (label_spec_components _ _ _ _ _ HL).
    now apply np_any_false. }
  unfold hotspot_detection. rewrite HG. simpl. rewrite Ht. simpl.
  rewrite Hn. unfold analyze. simpl.
  eexists. split; [reflexivity|]. split; reflexivity.
Qed.

Lemma no_region_is_not_an_error_witness :
  exists out,
    hotspot_detection false smooth_none sqrt_exact mean_exact ex_T 1 92 1 1 = OK out /\
    np_any (M_clean out) = false /\
    regions_sorted out = [].
Proof.
  edestruct (no_region_is_not_an_error false smooth_none sqrt_exact mean_exact
               ex_T 1 92 1 1) as (out & H1 & H2 & H3).
  - vm_compute. reflexivity.
  - vm_compute. reflexivity.
  - vm_compute. reflexivity.
  - exists out. split; [exact H1|]. split; [|exact H3].
    rewrite H2. vm_compute. reflexivity.
Defined.

(** ** Thresholding *)

Lemma Qlt_bool_asym x y : Qlt_bool x y = true -> Qlt_bool y x = false.
Proof.
  rewrite Qlt_bool_true, Qlt_bool_false. apply Qlt_le_weak.
Qed.

Lemma sort_by_Qle l : StronglySorted Qle (sort_by Qlt_bool l).
Proof.
  apply Sorted_StronglySorted; [exact Qle_trans|].
  pose proof (sort_by_sorted Qlt_bool Qlt_bool_asym l) as H.
  induction H as [|x s Hs IH Hhd]; constructor; auto.
  destruct Hhd as [|y s' Hy]; constructor. now apply Qlt_bool_false.
Qed.

Lemma strongly_sorted_nth s :
  StronglySorted Qle s ->
  forall i j, (i <= j < length s)%nat -> (nth i s 0 <= nth j s 0)%Q.
Proof.
  induction 1 as [|x l Hl IH Hall]; intros i j Hij; simpl in Hij; [lia|].
  destruct i as [|i], j as [|j]; simpl; try lia.
  - apply Qle_refl.
  - rewrite Forall_forall in Hall. apply Hall, nth_In. lia.
  - apply IH. lia.
Qed.


Lemma np_percentile_error values q :
  (q < 0)%Q \/ (100 < q)%Q ->
  np_percentile values q = Error ValueError_percentile.
Proof.
  intros H. unfold np_percentile.
  destruct H as [H|H]; apply Qlt_bool_true in H; rewrite H; simpl; auto.
  now rewrite orb_true_r.
Qed.

Lemma np_percentile_inv values q t :
  np_percentile values q = OK t -> (0 <= q)%Q /\ (q <= 100)%Q.
Proof.
  unfold np_percentile.
  destruct (Qlt_bool q 0) eqn:E1; simpl; [discriminate|].
  destruct (Qlt_bool 100 q) eqn:E2; simpl; [discriminate|].
  intros _. split; now apply Qlt_bool_false.
Qed.



Lemma In_ravel {A} h w (g : grid A) d p :
  rect h w g -> in_range h w p -> In (get d g p) (ravel g).
Proof.
  intros Hg Hp. rewrite (ravel_positions h w g d Hg).
  apply in_map. now apply In_positions.
Qed.

Lemma In_ravel_inv {A} h w (g : grid A) d x :
  rect h w g -> In x (ravel g) -> exists p, in_range h w p /\ get d g p = x.
Proof.
  intros Hg Hx. rewrite (ravel_positions h w g d Hg) in Hx.
  apply in_map_iff in Hx as (p & E & Hp). apply In_positions in Hp. eauto.
Qed.



(** ** Structuring elements *)

Lemma nrows_tabulate {A} h w (f : pixel -> A) : nrows (tabulate h w f) = h.
Proof. unfold nrows, tabulate. now rewrite length_map, length_range. Qed.

Lemma ncols_tabulate {A} h w (f : pixel -> A) :
  (0 < h)%nat -> ncols (tabulate h w f) = w.
Proof.
  intros Hh. apply (ncols_rect h w); auto. apply rect_tabulate.
Qed.

(** The offsets of [disk r] are the integer points within distance [r]. *)
Lemma In_se_offsets_disk r o :
  0 <= r ->
  (In o (se_offsets (disk r)) <-> fst o * fst o + snd o * snd o <= r * r).
Proof.
  intros Hr. unfold se_offsets, disk.
  set (n := Z.to_nat (2 * r + 1)).
  assert (Hn : Z.of_nat n = 2 * r + 1) by (unfold n; lia).
  rewrite nrows_tabulate, ncols_tabulate by lia.
  assert (Hc : Z.of_nat n / 2 = r).
  { rewrite Hn. symmetry. apply (Z.div_unique _ _ _ 1); lia. }
  rewrite Hc, in_map_iff. split.
  - intros (p & <- & Hp). apply In_np_argwhere in Hp as [Hp Hg].
    rewrite nrows_tabulate, ncols_tabulate in Hp by lia.
    rewrite get_tabulate in Hg by auto. apply Z.leb_le in Hg. simpl. lia.
  - intros Ho. exists (fst o + r, snd o + r). split.
    + simpl. destruct o; simpl. f_equal; lia.
    + apply In_np_argwhere.
      rewrite nrows_tabulate, ncols_tabulate by lia.
      assert (Hp : in_range n n (fst o + r, snd o + r)).
      { unfold in_range. simpl. rewrite Hn. nia. }
      split; auto. rewrite get_tabulate by auto. apply Z.leb_le. simpl.
      replace (fst o + r - r) with (fst o) by lia.
      replace (snd o + r - r) with (snd o) by lia. lia.
Qed.

Lemma ndi_dilation_disk h w m r :
  rect h w m -> 0 <= r -> is_dilation r h w m (ndi_binary_dilation m (disk r)).
Proof.
  intros Hm Hr p Hp. unfold ndi_binary_dilation.
  rewrite (get_tabulate_shape h w) by auto.
  rewrite (nrows_rect h w) by auto.
  rewrite (ncols_rect h w) by (auto; unfold in_range in Hp; lia).
  rewrite existsb_exists. split.
  - intros (o & Ho & Hq). apply In_se_offsets_disk in Ho; auto.
    apply andb_true_iff in Hq as [Hq Hg]. apply in_rangeb_true in Hq.
    exists (fst p - fst o, snd p - snd o). split; [split; auto|].
    unfold dist2. simpl.
    replace (fst p - (fst p - fst o)) with (fst o) by lia.
    replace (snd p - (snd p - snd o)) with (snd o) by lia. exact Ho.
  - intros (q & [Hq Hg] & Hd).
    exists (fst p - fst q, snd p - snd q). split.
    + apply In_se_offsets_disk; auto.
    + simpl.
      replace (fst p - (fst p - fst q), snd p - (snd p - snd q)) with q
        by (destruct q; simpl; f_equal; lia).
      apply andb_true_iff. split; auto. now apply in_rangeb_true.
Qed.

Lemma ndi_erosion_disk h w m r :
  rect h w m -> 0 <= r -> is_erosion r h w m (ndi_binary_erosion m (disk r)).
Proof.
  intros Hm Hr p Hp. unfold ndi_binary_erosion.
  rewrite (get_tabulate_shape h w) by auto.
  rewrite (nrows_rect h w) by auto.
  rewrite (ncols_rect h w) by (auto; unfold in_range in Hp; lia).
  rewrite forallb_forall. split.
  - intros Hall q Hd.
    specialize (Hall (fst q - fst p, snd q - snd p)).
    simpl in Hall.
    replace (fst p + (fst q - fst p), snd p + (snd q - snd p)) with q in Hall
      by (destruct q; simpl; f_equal; lia).
    assert (Hin : In (fst q - fst p, snd q - snd p) (se_offsets (disk r))).
    { apply In_se_offsets_disk; auto. unfold dist2 in Hd. simpl. lia. }
    apply Hall in Hin. apply andb_true_iff in Hin as [Hq Hg].
    apply in_rangeb_true in Hq. split; auto.
  - intros Hall o Ho. apply In_se_offsets_disk in Ho; auto.
    destruct (Hall (fst p + fst o, snd p + snd o)) as [Hq Hg].
    { unfold dist2. simpl. 
      replace (fst p - (fst p + fst o)) with (- fst o) by lia.
      replace (snd p - (snd p + snd o)) with (- snd o) by lia. lia. }
    apply andb_true_iff. split; auto. now apply in_rangeb_true.
Qed.

Lemma on_borderb_true h w p :
  in_range h w p ->
  (on_borderb (Z.of_nat h) (Z.of_nat w) p = true <-> on_border h w p).
Proof.
  intros Hp. unfold on_borderb, on_border.
  rewrite !orb_true_iff, !Z.eqb_eq. tauto.
Qed.

Lemma ndi_fill_holes_spec h w m :
  rect h w m -> is_hole_filling h w m (ndi_binary_fill_holes m).
Proof.
  intros Hm p Hp. unfold ndi_binary_fill_holes.
  rewrite (get_tabulate_shape h w) by auto.
  rewrite (positions_shape h w) by auto.
  rewrite (nrows_rect h w) by auto.
  rewrite (ncols_rect h w) by (auto; unfold in_range in Hp; lia).
  assert (Hbg : rect h w (gmap negb m)) by now apply rect_gmap.
  pose proof (label_bfs_spec _ h w Hbg) as HL. unfold ndi_label.
  set (lab := fst (label_bfs (gmap negb m))) in *.
  assert (Hgp : get false (gmap negb m) p = negb (get false m p))
    by now apply (get_gmap h w).
  rewrite negb_true_iff, andb_false_iff. split.
  - intros [Hf|Hf].
    + left. rewrite Hgp in Hf. now apply negb_false_iff in Hf.
    + destruct (get false m p) eqn:Emp; [now left|right].
      intros (b & Hb & Hc).
      pose proof (connected_fg_l _ _ _ _ _ Hc) as Hfb.
      pose proof (connected_fg_r _ _ _ _ _ Hc) as Hfp.
      assert (Hex : existsb (fun l => l =? get 0 lab p)
                      (map (get 0 lab)
                         (filter (fun p0 =>
                            on_borderb (Z.of_nat h) (Z.of_nat w) p0
                            && get false (gmap negb m) p0)
                            (positions h w))) = true).
      { apply existsb_exists. exists (get 0 lab b). split.
        - apply in_map, filter_In. split; [apply In_positions, Hfb|].
          apply andb_true_iff. split; [|apply Hfb].
          apply on_borderb_true; auto. apply Hfb.
        - apply Z.eqb_eq. now apply (ls_conn _ _ _ _ _ HL). }
      congruence.
  - intros [Hmp|Hnr].
    + left. rewrite Hgp, Hmp. reflexivity.
    + destruct (get false (gmap negb m) p) eqn:Ebp; [right|now left].
      destruct (existsb _ _) eqn:Eex; auto.
      exfalso. apply Hnr.
      apply existsb_exists in Eex as (l & Hl & El). apply Z.eqb_eq in El.
      apply in_map_iff in Hl as (b & Eb & Hb).
      apply filter_In in Hb as [Hb Hb2]. apply In_positions in Hb.
      apply andb_true_iff in Hb2 as [Hbd Hbg2].
      exists b. split; [now apply on_borderb_true|].
      apply (ls_conn _ _ _ _ _ HL); [split; auto|split; auto|]. congruence.
Qed.


(** ** The morphology engine *)

(** Each stage of the sequence determines its result. *)
Lemma is_dilation_unique r h w m d1 d2 :
  rect h w d1 -> rect h w d2 ->
  is_dilation r h w m d1 -> is_dilation r h w m d2 -> d1 = d2.
Proof.
  intros H1 H2 Hd1 Hd2. apply (grid_ext h w _ _ false); auto.
  intros p Hp. apply eq_iff_eq_true.
  rewrite (Hd1 p Hp), (Hd2 p Hp). reflexivity.
Qed.

Lemma is_erosion_unique r h w m e1 e2 :
  rect h w e1 -> rect h w e2 ->
  is_erosion r h w m e1 -> is_erosion r h w m e2 -> e1 = e2.
Proof.
  intros H1 H2 He1 He2. apply (grid_ext h w _ _ false); auto.
  intros p Hp. apply eq_iff_eq_true.
  rewrite (He1 p Hp), (He2 p Hp). reflexivity.
Qed.

Lemma is_hole_filling_unique h w m o1 o2 :
  rect h w o1 -> rect h w o2 ->
  is_hole_filling h w m o1 -> is_hole_filling h w m o2 -> o1 = o2.
Proof.
  intros H1 H2 Ho1 Ho2. apply (grid_ext h w _ _ false); auto.
  intros p Hp. apply eq_iff_eq_true.
  rewrite (Ho1 p Hp), (Ho2 p Hp). reflexivity.
Qed.

Lemma refined_unique h w mask o1 o2 :
  refined h w mask o1 -> refined h w mask o2 -> o1 = o2.
Proof.
  intros (Hr1 & d1 & e1 & g1 & Hd1 & He1 & Hg1 & Di1 & Er1 & Gr1 & Fi1)
         (Hr2 & d2 & e2 & g2 & Hd2 & He2 & Hg2 & Di2 & Er2 & Gr2 & Fi2).
  assert (d1 = d2) by now apply (is_dilation_unique 2 h w mask). subst d2.
  assert (e1 = e2) by now apply (is_erosion_unique 2 h w d1). subst e2.
  assert (g1 = g2) by now apply (is_dilation_unique 1 h w e1). subst g2.
  now apply (is_hole_filling_unique h w g1).
Qed.

(** C3, as amended. When SciPy is available ([SCIPY_AVAILABLE]), for every
    binary mask [binary_morphology] returns a mask of the same shape that is
    obtained by closing with the disk of radius 2 (dilation, then erosion),
    then dilation with the disk of radius 1, then hole filling, the disks
    being the pixels within Euclidean distance r and a hole being a
    background pixel that no background path joins to the border; and no
    other mask is obtained by that sequence. *)
Theorem binary_morphology_refines (mask : grid bool) (h w : nat) :
  rect h w mask ->
  refined h w mask (binary_morphology true mask) /\
  forall out, refined h w mask out -> out = binary_morphology true mask.
Proof.
  intros Hm.
  assert (Hr : refined h w mask (binary_morphology true mask)).
  { split; [now apply rect_binary_morphology|].
    unfold binary_morphology, ndi_binary_closing.
    set (d := ndi_binary_dilation mask (disk 2)).
    set (e := ndi_binary_erosion d (disk 2)).
    set (g := ndi_binary_dilation e (disk 1)).
    assert (Hd : rect h w d) by now apply rect_ndi_binary_dilation.
    assert (He : rect h w e) by now apply rect_ndi_binary_erosion.
    assert (Hg : rect h w g) by now apply rect_ndi_binary_dilation.
    exists d, e, g. repeat (split; [assumption|]).
    split; [|split; [|split]].
    - apply ndi_dilation_disk; auto. lia.
    - apply ndi_erosion_disk; auto. lia.
    - apply ndi_dilation_disk; auto. lia.
    - now apply ndi_fill_holes_spec. }
  split; [exact Hr|].
  intros out Ho. now apply (refined_unique h w mask).
Qed.

Lemma binary_morphology_refines_witness :
  rect 5 5 ex_dot /\
  refined 5 5 ex_dot (binary_morphology true ex_dot) /\
  forall out, refined 5 5 ex_dot out -> out = binary_morphology true ex_dot.
Proof.
  assert (Hr : rect 5 5 ex_dot) by (apply rectb_true; reflexivity).
  split; [exact Hr|].
  exact (binary_morphology_refines ex_dot 5 5 Hr).
Defined.

(** The sequence keeps a foreground pixel that is two pixels away from the
    border. *)
Lemma refined_keeps_inner h w mask out c :
  refined h w mask out -> fg mask h w c ->
  (forall q, dist2 c q <= 2 * 2 -> in_range h w q) ->
  get false out c = true.
Proof.
  intros (Hrect & d & e & g & _ & _ & _ & Hd & He & Hg & Hf) Hc Hin.
  pose proof Hc as [Hcr _].
  assert (Hdq : forall q, dist2 c q <= 2 * 2 -> fg d h w q).
  { intros q Hq. split; [now apply Hin|].
    apply Hd; [now apply Hin|]. exists c. split; auto.
    unfold dist2 in *. lia. }
  assert (Hec : fg e h w c).
  { split; auto. now apply He. }
  apply Hf; auto. left. apply Hg; auto.
  exists c. split; auto. unfold dist2. lia.
Qed.

(** C3 as stated fails without SciPy: the fallback erodes first, with a
    3 x 3 square, and a single foreground pixel, which the closing and the
    dilation of the specification keep, is wiped out. *)
Lemma fallback_morphology_not_refined :
  binary_morphology false ex_dot = gmap (fun _ => false) ex_dot /\
  ~ refined 5 5 ex_dot (binary_morphology false ex_dot).
Proof.
  split; [reflexivity|].
  intros H.
  assert (Hc : get false (binary_morphology false ex_dot) (2, 2) = true).
  { apply (refined_keeps_inner 5 5 ex_dot); auto.
    - split; [unfold in_range; simpl; lia|reflexivity].
    - intros [a b] Hq. unfold dist2 in Hq. cbn [fst snd] in Hq.
      assert (Ha : (2 - a) * (2 - a) <= 4)
        by (pose proof (Z.square_nonneg (2 - b)); lia).
      assert (Hb : (2 - b) * (2 - b) <= 4)
        by (pose proof (Z.square_nonneg (2 - a)); lia).
      unfold in_range. cbn [fst snd]. split; nia. }
  vm_compute in Hc. discriminate.
Qed.

(** ** The local background *)

Lemma dilate_disk_get h w m r p :
  rect h w m -> in_range h w p ->
  (get false (dilate_disk m r) p = true <->
   0 <= r /\ exists q, fg m h w q /\ dist2 p q <= r * r).
Proof.
  intros Hm Hp. unfold dilate_disk.
  rewrite (get_tabulate_shape h w) by auto.
  rewrite (positions_shape h w) by auto.
  rewrite andb_true_iff, Z.leb_le, existsb_exists.
  split; intros [Hr (q & H1 & H2)]; split; auto; exists q.
  - apply andb_true_iff in H2 as [H2 H3]. apply Z.leb_le in H3.
    apply In_positions in H1. split; [split|]; auto.
  - destruct H1 as [H1 H3]. split; [now apply In_positions|].
    apply andb_true_iff. split; auto. now apply Z.leb_le.
Qed.

(** With SciPy the ring of [dilate_mask] is the ring of the disk. *)
Lemma ring_scipy h w m r :
  rect h w m ->
  gmap2 andb (dilate_mask true m r) (gmap negb m)
  = gmap2 andb (dilate_disk m r) (gmap negb m).
Proof.
  intros Hm.
  assert (Hn : rect h w (gmap negb m)) by now apply rect_gmap.
  assert (Hd1 : rect h w (dilate_mask true m r)) by now apply rect_dilate_mask.
  assert (Hd2 : rect h w (dilate_disk m r)) by now apply rect_tabulate_shape.
  apply (grid_ext h w _ _ false); auto using rect_gmap2.
  intros p Hp.
  rewrite !(get_gmap2 h w andb _ _ false false) by auto.
  rewrite (get_gmap h w _ m false) by auto.
  destruct (get false m p) eqn:Emp; [now rewrite !andb_false_r|].
  rewrite !andb_true_r. apply eq_iff_eq_true.
  rewrite (dilate_disk_get h w) by auto.
  unfold dilate_mask. destruct (Z.leb_spec r 0) as [Hr|Hr].
  - rewrite Emp. split; [discriminate|].
    intros (Hr0 & q & [Hq Hmq] & Hd). exfalso.
    assert (r = 0) by lia. subst r.
    assert (q = p).
    { unfold dist2 in Hd. destruct p as [a b], q as [c d].
      cbn [fst snd] in Hd.
      pose proof (Z.square_nonneg (a - c)).
      pose proof (Z.square_nonneg (b - d)).
      assert ((a - c) * (a - c) = 0) by lia.
      assert ((b - d) * (b - d) = 0) by lia.
      f_equal; nia. }
    subst q. congruence.
  - rewrite (ndi_dilation_disk h w m r Hm ltac:(lia) p Hp).
    split; [intros H; split; auto; lia|tauto].
Qed.

Lemma local_background_scipy h w T region ring_width :
  rect h w region ->
  local_background true T region ring_width
  = background_spec T region ring_width.
Proof.
  intros Hm. unfold local_background, background_spec.
  rewrite (ring_scipy h w) by auto.
  destruct (select T (gmap2 andb (dilate_disk region ring_width)
                        (gmap negb region))) as [|x rv]; simpl.
  - destruct (select T (gmap negb region)); reflexivity.
  - reflexivity.
Qed.

(** C2, as amended. When SciPy is available, for every region of the
    output Tbg is the median of the original grid over the ring that the
    dilation of the region's mask by a disk of radius ringWidth adds to the
    region; when the ring is empty, the median over the pixels outside the
    region, and the median of the whole grid when there is none. *)
Theorem region_background (gaussian_smooth : grid Q -> Q -> grid Q)
    (np_sqrt : Q -> Q)
    (np_mean : list Q -> Q) (T : grid Q) (sigma pctl : Q)
    (region_min_area ring_width : Z) (out : detection) (r : Region) :
  hotspot_detection true gaussian_smooth np_sqrt np_mean
    T sigma pctl region_min_area ring_width = OK out ->
  In r (regions_sorted out) ->
  Tbg_C r =
  background_spec T (gmap (fun v => v =? ID r) (labeled_clean out)) ring_width
  /\ DeltaT_C r = (Tmax_C r - Tbg_C r)%Q.
Proof.
  intros Hd Hr.
  destruct (output_region _ _ _ _ _ _ _ _ _ _ _ Hd Hr)
    as (h & w & lab & HL & _ & _ & Ha).
  destruct (analyze_region_inv _ _ _ _ _ _ _ Ha) as (_ & _ & ->). simpl.
  split; [|reflexivity].
  apply (local_background_scipy h w). apply rect_gmap, HL.
Qed.

Lemma region_background_witness :
  exists out r,
    hotspot_detection true smooth_none sqrt_exact mean_exact ex_T 1 92 1 1 = OK out /\
    In r (regions_sorted out) /\
    (Tbg_C r == 20)%Q /\
    Tbg_C r =
    background_spec ex_T (gmap (fun v => v =? ID r) (labeled_clean out)) 1.
Proof.
  eexists. eexists. split; [vm_compute; reflexivity|].
  split; [left; reflexivity|]. split; [reflexivity|].
  eapply (region_background smooth_none sqrt_exact mean_exact ex_T 1 92 1 1).
  - vm_compute. reflexivity.
  - left. reflexivity.
Defined.

(** C2 as stated fails without SciPy: the fallback of [dilate_mask] grows
    the mask by 3 x 3 squares, so the ring of a one-pixel region holds its
    eight neighbours, not the four of the disk of radius 1. *)
Lemma fallback_background_not_disk :
  exists r,
    analyze false mean_exact ex_cross_T ex_cross_labels 1 1 = OK [r] /\
    (Tbg_C r == 9 # 2)%Q /\
    (background_spec ex_cross_T
       (gmap (fun v => v =? ID r) ex_cross_labels) 1 == 0)%Q /\
    ~ (Tbg_C r ==
       background_spec ex_cross_T
         (gmap (fun v => v =? ID r) ex_cross_labels) 1)%Q.
Proof.
  eexists. split; [vm_compute; reflexivity|].
  split; [reflexivity|]. split; [reflexivity|].
  vm_compute. discriminate.
Qed.

(** ** Parameters outside their domain *)

Lemma fold_left_same {A B} (f g : A -> B -> A) l :
  (forall a b, f a b = g a b) ->
  forall a, fold_left f l a = fold_left g l a.
Proof.
  intros H. induction l as [|b l IH]; intros a; simpl; auto.
  rewrite H. apply IH.
Qed.

Lemma area_of_own_label h w (L : grid Z) p :
  in_range h w p -> (1 <= area_of h w L (get 0%Z L p))%nat.
Proof.
  intros Hp. unfold area_of.
  assert (Hin : In p (filter (fun q => get 0 L q =? get 0 L p) (positions h w))).
  { apply filter_In. split; [now apply In_positions|apply Z.eqb_refl]. }
  destruct (filter _ _); [destruct Hin|simpl; lia].
Qed.

(** A minimum area of 1 or less keeps every component. *)
Lemma remove_small_le_1 h w (L : grid Z) a :
  rect h w L -> a <= 1 ->
  remove_small_components L a = remove_small_components L 1.
Proof.
  intros HL Ha. apply (grid_ext h w _ _ false); auto using rect_remove_small.
  intros p Hp. rewrite !(get_remove_small h w) by auto.
  pose proof (area_of_own_label h w L p Hp).
  f_equal. apply eq_iff_eq_true. rewrite !Z.leb_le. lia.
Qed.

(** A ring width of 0 or less leaves the mask of the region as it is. *)
Lemma dilate_mask_le_0 scipy m r : r <= 0 -> dilate_mask scipy m r = m.
Proof.
  intros Hr. unfold dilate_mask.
  destruct (Z.leb_spec r 0); [reflexivity|lia].
Qed.

Lemma analyze_region_error scipy np_mean T L ring lab e :
  analyze_region scipy np_mean T L ring lab = Error e ->
  e = IndexError /\ same_shape T L = false.
Proof.
  unfold analyze_region.
  destruct (length _ =? 0)%nat; [discriminate|].
  destruct (same_shape T L); simpl; [discriminate|].
  intros H. inversion H. auto.
Qed.

Lemma analyze_error scipy np_mean T L nlab ring e :
  analyze scipy np_mean T L nlab ring = Error e ->
  e = IndexError /\ same_shape T L = false.
Proof.
  unfold analyze.
  assert (H : forall labs acc,
             fold_left
               (fun acc lab =>
                  regions <- acc ;;
                  r <- analyze_region scipy np_mean T L ring lab ;;
                  OK (regions ++ r)) labs acc = Error e ->
             acc = Error e \/ (e = IndexError /\ same_shape T L = false)).
  { induction labs as [|lab labs IH]; intros acc Hf; simpl in Hf; auto.
    destruct (IH _ Hf) as [E|E]; auto.
    destruct acc as [regions|e']; simpl in E; auto.
    destruct (analyze_region scipy np_mean T L ring lab) as [r|e'] eqn:Er;
      simpl in E; [discriminate|].
    inversion E; subst e'. right. eapply analyze_region_error; eauto. }
  intros Hf. destruct (H _ _ Hf) as [E|E]; auto. discriminate.
Qed.

Lemma analyze_ring_le_0 scipy np_mean T L nlab ring :
  ring <= 0 ->
  analyze scipy np_mean T L nlab ring = analyze scipy np_mean T L nlab 0.
Proof.
  intros Hr. unfold analyze. apply fold_left_same.
  intros acc lab. unfold analyze_region, local_background.
  rewrite !dilate_mask_le_0 by lia. reflexivity.
Qed.

Lemma same_shape_rect {A B} h w (T : grid A) (L : grid B) :
  rect h w L -> (0 < h)%nat ->
  same_shape T L = (nrows T =? h)%nat && (ncols T =? w)%nat.
Proof.
  intros HL Hh. unfold same_shape.
  now rewrite (nrows_rect h w L), (ncols_rect h w L).
Qed.

(** C4, as amended. The pipeline does not check its parameters.  A
    percentile outside [0, 100] is rejected, by the percentile routine, once
    the smoothed gradient is computed, and the call has no output.  The
    other parameters are never a cause of rejection: the only other errors
    are a smoothed grid with fewer than two rows or columns, and a smoothed
    grid that has not the shape of the grid; a ring width of 0 or less
    acts as 0 and a minimum area of 1 or less acts as 1. *)
Theorem parameters_not_validated (SCIPY_AVAILABLE : bool)
    (gaussian_smooth : grid Q -> Q -> grid Q) (np_sqrt : Q -> Q)
    (np_mean : list Q -> Q)
    (T : grid Q) (sigma pctl : Q) (region_min_area ring_width : Z) :
  let run := hotspot_detection SCIPY_AVAILABLE gaussian_smooth np_sqrt np_mean
               T sigma pctl in
  let T_s := gaussian_smooth T sigma in
  (((pctl < 0)%Q \/ (100 < pctl)%Q) ->
   exists e, run region_min_area ring_width = Error e) /\
  (forall e, run region_min_area ring_width = Error e ->
     (e = ValueError_gradient /\ ((nrows T_s < 2)%nat \/ (ncols T_s < 2)%nat)) \/
     (e = ValueError_percentile /\ ((pctl < 0)%Q \/ (100 < pctl)%Q)) \/
     (e = IndexError /\ same_shape T T_s = false)) /\
  (ring_width <= 0 -> run region_min_area ring_width = run region_min_area 0) /\
  (region_min_area <= 1 -> run region_min_area ring_width = run 1 ring_width).
Proof.
  intros run T_s. unfold run, hotspot_detection, smoothed_gradient.
  fold T_s. unfold np_gradient.
  destruct ((nrows T_s <? 2)%nat || (ncols T_s <? 2)%nat) eqn:Eshape.
  - simpl. split; [intros _; eauto|]. split; [|split; reflexivity].
    intros e He. inversion He. left. split; auto.
    apply orb_true_iff in Eshape as [E|E]; apply Nat.ltb_lt in E; auto.
  - apply orb_false_iff in Eshape as [E1 E2]. apply Nat.ltb_ge in E1, E2.
    cbn [bind fst snd].
    set (G := gmap2 _ _ _).
    assert (HG : rect (nrows T_s) (ncols T_s) G)
      by (unfold G; auto using rect_gmap2, rect_tabulate).
    unfold threshold.
    destruct (np_percentile (ravel G) pctl) as [t|e0] eqn:Ep; cbn [bind fst snd].
    + set (M0 := gmap (fun g => Qle_bool t g) G).
      assert (HM0 : rect (nrows T_s) (ncols T_s) M0)
        by now apply rect_gmap.
      split; [|split; [|split]].
      * intros Hout. rewrite (np_percentile_error _ _ Hout) in Ep. discriminate.
      * intros e He.
        destruct (analyze _ _ _ _ _ _) as [regions|e'] eqn:Ea;
          cbn [bind] in He; [discriminate|].
        inversion He; subst e'. right. right.
        destruct (analyze_error _ _ _ _ _ _ _ Ea) as [-> Hs]. split; auto.
        pose proof (rect_clean_mask SCIPY_AVAILABLE _ _ M0 region_min_area HM0)
          as Hc.
        pose proof (label_components_spec _ _ _ Hc SCIPY_AVAILABLE) as HL.
        rewrite (same_shape_rect (nrows T_s) (ncols T_s)) in Hs
          by (try apply HL; lia).
        exact Hs.
      * intros Hr. now rewrite (analyze_ring_le_0 _ _ _ _ _ ring_width).
      * intros Ha. unfold clean_mask.
        rewrite (remove_small_le_1 (nrows T_s) (ncols T_s)); auto.
        apply label_components_spec. now apply rect_binary_morphology.
    + split; [intros _; eauto|]. split; [|split; reflexivity].
      intros e He. inversion He; subst e0. right. left.
      unfold np_percentile in Ep.
      destruct (Qlt_bool pctl 0) eqn:Q1; cbn [orb] in Ep.
      * inversion Ep. split; auto. left. now apply Qlt_bool_true.
      * destruct (Qlt_bool 100 pctl) eqn:Q2; [|discriminate].
        inversion Ep. split; auto. right. now apply Qlt_bool_true.
Qed.

(** C4 as stated fails: with sigma = 0, a minimum area of -1 and a ring
    width of -1 the pipeline runs to its end and reports two regions. *)
Lemma invalid_parameters_accepted :
  exists out,
    hotspot_detection true smooth_none sqrt_exact mean_exact ex_T 0 92 (-1) (-1) = OK out
    /\ length (regions_sorted out) = 2%nat.
Proof.
  eexists. split; [vm_compute; reflexivity|reflexivity].
Qed.

(** * Further properties of the code *)

(** ** [label_components] *)

(** X1: the mask is read back from the label map: [labeled > 0] is the mask
    that was labelled. *)
Theorem label_components_positive (SCIPY_AVAILABLE : bool)
    (mask : grid bool) (h w : nat) :
  rect h w mask ->
  gmap (fun v => 0 <? v) (fst (label_components SCIPY_AVAILABLE mask)) = mask.
Proof.
  intros Hm.
  pose proof (label_components_spec mask h w Hm SCIPY_AVAILABLE) as HL.
  apply (grid_ext h w _ _ false); auto.
  - apply rect_gmap, HL.
  - intros p Hp. rewrite (get_gmap h w _ _ 0) by (auto; apply HL).
    destruct (get false mask p) eqn:E.
    + pose proof (ls_fg _ _ _ _ _ HL p (conj Hp E)). apply Z.ltb_lt. lia.
    + rewrite (ls_bg _ _ _ _ _ HL p Hp E). reflexivity.
Qed.

Lemma label_components_positive_witness :
  gmap (fun v => 0 <? v) (fst (label_components false ex_mask)) = ex_mask.
Proof.
  apply (label_components_positive false ex_mask 3 4).
  apply rectb_true. reflexivity.
Defined.

Lemma label_components_terminates_witness :
  label_fuel (nrows ex_mask * ncols ex_mask) ex_mask = Some (label_bfs ex_mask).
Proof.
  apply (label_components_terminates ex_mask 3 4).
  apply rectb_true. reflexivity.
Defined.

(** ** [remove_small_components] *)

(** X3: the contract of the filter: the result has the shape of the label map,
    and a pixel is kept exactly when its label is positive and marks at
    least [min_area] pixels. *)
Theorem remove_small_components_keeps (labeled : grid Z) (min_area : Z)
    (h w : nat) :
  rect h w labeled ->
  rect h w (remove_small_components labeled min_area) /\
  forall p, in_range h w p ->
    (get false (remove_small_components labeled min_area) p = true <->
     0 < get 0 labeled p /\
     min_area <= Z.of_nat (area_of h w labeled (get 0 labeled p))).
Proof.
  intros HL. split; [now apply rect_remove_small|].
  intros p Hp. rewrite (get_remove_small h w) by auto.
  rewrite andb_true_iff, Z.ltb_lt, Z.leb_le. tauto.
Qed.

Lemma remove_small_components_keeps_witness :
  rect 3 4 (remove_small_components [[1; 1; 0; 0]; [0; 1; 0; 2]; [3; 0; 0; 2]] 2)
  /\
  forall p, in_range 3 4 p ->
    (get false
       (remove_small_components [[1; 1; 0; 0]; [0; 1; 0; 2]; [3; 0; 0; 2]] 2) p
     = true <->
     0 < get 0 [[1; 1; 0; 0]; [0; 1; 0; 2]; [3; 0; 0; 2]] p /\
     2 <= Z.of_nat (area_of 3 4 [[1; 1; 0; 0]; [0; 1; 0; 2]; [3; 0; 0; 2]]
                      (get 0 [[1; 1; 0; 0]; [0; 1; 0; 2]; [3; 0; 0; 2]] p))).
Proof.
  apply (remove_small_components_keeps
           [[1; 1; 0; 0]; [0; 1; 0; 2]; [3; 0; 0; 2]] 2 3 4).
  apply rectb_true. reflexivity.
Defined.

(** X4: with a minimum area of 1 or less nothing is removed: the result is
    [labeled > 0]. *)
Theorem remove_small_components_keeps_all (labeled : grid Z) (min_area : Z)
    (h w : nat) :
  rect h w labeled -> min_area <= 1 ->
  remove_small_components labeled min_area = gmap (fun v => 0 <? v) labeled.
Proof.
  intros HL Ha. apply (grid_ext h w _ _ false).
  - now apply rect_remove_small.
  - now apply rect_gmap.
  - intros p Hp. rewrite (get_remove_small h w) by auto.
    rewrite (get_gmap h w _ _ 0) by auto.
    pose proof (area_of_own_label h w labeled p Hp).
    replace (min_area <=? Z.of_nat (area_of h w labeled (get 0 labeled p)))
      with true by (symmetry; apply Z.leb_le; lia).
    apply andb_true_r.
Qed.

Lemma remove_small_components_keeps_all_witness :
  remove_small_components [[1; 1; 0; 0]; [0; 1; 0; 2]; [3; 0; 0; 2]] (-4)
  = gmap (fun v => 0 <? v) [[1; 1; 0; 0]; [0; 1; 0; 2]; [3; 0; 0; 2]].
Proof.
  apply (remove_small_components_keeps_all _ (-4) 3 4).
  - apply rectb_true. reflexivity.
  - lia.
Defined.

(** X5: a larger minimum area keeps fewer pixels. *)
Theorem remove_small_components_antitone (labeled : grid Z) (a b : Z)
    (h w : nat) (p : pixel) :
  rect h w labeled -> in_range h w p -> a <= b ->
  get false (remove_small_components labeled b) p = true ->
  get false (remove_small_components labeled a) p = true.
Proof.
  intros HL Hp Hab. rewrite !(get_remove_small h w) by auto.
  rewrite !andb_true_iff, !Z.leb_le. intros [H1 H2]. split; auto. lia.
Qed.

Lemma remove_small_components_antitone_witness :
  get false
    (remove_small_components [[1; 1; 0; 0]; [0; 1; 0; 2]; [3; 0; 0; 2]] 2)
    (0, 0) = true.
Proof.
  apply (remove_small_components_antitone _ 2 3 3 4 (0, 0)).
  - apply rectb_true. reflexivity.
  - unfold in_range. simpl. lia.
  - lia.
  - reflexivity.
Defined.

(** X6: a minimum area above the number of pixels of the array removes
    everything. *)
Theorem remove_small_components_too_large (labeled : grid Z) (min_area : Z)
    (h w : nat) :
  rect h w labeled -> Z.of_nat (h * w) < min_area ->
  np_any (remove_small_components labeled min_area) = false.
Proof.
  intros HL Ha.
  apply (np_any_false h w); [now apply rect_remove_small|].
  intros p Hp. rewrite (get_remove_small h w) by auto.
  apply andb_false_intro2. apply Z.leb_gt.
  assert (H : (area_of h w labeled (get 0%Z labeled p) <= h * w)%nat).
  { unfold area_of. rewrite <- (length_positions h w).
    apply List.filter_length_le. }
  lia.
Qed.

Lemma remove_small_components_too_large_witness :
  np_any (remove_small_components [[1; 1; 0; 0]; [0; 1; 0; 2]; [3; 0; 0; 2]] 13)
  = false.
Proof.
  apply (remove_small_components_too_large _ 13 3 4).
  - apply rectb_true. reflexivity.
  - simpl. lia.
Defined.

(** ** The threshold of lines 306-307 *)

Lemma rank_bounds q N :
  (0 <= q)%Q -> (q <= 100)%Q -> (0 <= N)%Z ->
  (0 <= q / 100 * inject_Z N)%Q /\ (q / 100 * inject_Z N <= inject_Z N)%Q.
Proof.
  intros H0 H1 HN.
  assert (HNq : (0 <= inject_Z N)%Q).
  { change 0%Q with (inject_Z 0). now rewrite <- Zle_Qle. }
  assert (Hx0 : (0 <= q / 100)%Q) by (apply Qle_shift_div_l; lra).
  assert (Hx1 : (q / 100 <= 1)%Q) by (apply Qle_shift_div_r; lra).
  split; nra.
Qed.

Lemma floor_bounds x N :
  (0 <= x)%Q -> (x <= inject_Z N)%Q ->
  (0 <= Qfloor x <= N)%Z /\ (0 <= x - inject_Z (Qfloor x))%Q /\
  (x - inject_Z (Qfloor x) < 1)%Q.
Proof.
  intros H0 H1. split; [split|split].
  - change 0%Z with (Qfloor 0). now apply Qfloor_resp_le.
  - rewrite <- (Qfloor_Z N). now apply Qfloor_resp_le.
  - pose proof (Qfloor_le x). lra.
  - pose proof (Qlt_floor x) as H. rewrite inject_Z_plus in H.
    change (inject_Z 1) with 1%Q in H. lra.
Qed.

Lemma convex_lower a b f m :
  (0 <= f)%Q -> (f <= 1)%Q -> (m <= a)%Q -> (m <= b)%Q ->
  (m <= a + f * (b - a))%Q.
Proof. intros. nra. Qed.

Lemma convex_upper a b f M :
  (0 <= f)%Q -> (f <= 1)%Q -> (a <= M)%Q -> (b <= M)%Q ->
  (a + f * (b - a) <= M)%Q.
Proof. intros. nra. Qed.

(** What [np_percentile] returns: a value between two neighbours of the
    sorted list. *)
Lemma np_percentile_shape values q t :
  values <> [] -> np_percentile values q = OK t ->
  let s := sort_by Qlt_bool values in
  let pos := (q / 100 * inject_Z (Z.of_nat (length s) - 1))%Q in
  exists (k hi : nat) (f : Q),
    (k <= hi < length s)%nat /\
    Z.of_nat k = Qfloor pos /\
    hi = Nat.min (k + 1) (length s - 1) /\
    (f == pos - inject_Z (Qfloor pos))%Q /\
    (0 <= f)%Q /\ (f < 1)%Q /\
    t = (nth k s 0 + f * (nth hi s 0 - nth k s 0))%Q.
Proof.
  intros Hne Hp s pos.
  destruct (np_percentile_inv _ _ _ Hp) as [H0 H100].
  assert (Hlen : (0 < length s)%nat).
  { unfold s. rewrite length_sort_by. destruct values; [congruence|simpl; lia]. }
  destruct (rank_bounds q (Z.of_nat (length s) - 1) H0 H100 ltac:(lia))
    as [Hp0 Hp1]. fold pos in Hp0, Hp1.
  destruct (floor_bounds pos _ Hp0 Hp1) as ([Hk0 Hk1] & Hf0 & Hf1).
  exists (Z.to_nat (Qfloor pos)),
    (Z.to_nat (Z.min (Qfloor pos + 1) (Z.of_nat (length s) - 1))),
    (pos - inject_Z (Qfloor pos))%Q.
  split; [lia|]. split; [lia|]. split; [lia|].
  split; [reflexivity|]. split; auto. split; auto.
  unfold np_percentile in Hp.
  destruct (Qlt_bool q 0 || Qlt_bool 100 q); [discriminate|].
  inversion Hp. reflexivity.
Qed.

Lemma np_percentile_ge_min values q t m :
  values <> [] -> np_percentile values q = OK t ->
  (forall x, In x values -> (m <= x)%Q) -> (m <= t)%Q.
Proof.
  intros Hne Hp Hall.
  destruct (np_percentile_shape values q t Hne Hp)
    as (k & hi & f & Hk & _ & _ & _ & Hf0 & Hf1 & ->).
  apply convex_lower; auto using Qlt_le_weak;
    apply Hall, (In_sort_by Qlt_bool), nth_In; lia.
Qed.

Lemma np_percentile_le_max values q t M :
  values <> [] -> np_percentile values q = OK t ->
  (forall x, In x values -> (x <= M)%Q) -> (t <= M)%Q.
Proof.
  intros Hne Hp Hall.
  destruct (np_percentile_shape values q t Hne Hp)
    as (k & hi & f & Hk & _ & _ & _ & Hf0 & Hf1 & ->).
  apply convex_upper; auto using Qlt_le_weak;
    apply Hall, (In_sort_by Qlt_bool), nth_In; lia.
Qed.


Lemma np_percentile_le_some values q t :
  values <> [] -> np_percentile values q = OK t ->
  exists x, In x values /\ (t <= x)%Q.
Proof.
  intros Hne Hp.
  destruct (np_percentile_shape values q t Hne Hp)
    as (k & hi & f & Hk & _ & _ & _ & Hf0 & Hf1 & ->).
  exists (nth hi (sort_by Qlt_bool values) 0%Q). split.
  - apply (In_sort_by Qlt_bool), nth_In. lia.
  - apply convex_upper; auto using Qlt_le_weak, Qle_refl.
    apply strongly_sorted_nth; [apply sort_by_Qle|lia].
Qed.

(** X7: on a field of magnitudes that are numbers or NaN, when the
    percentile is accepted.  As soon as one magnitude is NaN the threshold
    is NaN and no pixel is a candidate.  When none is, the threshold is at
    most the largest magnitude: every pixel of largest magnitude is a
    candidate, and the candidate mask is not empty. *)
Theorem threshold_selects_maximum (G : grid (option Q)) (pctl : Q)
    (h w : nat) (tau : option Q) (M0 : grid bool) :
  rect h w G -> (0 < h)%nat -> (0 < w)%nat ->
  threshold_nan G pctl = OK (tau, M0) ->
  ((exists p, in_range h w p /\ get None G p = None) ->
   tau = None /\ forall p, in_range h w p -> get false M0 p = false) /\
  ((forall p, in_range h w p -> get None G p <> None) ->
   (forall p, in_range h w p ->
      (forall p', in_range h w p' ->
         (number (get None G p') <= number (get None G p))%Q) ->
      get false M0 p = true) /\
   (exists p, in_range h w p /\ get false M0 p = true)).
Proof.
  intros HG Hh Hw Ht. unfold threshold_nan, np_percentile_nan in Ht.
  destruct (Qlt_bool pctl 0 || Qlt_bool 100 pctl); [discriminate|].
  destruct (existsb isnan (ravel G)) eqn:En.
  - cbn [bind] in Ht. inversion Ht; subst tau M0; clear Ht. split.
    + intros _. split; [reflexivity|]. intros p Hp.
      rewrite (get_gmap h w _ G None) by auto. unfold ge_nan.
      now destruct (get None G p).
    + intros Hnum. exfalso.
      apply existsb_exists in En as (v & Hv & Hnan).
      destruct (In_ravel_inv h w G None v HG Hv) as (p & Hp & E).
      apply (Hnum p Hp). rewrite E. now destruct v.
  - destruct (np_percentile (map number (ravel G)) pctl) as [t|e] eqn:Ep;
      cbn [bind] in Ht; [|discriminate].
    inversion Ht; subst tau M0; clear Ht.
    assert (Hne : map number (ravel G) <> []).
    { intros E. apply map_eq_nil in E.
      assert (Hin : In (get None G (0, 0)) (ravel G)).
      { apply (In_ravel h w); auto. unfold in_range. simpl. lia. }
      rewrite E in Hin. destruct Hin. }
    assert (Hsome : forall p, in_range h w p ->
              get None G p = Some (number (get None G p))).
    { intros p Hp. destruct (get None G p) eqn:E; [reflexivity|].
      exfalso. apply not_true_iff_false in En. apply En.
      apply existsb_exists. exists None. split; [|reflexivity].
      rewrite <- E. now apply (In_ravel h w). }
    split.
    + intros (p & Hp & E). rewrite (Hsome p Hp) in E. discriminate.
    + intros _. split.
      * intros p Hp Hmax. rewrite (get_gmap h w _ G None) by auto.
        rewrite (Hsome p Hp). cbn [ge_nan]. apply Qle_bool_iff.
        apply (np_percentile_le_max (map number (ravel G)) pctl); auto.
        intros x Hx. apply in_map_iff in Hx as (v & <- & Hv).
        destruct (In_ravel_inv h w G None v HG Hv) as (p' & Hp' & <-).
        now apply Hmax.
      * destruct (np_percentile_le_some _ _ _ Hne Ep) as (x & Hx & Hle).
        apply in_map_iff in Hx as (v & <- & Hv).
        destruct (In_ravel_inv h w G None v HG Hv) as (p & Hp & <-).
        exists p. split; auto. rewrite (get_gmap h w _ G None) by auto.
        rewrite (Hsome p Hp). cbn [ge_nan]. now apply Qle_bool_iff.
Qed.

Lemma threshold_selects_maximum_witness :
  let G := [[Some 1; Some 5]; [Some 3; None]]%Q in
  threshold_nan G 50 = OK (None, [[false; false]; [false; false]]) /\
  forall p, in_range 2 2 p ->
            get false [[false; false]; [false; false]] p = false.
Proof.
  intros G. split; [reflexivity|].
  apply (threshold_selects_maximum G 50 2 2 None
           [[false; false]; [false; false]]).
  - apply rectb_true. reflexivity.
  - lia.
  - lia.
  - reflexivity.
  - exists (1, 1). split; [unfold in_range; simpl; lia|reflexivity].
Defined.



(** X9: on a field whose magnitudes are all equal (a uniform grid has gradient
    zero everywhere) every pixel is a candidate, whatever the percentile. *)
Theorem threshold_uniform (G : grid Q) (pctl : Q) (h w : nat) (v : Q)
    (t : Q) (M0 : grid bool) :
  rect h w G ->
  (forall p, in_range h w p -> (get 0 G p == v)%Q) ->
  threshold G pctl = OK (t, M0) ->
  forall p, in_range h w p -> get false M0 p = true.
Proof.
  intros HG Hall Ht p Hp. unfold threshold in Ht.
  destruct (np_percentile (ravel G) pctl) as [t'|e] eqn:Ep;
    cbn [bind] in Ht; [|discriminate].
  inversion Ht; subst t' M0; clear Ht.
  assert (Hne : ravel G <> []).
  { intros E. pose proof (In_ravel h w G 0%Q p HG Hp) as Hin.
    rewrite E in Hin. destruct Hin. }
  rewrite (get_gmap h w _ G 0%Q) by auto.
  apply Qle_bool_iff. rewrite (Hall p Hp).
  apply (np_percentile_le_max (ravel G) pctl); auto.
  intros x Hx. destruct (In_ravel_inv h w G 0%Q x HG Hx) as (p' & Hp' & <-).
  rewrite (Hall p' Hp'). apply Qle_refl.
Qed.

Lemma threshold_uniform_witness :
  get false [[true; true]; [true; true]] (0, 1) = true.
Proof.
  apply (threshold_uniform [[0; 0]; [0; 0]]%Q 97 2 2 0%Q
           (0 # 100)%Q [[true; true]; [true; true]]).
  - apply rectb_true. reflexivity.
  - intros [r c] [Hr Hc]. simpl in Hr, Hc.
    assert (Er : r = 0%Z \/ r = 1%Z) by lia.
    assert (Ec : c = 0%Z \/ c = 1%Z) by lia.
    destruct Er as [-> | ->], Ec as [-> | ->]; reflexivity.
  - vm_compute. reflexivity.
  - unfold in_range. simpl. lia.
Defined.

(** ** The region loop of [hotspot_detection] *)

Lemma analyze_loop_error scipy np_mean T L ring labs e :
  fold_left
    (fun acc lab =>
       regions <- acc ;;
       r <- analyze_region scipy np_mean T L ring lab ;;
       OK (regions ++ r))
    labs (Error e) = Error e.
Proof. induction labs as [|lab labs IH]; simpl; auto. Qed.

Lemma analyze_loop_ids scipy np_mean T L ring labs : forall acc regions,
  (forall lab, In lab labs ->
               np_argwhere (gmap (fun v => v =? lab) L) <> []) ->
  fold_left
    (fun acc lab =>
       regions <- acc ;;
       r <- analyze_region scipy np_mean T L ring lab ;;
       OK (regions ++ r))
    labs (OK acc) = OK regions ->
  map ID regions = map ID acc ++ labs.
Proof.
  induction labs as [|lab labs IH]; intros acc regions Hne Hf; simpl in Hf.
  - inversion Hf. now rewrite app_nil_r.
  - assert (Hlab : np_argwhere (gmap (fun v => v =? lab) L) <> [])
      by (apply Hne; now left).
    destruct (analyze_region scipy np_mean T L ring lab) as [r|e] eqn:Er;
      simpl in Hf.
    + rewrite (IH _ _ (fun l Hl => Hne l (or_intror Hl)) Hf).
      unfold analyze_region in Er.
      destruct (np_argwhere (gmap (fun v => v =? lab) L)) as [|c cs];
        [congruence|].
      simpl length in Er. simpl Nat.eqb in Er. cbv iota in Er.
      destruct (negb (same_shape T L)); [discriminate|].
      inversion Er; subst r. rewrite map_app, <- app_assoc. reflexivity.
    + rewrite analyze_loop_error in Hf. discriminate.
Qed.

Lemma NoDup_label_range n : NoDup (map Z.of_nat (seq 1 n)).
Proof.
  apply Injective_map_NoDup; [intros x y; apply Nat2Z.inj|apply seq_NoDup].
Qed.

Lemma NoDup_map_same {A B} (f : A -> B) l x y :
  NoDup (map f l) -> In x l -> In y l -> f x = f y -> x = y.
Proof.
  induction l as [|a l IH]; intros Hnd Hx Hy E; [destruct Hx|].
  simpl in Hnd. inversion Hnd as [|? ? Hnotin Hnd']; subst.
  destruct Hx as [->|Hx], Hy as [->|Hy]; auto.
  - exfalso. apply Hnotin. rewrite E. now apply in_map.
  - exfalso. apply Hnotin. rewrite <- E. now apply in_map.
Qed.

Section RegionLoop.

Variable SCIPY_AVAILABLE : bool.
Variable gaussian_smooth : grid Q -> Q -> grid Q.
Variable np_sqrt : Q -> Q.
Variable np_mean : list Q -> Q.

Lemma output_ids T sigma pctl a ring out :
  hotspot_detection SCIPY_AVAILABLE gaussian_smooth np_sqrt np_mean
    T sigma pctl a ring = OK out ->
  Permutation (map ID (regions_sorted out))
    (map Z.of_nat
       (seq 1 (Z.to_nat (snd (label_components SCIPY_AVAILABLE (M_clean out)))))).
Proof.
  intros Hd.
  destruct (hotspot_detection_inv _ _ _ _ _ _ _ _ _ _ Hd)
    as (G & M0 & regions & h & w & _ & _ & _ & _ & _ & _ & _ & HL & _ & Ha & Hs).
  rewrite Hs. unfold sorted_regions.
  rewrite <- (Permutation_sort_by _ regions).
  unfold analyze in Ha.
  apply analyze_loop_ids in Ha.
  - rewrite Ha. reflexivity.
  - intros lab Hlab. apply in_map_iff in Hlab as (k & <- & Hk).
    apply in_seq in Hk.
    destruct (ls_used _ _ _ _ _ HL (Z.of_nat k) ltac:(lia)) as (p & [Hp _] & E).
    intros Ec.
    assert (Hin : In p (np_argwhere
                          (gmap (fun v => v =? Z.of_nat k) (labeled_clean out)))).
    { apply (In_region_coords h w); [apply HL|]. split; auto.
      apply (in_range_shape h w); auto. apply HL. }
    rewrite Ec in Hin. destruct Hin.
Qed.

End RegionLoop.

(** X10: the output holds one region for every label of the filtered mask:
    the identifiers are the labels 1..n of [labeled_clean], each once. *)
Theorem one_region_per_label (SCIPY_AVAILABLE : bool)
    (gaussian_smooth : grid Q -> Q -> grid Q) (np_sqrt : Q -> Q)
    (np_mean : list Q -> Q)
    (T : grid Q) (sigma pctl : Q) (region_min_area ring_width : Z)
    (out : detection) :
  hotspot_detection SCIPY_AVAILABLE gaussian_smooth np_sqrt np_mean
    T sigma pctl region_min_area ring_width = OK out ->
  let n := Z.to_nat (snd (label_components SCIPY_AVAILABLE (M_clean out))) in
  Permutation (map ID (regions_sorted out)) (map Z.of_nat (seq 1 n)) /\
  NoDup (map ID (regions_sorted out)) /\
  length (regions_sorted out) = n.
Proof.
  intros Hd n. pose proof (output_ids _ _ _ _ _ _ _ _ _ _ Hd) as Hperm.
  fold n in Hperm. split; auto. split.
  - apply (Permutation_NoDup (Permutation_sym Hperm)), NoDup_label_range.
  - apply Permutation_length in Hperm.
    now rewrite !length_map, length_seq in Hperm.
Qed.

Lemma one_region_per_label_witness :
  exists out,
    hotspot_detection true smooth_none sqrt_exact mean_exact ex_T 1 92 1 1 = OK out /\
    Permutation (map ID (regions_sorted out)) [1; 2] /\
    NoDup (map ID (regions_sorted out)) /\
    length (regions_sorted out) = 2%nat.
Proof.
  eexists. split; [vm_compute; reflexivity|].
  apply (one_region_per_label true smooth_none sqrt_exact mean_exact ex_T 1 92 1 1).
  vm_compute. reflexivity.
Defined.

(** X11: the regions cover the filtered mask and nothing else: a pixel of
    [M_clean] lies in exactly one region of the output, and every pixel of a
    region is a pixel of [M_clean]. *)
Theorem regions_cover_mask (SCIPY_AVAILABLE : bool)
    (gaussian_smooth : grid Q -> Q -> grid Q) (np_sqrt : Q -> Q)
    (np_mean : list Q -> Q)
    (T : grid Q) (sigma pctl : Q) (region_min_area ring_width : Z)
    (out : detection) (p : pixel) :
  hotspot_detection SCIPY_AVAILABLE gaussian_smooth np_sqrt np_mean
    T sigma pctl region_min_area ring_width = OK out ->
  in_range (nrows (M_clean out)) (ncols (M_clean out)) p ->
  (get false (M_clean out) p = true ->
   exists r, In r (regions_sorted out) /\
             region_pixels (labeled_clean out) (ID r) p /\
             forall r', In r' (regions_sorted out) ->
                        region_pixels (labeled_clean out) (ID r') p ->
                        r' = r) /\
  (forall r, In r (regions_sorted out) ->
             region_pixels (labeled_clean out) (ID r) p ->
             get false (M_clean out) p = true).
Proof.
  intros Hd Hp.
  pose proof (output_ids _ _ _ _ _ _ _ _ _ _ Hd) as Hperm.
  assert (Hnd : NoDup (map ID (regions_sorted out)))
    by apply (Permutation_NoDup (Permutation_sym Hperm)), NoDup_label_range.
  destruct (hotspot_detection_inv _ _ _ _ _ _ _ _ _ _ Hd)
    as (G & M0 & regions & h & w & _ & _ & HM0 & _ & _ & _ & HMc & HL & _).
  assert (HM : rect h w (M_clean out))
    by (rewrite HMc; now apply rect_clean_mask).
  pose proof (ls_rect _ _ _ _ _ HL) as HLr.
  apply (in_range_shape h w) in Hp; auto.
  split.
  - intros Hm.
    pose proof (ls_fg _ _ _ _ _ HL p (conj Hp Hm)) as Hlab.
    assert (Hin : In (get 0 (labeled_clean out) p) (map ID (regions_sorted out))).
    { apply (Permutation_in _ (Permutation_sym Hperm)).
      apply in_map_iff. exists (Z.to_nat (get 0 (labeled_clean out) p)).
      split; [lia|]. apply in_seq. lia. }
    apply in_map_iff in Hin as (r & Er & Hr).
    exists r. split; auto. split.
    + split; auto. now apply (in_range_shape h w).
    + intros r' Hr' [_ E']. apply (NoDup_map_same ID (regions_sorted out)); auto.
      congruence.
  - intros r Hr [_ E].
    assert (Hid : In (ID r) (map ID (regions_sorted out))) by now apply in_map.
    apply (Permutation_in _ Hperm) in Hid.
    apply in_map_iff in Hid as (k & Ek & Hk). apply in_seq in Hk.
    destruct (get false (M_clean out) p) eqn:Em; auto.
    rewrite (ls_bg _ _ _ _ _ HL p Hp Em) in E. lia.
Qed.

Lemma regions_cover_mask_witness :
  exists out,
    hotspot_detection true smooth_none sqrt_exact mean_exact ex_T 1 92 1 1 = OK out /\
    forall r, In r (regions_sorted out) ->
              region_pixels (labeled_clean out) (ID r) (3, 3) ->
              get false (M_clean out) (3, 3) = true.
Proof.
  eexists. split; [vm_compute; reflexivity|].
  apply (regions_cover_mask true smooth_none sqrt_exact mean_exact ex_T 1 92 1 1).
  - vm_compute. reflexivity.
  - unfold in_range. simpl. lia.
Defined.

(** X12: the arrays of the output have the shape of the smoothed grid, which has
    at least two rows and two columns. *)
Theorem output_shapes (SCIPY_AVAILABLE : bool)
    (gaussian_smooth : grid Q -> Q -> grid Q) (np_sqrt : Q -> Q)
    (np_mean : list Q -> Q)
    (T : grid Q) (sigma pctl : Q) (region_min_area ring_width : Z)
    (out : detection) :
  hotspot_detection SCIPY_AVAILABLE gaussian_smooth np_sqrt np_mean
    T sigma pctl region_min_area ring_width = OK out ->
  let h := nrows (gaussian_smooth T sigma) in
  let w := ncols (gaussian_smooth T sigma) in
  (2 <= h)%nat /\ (2 <= w)%nat /\
  rect h w (G_s out) /\ rect h w (M_clean out) /\ rect h w (labeled_clean out)
  /\ (regions_sorted out <> [] -> nrows T = h /\ ncols T = w).
Proof.
  intros Hd h w.
  pose proof Hd as Hd'. unfold hotspot_detection in Hd'.
  destruct (smoothed_gradient gaussian_smooth np_sqrt T sigma) as [G|e] eqn:EG;
    cbn [bind] in Hd'; [|discriminate].
  destruct (threshold G pctl) as [[t M0]|e] eqn:Et; cbn [bind fst snd] in Hd';
    [|discriminate].
  destruct (analyze _ _ _ _ _ _) as [regions|e] eqn:Ea; cbn [bind] in Hd';
    [|discriminate].
  inversion Hd'; subst out; clear Hd'. cbn [G_s M_clean labeled_clean regions_sorted].
  destruct (smoothed_gradient_inv _ _ _ _ _ EG) as (H1 & H2 & H3).
  fold h w in H1, H2, H3.
  pose proof (threshold_inv _ _ _ _ _ _ H3 Et) as HM0.
  pose proof (rect_clean_mask SCIPY_AVAILABLE _ _ _ region_min_area HM0) as Hc.
  pose proof (label_components_spec _ _ _ Hc SCIPY_AVAILABLE) as HL.
  split; auto. split; auto. split; auto. split; auto.
  split; [apply HL|].
  intros Hne.
  destruct (sorted_regions regions) as [|r rs] eqn:Es; [congruence|].
  assert (Hr : In r regions).
  { apply (In_sort_by (fun a b => key_lt (sort_key a) (sort_key b))).
    unfold sorted_regions in Es. rewrite Es. now left. }
  destruct (analyze_inv _ _ _ _ _ _ _ _ Ea Hr) as (lab & _ & Er).
  destruct (analyze_region_inv _ _ _ _ _ _ _ Er) as (_ & Hs & _).
  rewrite (same_shape_rect h w) in Hs by (try apply HL; lia).
  apply andb_true_iff in Hs as [E1 E2].
  apply Nat.eqb_eq in E1, E2. auto.
Qed.

Lemma output_shapes_witness :
  exists out,
    hotspot_detection true smooth_none sqrt_exact mean_exact ex_T 1 92 1 1 = OK out /\
    rect 7 14 (M_clean out) /\ rect 7 14 (labeled_clean out).
Proof.
  eexists. split; [vm_compute; reflexivity|].
  destruct (output_shapes true smooth_none sqrt_exact mean_exact ex_T 1 92 1 1 _
              ltac:(vm_compute; reflexivity))
    as (_ & _ & _ & H1 & H2 & _).
  split; [exact H1|exact H2].
Defined.

(** ** The local background without a ring *)

Lemma filter_none {A} (f : A -> bool) l :
  (forall x, In x l -> f x = false) -> filter f l = [].
Proof.
  induction l as [|x l IH]; intros H; simpl; auto.
  rewrite (H x (or_introl eq_refl)). apply IH. intros y Hy. apply H. now right.
Qed.

Lemma local_background_no_ring scipy T m r h w :
  rect h w m -> r <= 0 ->
  local_background scipy T m r =
  match select T (gmap negb m) with
  | [] => np_median (ravel T)
  | outside => np_median outside
  end.
Proof.
  intros Hm Hr. unfold local_background.
  rewrite dilate_mask_le_0 by auto.
  assert (Hn : rect h w (gmap negb m)) by now apply rect_gmap.
  assert (E : select T (gmap2 andb m (gmap negb m)) = []).
  { unfold select, np_argwhere. rewrite filter_none; auto.
    intros p Hp. apply In_positions in Hp.
    apply (in_range_shape h w) in Hp; [|now apply rect_gmap2].
    rewrite (get_gmap2 h w andb _ _ false false) by auto.
    rewrite (get_gmap h w _ m false) by auto. apply andb_negb_r. }
  rewrite E. simpl.
  destruct (select T (gmap negb m)); reflexivity.
Qed.

(** X13: with a ring width of 0 or less there is no ring: in both branches the
    background of a region is the median of the grid over the pixels outside
    the region, and the median of the whole grid when the region covers it. *)
Theorem region_background_without_ring (SCIPY_AVAILABLE : bool)
    (gaussian_smooth : grid Q -> Q -> grid Q) (np_sqrt : Q -> Q)
    (np_mean : list Q -> Q)
    (T : grid Q) (sigma pctl : Q) (region_min_area ring_width : Z)
    (out : detection) (r : Region) :
  ring_width <= 0 ->
  hotspot_detection SCIPY_AVAILABLE gaussian_smooth np_sqrt np_mean
    T sigma pctl region_min_area ring_width = OK out ->
  In r (regions_sorted out) ->
  Tbg_C r =
  match
    select T (gmap negb (gmap (fun v => v =? ID r) (labeled_clean out)))
  with
  | [] => np_median (ravel T)
  | outside => np_median outside
  end.
Proof.
  intros Hring Hd Hr.
  destruct (output_region _ _ _ _ _ _ _ _ _ _ _ Hd Hr)
    as (h & w & lab & HL & _ & _ & Ha).
  destruct (analyze_region_inv _ _ _ _ _ _ _ Ha) as (_ & _ & ->). simpl.
  apply (local_background_no_ring _ _ _ _ h w); auto.
  apply rect_gmap, HL.
Qed.

Lemma region_background_without_ring_witness :
  exists out r,
    hotspot_detection true smooth_none sqrt_exact mean_exact ex_T 1 92 1 (-3) = OK out /\
    In r (regions_sorted out) /\
    Tbg_C r =
    match
      select ex_T (gmap negb (gmap (fun v => v =? ID r) (labeled_clean out)))
    with
    | [] => np_median (ravel ex_T)
    | outside => np_median outside
    end.
Proof.
  eexists. eexists. split; [vm_compute; reflexivity|].
  split; [left; reflexivity|].
  eapply (region_background_without_ring true smooth_none sqrt_exact mean_exact
            ex_T 1 92 1 (-3)).
  - lia.
  - vm_compute. reflexivity.
  - left. reflexivity.
Defined.

(** ** The peak location *)

Lemma argmax_from_first l : forall best besti i,
  (argmax_from best besti i l = besti /\ fold_left Qmaxb l best = best) \/
  ((i <= argmax_from best besti i l)%nat /\
   (best < fold_left Qmaxb l best)%Q /\
   forall j, (j < argmax_from best besti i l - i)%nat ->
             (nth j l 0 < fold_left Qmaxb l best)%Q).
Proof.
  induction l as [|y l IH]; intros best besti i; simpl.
  - left. auto.
  - destruct (Qlt_bool best y) eqn:E.
    + assert (Em : Qmaxb best y = y) by (unfold Qmaxb; now rewrite E).
      rewrite Em. apply Qlt_bool_true in E. right.
      destruct (IH y i (S i)) as [[E1 E2]|(H1 & H2 & H3)].
      * rewrite E1, E2, Nat.sub_diag. split; auto. split; auto.
        intros j Hj. lia.
      * split; [lia|]. split; [now apply Qlt_trans with y|].
        intros [|j] Hj; auto. apply H3. lia.
    + assert (Em : Qmaxb best y = best) by (unfold Qmaxb; now rewrite E).
      rewrite Em. apply Qlt_bool_false in E.
      destruct (IH best besti (S i)) as [[E1 E2]|(H1 & H2 & H3)].
      * left. auto.
      * right. split; [lia|]. split; auto.
        intros [|j] Hj; [now apply Qle_lt_trans with best|].
        apply H3. lia.
Qed.

Lemma np_argmax_first vals j :
  (j < np_argmax vals)%nat -> (nth j vals 0 < np_max vals)%Q.
Proof.
  destruct vals as [|x l]; simpl; [lia|]. intros Hj.
  destruct (argmax_from_first l x 0%nat 1%nat) as [[E1 E2]|(H1 & H2 & H3)].
  - lia.
  - destruct j as [|j]; auto. apply H3. lia.
Qed.

(** X14: the reported peak is the first pixel of the region, in raster order,
    that holds Tmax: the pixels of the region before it are cooler. *)
Theorem peak_is_first_maximum (SCIPY_AVAILABLE : bool)
    (gaussian_smooth : grid Q -> Q -> grid Q) (np_sqrt : Q -> Q)
    (np_mean : list Q -> Q)
    (T : grid Q) (sigma pctl : Q) (region_min_area ring_width : Z)
    (out : detection) (r : Region) :
  hotspot_detection SCIPY_AVAILABLE gaussian_smooth np_sqrt np_mean
    T sigma pctl region_min_area ring_width = OK out ->
  In r (regions_sorted out) ->
  exists before after,
    np_argwhere (gmap (fun v => v =? ID r) (labeled_clean out))
    = before ++ (row r, col r) :: after /\
    forall p, In p before -> (get 0 T p < Tmax_C r)%Q.
Proof.
  intros Hd Hr.
  destruct (output_region _ _ _ _ _ _ _ _ _ _ _ Hd Hr)
    as (h & w & lab & HL & _ & _ & Ha).
  destruct (analyze_region_inv _ _ _ _ _ _ _ Ha) as (Hne & _ & ->).
  cbn [ID row col Tmax_C].
  set (coords := np_argwhere (gmap (fun v => v =? lab) (labeled_clean out))) in *.
  set (vals := map (get 0%Q T) coords).
  assert (Hvne : vals <> []).
  { unfold vals. destruct coords; [congruence|discriminate]. }
  destruct (np_argmax_spec vals Hvne) as [Hlt _].
  assert (Hlt' : (np_argmax vals < length coords)%nat)
    by (unfold vals in Hlt; now rewrite length_map in Hlt).
  destruct (nth_split coords (0, 0) Hlt') as (l1 & l2 & E & Hlen).
  exists l1, l2. rewrite <- surjective_pairing. split; auto.
  intros p Hp. destruct (In_nth _ _ (0, 0) Hp) as (j & Hj & <-).
  assert (Ej : nth j l1 (0, 0) = nth j coords (0, 0)).
  { rewrite E. rewrite app_nth1; auto. }
  assert (Hj' : (j < np_argmax vals)%nat) by (rewrite <- Hlen; exact Hj).
  pose proof (np_argmax_first vals j Hj') as Hfirst.
  assert (Hv : nth j vals 0%Q = get 0%Q T (nth j l1 (0, 0))).
  { rewrite Ej. unfold vals.
    rewrite (nth_indep _ 0%Q (get 0%Q T (0, 0)))
      by (rewrite length_map; lia).
    now rewrite map_nth. }
  rewrite Hv in Hfirst. exact Hfirst.
Qed.

Lemma peak_is_first_maximum_witness :
  exists out r before after,
    hotspot_detection true smooth_none sqrt_exact mean_exact ex_T 1 92 1 1 = OK out /\
    In r (regions_sorted out) /\
    np_argwhere (gmap (fun v => v =? ID r) (labeled_clean out))
    = before ++ (row r, col r) :: after /\
    forall p, In p before -> (get 0 ex_T p < Tmax_C r)%Q.
Proof.
  eexists. eexists.
  edestruct (peak_is_first_maximum true smooth_none sqrt_exact mean_exact ex_T 1 92 1 1)
    as (before & after & H1 & H2).
  - vm_compute. reflexivity.
  - left. reflexivity.
  - exists before, after. split; [vm_compute; reflexivity|].
    split; [left; reflexivity|]. split; [exact H1|exact H2].
Defined.

(** ** The fallback filters: [maximum_filter], [minimum_filter] *)

Lemma last_nth {A} (l : list A) d :
  l <> [] -> last l d = nth (length l - 1) l d.
Proof.
  induction l as [|x l IH]; [congruence|]. intros _.
  destruct l as [|y l]; [reflexivity|].
  change (last (x :: y :: l) d) with (last (y :: l) d).
  rewrite IH by discriminate. simpl. now rewrite Nat.sub_0_r.
Qed.

(** One cell of edge padding on both sides of a list. *)
Lemma nth_pad1 {A} (l : list A) d i :
  l <> [] -> (i < length l + 2)%nat ->
  nth i (repeat (hd d l) 1 ++ l ++ repeat (last l d) 1) d
  = nth (Nat.min (i - 1) (length l - 1)) l d.
Proof.
  intros Hne Hi. simpl repeat. simpl app.
  destruct i as [|i].
  - simpl. destruct l; [congruence|reflexivity].
  - simpl nth at 1. replace (S i - 1)%nat with i by lia.
    destruct (Nat.lt_ge_cases i (length l)) as [Hlt|Hge].
    + rewrite app_nth1 by auto. f_equal. lia.
    + rewrite app_nth2 by auto.
      replace (i - length l)%nat with 0%nat by lia. simpl.
      rewrite last_nth by auto. f_equal. lia.
Qed.

Lemma firstn3_skipn {A} (l : list A) d r :
  (r + 3 <= length l)%nat ->
  firstn 3 (skipn r l) = [nth r l d; nth (r + 1) l d; nth (r + 2) l d].
Proof.
  intros Hr. apply (nth_ext _ _ d d).
  - rewrite length_firstn, length_skipn. cbn [length]. lia.
  - intros i Hi. rewrite length_firstn, length_skipn in Hi.
    rewrite nth_firstn, nth_skipn.
    destruct i as [|[|[|i]]]; simpl; try lia;
      rewrite ?Nat.add_0_r; reflexivity.
Qed.

Section Padding.

Variables h w : nat.
Variable arr : grid Z.
Hypothesis Harr : rect h w arr.
Hypothesis Hh : (0 < h)%nat.
Hypothesis Hw : (0 < w)%nat.

Let pad_row (row : list Z) : list Z :=
  repeat (hd 0 row) 1 ++ row ++ repeat (last row 0) 1.

Lemma rect_np_pad_edge : rect (h + 2) (w + 2) (np_pad_edge 1 arr).
Proof.
  unfold np_pad_edge. fold pad_row.
  assert (Hrow : forall row, In row (map pad_row arr) -> length row = (w + 2)%nat).
  { intros row Hin. apply in_map_iff in Hin as (r0 & <- & Hr0).
    destruct Harr as [_ Hf]. rewrite Forall_forall in Hf.
    unfold pad_row. rewrite !length_app, !repeat_length, (Hf r0 Hr0). lia. }
  assert (Hne : map pad_row arr <> []).
  { destruct Harr as [Hl _]. destruct arr; simpl in *; [lia|discriminate]. }
  split.
  - rewrite !length_app, !repeat_length, length_map.
    destruct Harr as [Hl _]. lia.
  - apply Forall_forall. intros row Hin.
    apply in_app_or in Hin as [Hin|Hin];
      [|apply in_app_or in Hin as [Hin|Hin]].
    + apply repeat_spec in Hin. subst row. apply Hrow.
      destruct (map pad_row arr); [congruence|now left].
    + now apply Hrow.
    + apply repeat_spec in Hin. subst row. apply Hrow.
      rewrite (last_nth _ _ Hne). apply nth_In.
      destruct (map pad_row arr); [congruence|simpl; lia].
Qed.

(** The padded array reads the nearest pixel of the array. *)
Lemma nth_np_pad_edge a b :
  (a < h + 2)%nat -> (b < w + 2)%nat ->
  nth b (nth a (np_pad_edge 1 arr) []) 0
  = nth (Nat.min (b - 1) (w - 1)) (nth (Nat.min (a - 1) (h - 1)) arr []) 0.
Proof.
  intros Ha Hb. unfold np_pad_edge. fold pad_row.
  assert (Hlen : length (map pad_row arr) = h)
    by (rewrite length_map; apply Harr).
  assert (Hne : map pad_row arr <> []).
  { intros E. rewrite E in Hlen. simpl in Hlen. lia. }
  rewrite nth_pad1 by (auto; lia). rewrite Hlen.
  rewrite (nth_indep _ [] (pad_row [])) by lia.
  rewrite map_nth.
  set (row := nth (Nat.min (a - 1) (h - 1)) arr []).
  assert (Hrow : length row = w) by (apply (rect_nth h w); auto; lia).
  unfold pad_row. rewrite nth_pad1.
  - now rewrite Hrow.
  - intros E. rewrite E in Hrow. simpl in Hrow. lia.
  - lia.
Qed.

Lemma ravel_window (p : pixel) :
  in_range h w p ->
  ravel (window (np_pad_edge 1 arr) (fst p) (snd p) 3)
  = map (get 0 arr) (window_pixels h w p).
Proof.
  intros [Hp1 Hp2]. unfold window.
  pose proof rect_np_pad_edge as Hpad.
  set (r := Z.to_nat (fst p)). set (c := Z.to_nat (snd p)).
  rewrite (firstn3_skipn _ []) by (destruct Hpad as [-> _]; lia).
  cbn [map].
  rewrite !(firstn3_skipn _ 0) by (rewrite (rect_nth _ _ _ _ Hpad); lia).
  rewrite !nth_np_pad_edge by lia.
  unfold ravel, window_pixels, get, clamp. cbn [concat app flat_map map fst snd].
  repeat (f_equal; try lia).
Qed.

End Padding.

Lemma In_window_pixels h w p q :
  in_range h w p ->
  (In q (window_pixels h w p) <-> in_range h w q /\ cheb p q <= 1).
Proof.
  intros [H1 H2]. unfold window_pixels, clamp, cheb, in_range.
  cbn [flat_map map app In]. destruct q as [a b]. cbn [fst snd]. split.
  - intros H.
    repeat (destruct H as [H|H]; [injection H as <- <-; lia|]).
    contradiction.
  - intros [[Ha Hb] Hc].
    assert (Ea : a = fst p - 1 \/ a = fst p \/ a = fst p + 1) by lia.
    assert (Eb : b = snd p - 1 \/ b = snd p \/ b = snd p + 1) by lia.
    destruct Ea as [Ea|[Ea|Ea]], Eb as [Eb|[Eb|Eb]]; subst a b;
      repeat first [left; f_equal; lia | right].
Qed.

Lemma fold_left_max_spec t x :
  let v := fold_left Z.max t x in
  (v = x \/ In v t) /\ x <= v /\ forall y, In y t -> y <= v.
Proof.
  revert x. induction t as [|a t IH]; intros x; cbn [fold_left].
  - cbn. split; [now left|]. split; [lia|contradiction].
  - destruct (IH (Z.max x a)) as (Hv & Hx & Hall). cbv zeta in *.
    split; [|split].
    + destruct Hv as [E|Hin]; [|right; now right].
      rewrite E. destruct (Z.max_spec x a) as [[_ ->]|[_ ->]];
        [right; now left|now left].
    + lia.
    + intros y [<-|Hy]; [lia|auto].
Qed.

Lemma fold_left_min_spec t x :
  let v := fold_left Z.min t x in
  (v = x \/ In v t) /\ v <= x /\ forall y, In y t -> v <= y.
Proof.
  revert x. induction t as [|a t IH]; intros x; cbn [fold_left].
  - cbn. split; [now left|]. split; [lia|contradiction].
  - destruct (IH (Z.min x a)) as (Hv & Hx & Hall). cbv zeta in *.
    split; [|split].
    + destruct Hv as [E|Hin]; [|right; now right].
      rewrite E. destruct (Z.min_spec x a) as [[_ ->]|[_ ->]];
        [now left|right; now left].
    + lia.
    + intros y [<-|Hy]; [lia|auto].
Qed.

Lemma list_max_spec l :
  l <> [] -> In (list_max l) l /\ forall y, In y l -> y <= list_max l.
Proof.
  destruct l as [|x t]; [congruence|]. intros _. unfold list_max.
  destruct (fold_left_max_spec t x) as ([E|Hin] & Hx & Hall); split.
  - left. now rewrite E.
  - intros y [<-|Hy]; auto.
  - now right.
  - intros y [<-|Hy]; auto.
Qed.

Lemma list_min_spec l :
  l <> [] -> In (list_min l) l /\ forall y, In y l -> list_min l <= y.
Proof.
  destruct l as [|x t]; [congruence|]. intros _. unfold list_min.
  destruct (fold_left_min_spec t x) as ([E|Hin] & Hx & Hall); split.
  - left. now rewrite E.
  - intros y [<-|Hy]; auto.
  - now right.
  - intros y [<-|Hy]; auto.
Qed.

Lemma window_pixels_nonempty h w p : window_pixels h w p <> [].
Proof. discriminate. Qed.

Lemma get_maximum_filter h w arr p :
  rect h w arr -> in_range h w p ->
  get 0 (maximum_filter arr 3) p
  = list_max (map (get 0 arr) (window_pixels h w p)).
Proof.
  intros Harr Hp. unfold maximum_filter.
  rewrite (get_tabulate_shape h w) by auto.
  change (Z.to_nat 3) with 3%nat. change (Z.to_nat (3 / 2)) with 1%nat.
  rewrite (ravel_window h w) by (auto; unfold in_range in Hp; lia).
  reflexivity.
Qed.

Lemma get_minimum_filter h w arr p :
  rect h w arr -> in_range h w p ->
  get 0 (minimum_filter arr 3) p
  = list_min (map (get 0 arr) (window_pixels h w p)).
Proof.
  intros Harr Hp. unfold minimum_filter.
  rewrite (get_tabulate_shape h w) by auto.
  change (Z.to_nat 3) with 3%nat. change (Z.to_nat (3 / 2)) with 1%nat.
  rewrite (ravel_window h w) by (auto; unfold in_range in Hp; lia).
  reflexivity.
Qed.

(** X15: the 3 x 3 maximum filter gives every pixel the largest value among
    the pixels of the array at chessboard distance at most 1; the edge
    padding adds no value from outside. *)
Theorem maximum_filter_neighbourhood h w arr p :
  rect h w arr -> in_range h w p ->
  (exists q, in_range h w q /\ cheb p q <= 1 /\
             get 0 (maximum_filter arr 3) p = get 0 arr q) /\
  (forall q, in_range h w q -> cheb p q <= 1 ->
             get 0 arr q <= get 0 (maximum_filter arr 3) p).
Proof.
  intros Harr Hp. rewrite (get_maximum_filter h w) by auto.
  destruct (list_max_spec (map (get 0 arr) (window_pixels h w p)))
    as [Hin Hall].
  { intros E. apply map_eq_nil in E. now apply window_pixels_nonempty in E. }
  split.
  - apply in_map_iff in Hin as (q & Eq & Hq).
    apply In_window_pixels in Hq as [Hq Hc]; auto.
    exists q. auto.
  - intros q Hq Hc. apply Hall, in_map. now apply In_window_pixels.
Qed.

Lemma maximum_filter_neighbourhood_witness :
  let arr := [[1; 5; 2]; [0; 3; 9]] in
  rect 2 3 arr /\ in_range 2 3 (0, 0) /\
  get 0 (maximum_filter arr 3) (0, 0) = 5 /\
  (forall q, in_range 2 3 q -> cheb (0, 0) q <= 1 ->
             get 0 arr q <= get 0 (maximum_filter arr 3) (0, 0)).
Proof.
  intros arr.
  assert (Hr : rect 2 3 arr) by (split; [reflexivity|repeat constructor]).
  assert (Hp : in_range 2 3 (0, 0)) by (unfold in_range; simpl; lia).
  split; [exact Hr|]. split; [exact Hp|]. split; [reflexivity|].
  exact (proj2 (maximum_filter_neighbourhood 2 3 arr (0, 0) Hr Hp)).
Defined.

(** X16: the 3 x 3 minimum filter gives every pixel the smallest value among
    the pixels of the array at chessboard distance at most 1. *)
Theorem minimum_filter_neighbourhood h w arr p :
  rect h w arr -> in_range h w p ->
  (exists q, in_range h w q /\ cheb p q <= 1 /\
             get 0 (minimum_filter arr 3) p = get 0 arr q) /\
  (forall q, in_range h w q -> cheb p q <= 1 ->
             get 0 (minimum_filter arr 3) p <= get 0 arr q).
Proof.
  intros Harr Hp. rewrite (get_minimum_filter h w) by auto.
  destruct (list_min_spec (map (get 0 arr) (window_pixels h w p)))
    as [Hin Hall].
  { intros E. apply map_eq_nil in E. now apply window_pixels_nonempty in E. }
  split.
  - apply in_map_iff in Hin as (q & Eq & Hq).
    apply In_window_pixels in Hq as [Hq Hc]; auto.
    exists q. auto.
  - intros q Hq Hc. apply Hall, in_map. now apply In_window_pixels.
Qed.

Lemma minimum_filter_neighbourhood_witness :
  let arr := [[1; 5; 2]; [0; 3; 9]] in
  rect 2 3 arr /\ in_range 2 3 (0, 2) /\
  get 0 (minimum_filter arr 3) (0, 2) = 2 /\
  (forall q, in_range 2 3 q -> cheb (0, 2) q <= 1 ->
             get 0 (minimum_filter arr 3) (0, 2) <= get 0 arr q).
Proof.
  intros arr.
  assert (Hr : rect 2 3 arr) by (split; [reflexivity|repeat constructor]).
  assert (Hp : in_range 2 3 (0, 2)) by (unfold in_range; simpl; lia).
  split; [exact Hr|]. split; [exact Hp|]. split; [reflexivity|].
  exact (proj2 (minimum_filter_neighbourhood 2 3 arr (0, 2) Hr Hp)).
Defined.

Lemma get_astype_int h w m q :
  rect h w m -> in_range h w q ->
  get 0 (astype_int m) q = if get false m q then 1 else 0.
Proof. intros Hm Hq. unfold astype_int. now rewrite (get_gmap h w _ m false). Qed.

(** One pass [maximum_filter(out.astype(int), size=3) > 0]. *)
Lemma max_step_get h w m p :
  rect h w m -> in_range h w p ->
  (get false (positive (maximum_filter (astype_int m) 3)) p = true <->
   exists q, fg m h w q /\ cheb p q <= 1).
Proof.
  intros Hm Hp.
  assert (Ha : rect h w (astype_int m)) by now apply rect_gmap.
  unfold positive.
  rewrite (get_gmap h w _ _ 0 false) by (auto; now apply rect_tabulate_shape).
  rewrite (get_maximum_filter h w) by auto. rewrite Z.ltb_lt.
  destruct (list_max_spec (map (get 0 (astype_int m)) (window_pixels h w p)))
    as [Hin Hall].
  { intros E. apply map_eq_nil in E. now apply window_pixels_nonempty in E. }
  split.
  - intros Hpos. apply in_map_iff in Hin as (q & Eq & Hq).
    apply In_window_pixels in Hq as [Hq Hc]; auto.
    rewrite (get_astype_int h w) in Eq by auto.
    exists q. split; [split|]; auto.
    destruct (get false m q); [reflexivity|lia].
  - intros (q & [Hq Hg] & Hc).
    assert (H1 : get 0 (astype_int m) q = 1)
      by (rewrite (get_astype_int h w), Hg; auto).
    specialize (Hall (get 0 (astype_int m) q)).
    rewrite H1 in Hall. enough (1 <= list_max
      (map (get 0 (astype_int m)) (window_pixels h w p))) by lia.
    apply Hall. rewrite <- H1. apply in_map. now apply In_window_pixels.
Qed.

(** One pass [minimum_filter(mask.astype(int), size=3) > 0]. *)
Lemma min_step_get h w m p :
  rect h w m -> in_range h w p ->
  (get false (positive (minimum_filter (astype_int m) 3)) p = true <->
   forall q, in_range h w q -> cheb p q <= 1 -> get false m q = true).
Proof.
  intros Hm Hp.
  assert (Ha : rect h w (astype_int m)) by now apply rect_gmap.
  unfold positive.
  rewrite (get_gmap h w _ _ 0 false) by (auto; now apply rect_tabulate_shape).
  rewrite (get_minimum_filter h w) by auto. rewrite Z.ltb_lt.
  destruct (list_min_spec (map (get 0 (astype_int m)) (window_pixels h w p)))
    as [Hin Hall].
  { intros E. apply map_eq_nil in E. now apply window_pixels_nonempty in E. }
  split.
  - intros Hpos q Hq Hc.
    specialize (Hall (get 0 (astype_int m) q)).
    rewrite (get_astype_int h w) in Hall by auto.
    destruct (get false m q) eqn:Eg; [reflexivity|].
    assert (Hle : list_min (map (get 0 (astype_int m)) (window_pixels h w p)) <= 0).
    { apply Hall, in_map_iff. exists q. split.
      - rewrite (get_astype_int h w), Eg; auto.
      - now apply In_window_pixels. }
    lia.
  - intros Hq. apply in_map_iff in Hin as (q & Eq & Hin).
    apply In_window_pixels in Hin as [Hin Hc]; auto.
    rewrite (get_astype_int h w), (Hq q Hin Hc) in Eq by auto. lia.
Qed.

Lemma cheb_le p q n :
  cheb p q <= n <->
  (- n <= fst p - fst q <= n) /\ (- n <= snd p - snd q <= n).
Proof. unfold cheb. rewrite Z.max_lub_iff, !Z.abs_le. reflexivity. Qed.

Lemma cheb_refl p : cheb p p = 0.
Proof. unfold cheb. now rewrite !Z.sub_diag. Qed.

Lemma cheb_sym p q n : cheb p q <= n -> cheb q p <= n.
Proof. rewrite !cheb_le. lia. Qed.

Lemma cheb_zero p q : cheb p q <= 0 -> p = q.
Proof.
  rewrite cheb_le. destruct p, q. cbn [fst snd]. intros H. f_equal; lia.
Qed.

Lemma cheb_trans p q r a b :
  cheb p q <= a -> cheb q r <= b -> cheb p r <= a + b.
Proof. rewrite !cheb_le. lia. Qed.

(** One step from [x] towards [y] stays between them. *)
Lemma step_towards x y n lo hi :
  lo <= x < hi -> lo <= y < hi -> 0 <= n -> - (n + 1) <= x - y <= n + 1 ->
  exists z, lo <= z < hi /\ - 1 <= x - z <= 1 /\ - n <= z - y <= n.
Proof.
  intros Hx Hy Hn Hd.
  destruct (Z.lt_trichotomy x y) as [H|[H|H]];
    [exists (x + 1)|exists x|exists (x - 1)]; lia.
Qed.

(** A pixel of the array at distance [n + 1] is one step away from a pixel
    of the array at distance [n]. *)
Lemma cheb_step h w p q n :
  in_range h w p -> in_range h w q -> 0 <= n -> cheb p q <= n + 1 ->
  exists q', in_range h w q' /\ cheb p q' <= 1 /\ cheb q' q <= n.
Proof.
  intros [Hp1 Hp2] [Hq1 Hq2] Hn Hc. apply cheb_le in Hc as [Hc1 Hc2].
  destruct (step_towards (fst p) (fst q) n 0 (Z.of_nat h))
    as (a & Ha & Ha1 & Ha2); auto.
  destruct (step_towards (snd p) (snd q) n 0 (Z.of_nat w))
    as (b & Hb & Hb1 & Hb2); auto.
  exists (a, b). split; [split; assumption|].
  rewrite !cheb_le. cbn [fst snd]. auto.
Qed.

(** The loop of the fallback of [dilate_mask]. *)
Lemma iter_max_step_get h w m n p :
  rect h w m -> in_range h w p ->
  (get false
     (Nat.iter n (fun out => positive (maximum_filter (astype_int out) 3)) m) p
   = true <->
   exists q, fg m h w q /\ cheb p q <= Z.of_nat n).
Proof.
  intros Hm. revert p. induction n as [|n IH]; intros p Hp.
  - cbn [Nat.iter]. split.
    + intros Hg. exists p. split; [split; auto|]. rewrite cheb_refl. lia.
    + intros (q & [Hq Hg] & Hc). apply cheb_zero in Hc. now subst q.
  - rewrite Nat.iter_succ.
    assert (Hr : rect h w (Nat.iter n
      (fun out => positive (maximum_filter (astype_int out) 3)) m)).
    { clear IH. induction n as [|k IHk]; [exact Hm|].
      rewrite Nat.iter_succ. now apply rect_max_step. }
    rewrite (max_step_get h w) by auto. split.
    + intros (q' & [Hq' Hg'] & Hc'). apply IH in Hg' as (q & Hfg & Hc); auto.
      exists q. split; auto.
      replace (Z.of_nat (S n)) with (1 + Z.of_nat n) by lia.
      now apply (cheb_trans p q' q).
    + intros (q & [Hq Hg] & Hc).
      destruct (cheb_step h w p q (Z.of_nat n)) as (q' & Hq' & H1 & H2);
        auto; try lia.
      exists q'. split; auto. split; auto. apply IH; auto.
      exists q. split; [split|]; auto.
Qed.

(** The pixels of [dilate_mask], with SciPy and without. *)
Lemma dilate_mask_get scipy h w m r p :
  rect h w m -> in_range h w p -> 0 < r ->
  (get false (dilate_mask scipy m r) p = true <->
   exists q, fg m h w q /\
     if scipy then dist2 p q <= r * r else cheb p q <= r).
Proof.
  intros Hm Hp Hr. unfold dilate_mask.
  destruct (Z.leb_spec r 0) as [H0|_]; [lia|]. destruct scipy.
  - apply (ndi_dilation_disk h w m r); auto. lia.
  - rewrite (iter_max_step_get h w) by auto.
    now rewrite Z2Nat.id by lia.
Qed.

Lemma dist2_cheb p q r : 0 <= r -> dist2 p q <= r * r -> cheb p q <= r.
Proof.
  unfold dist2. rewrite cheb_le. intros Hr H.
  set (a := fst p - fst q) in *. set (b := snd p - snd q) in *.
  assert (Ha : a * a <= r * r) by nia.
  assert (Hb : b * b <= r * r) by nia.
  repeat split; nia.
Qed.

(** ** [dilate_mask] and [binary_morphology] without SciPy *)

(** X17: without SciPy [dilate_mask] with a positive radius [r] marks the
    pixels at chessboard distance at most [r] from a pixel of the mask: a
    square of side [2 r + 1] around every pixel, not a disk. *)
Theorem dilate_mask_fallback_square h w m r p :
  rect h w m -> in_range h w p -> 0 < r ->
  (get false (dilate_mask false m r) p = true <->
   exists q, fg m h w q /\ cheb p q <= r).
Proof.
  intros Hm Hp Hr. unfold dilate_mask.
  destruct (Z.leb_spec r 0) as [H0|_]; [lia|].
  rewrite (iter_max_step_get h w) by auto.
  now rewrite Z2Nat.id by lia.
Qed.

Lemma dilate_mask_fallback_square_witness :
  rect 5 5 ex_dot /\ in_range 5 5 (0, 0) /\ 0 < 2 /\
  (get false (dilate_mask false ex_dot 2) (0, 0) = true <->
   exists q, fg ex_dot 5 5 q /\ cheb (0, 0) q <= 2).
Proof.
  assert (Hr : rect 5 5 ex_dot) by (split; [reflexivity|repeat constructor]).
  assert (Hp : in_range 5 5 (0, 0)) by (unfold in_range; simpl; lia).
  split; [exact Hr|]. split; [exact Hp|]. split; [lia|].
  apply (dilate_mask_fallback_square 5 5 ex_dot 2 (0, 0) Hr Hp). lia.
Defined.

(** X18: whatever the radius, the dilation without SciPy contains the
    dilation with SciPy (the disk lies in the square). *)
Theorem dilate_mask_fallback_contains_scipy h w m r p :
  rect h w m -> in_range h w p ->
  get false (dilate_mask true m r) p = true ->
  get false (dilate_mask false m r) p = true.
Proof.
  intros Hm Hp. destruct (Z.leb_spec r 0) as [H0|H0].
  - unfold dilate_mask. apply Z.leb_le in H0. now rewrite H0.
  - rewrite !(dilate_mask_get _ h w) by auto.
    intros (q & Hq & Hd). exists q. split; auto.
    apply dist2_cheb; auto. lia.
Qed.

Lemma dilate_mask_fallback_contains_scipy_witness :
  rect 5 5 ex_dot /\ in_range 5 5 (1, 2) /\
  get false (dilate_mask true ex_dot 1) (1, 2) = true /\
  get false (dilate_mask false ex_dot 1) (1, 2) = true.
Proof.
  assert (Hr : rect 5 5 ex_dot) by (split; [reflexivity|repeat constructor]).
  assert (Hp : in_range 5 5 (1, 2)) by (unfold in_range; simpl; lia).
  split; [exact Hr|]. split; [exact Hp|]. split; [reflexivity|].
  apply (dilate_mask_fallback_contains_scipy 5 5 ex_dot 1 (1, 2) Hr Hp).
  reflexivity.
Defined.

(** X19: [dilate_mask] grows with the radius, with SciPy and without; from a
    radius that is not positive it says: the dilated mask contains the
    mask. *)
Theorem dilate_mask_monotone scipy h w m r1 r2 p :
  rect h w m -> in_range h w p -> r1 <= r2 ->
  get false (dilate_mask scipy m r1) p = true ->
  get false (dilate_mask scipy m r2) p = true.
Proof.
  intros Hm Hp Hle.
  destruct (Z.leb_spec r2 0) as [H2|H2].
  - unfold dilate_mask.
    assert (E1 : (r1 <=? 0) = true) by (apply Z.leb_le; lia).
    assert (E2 : (r2 <=? 0) = true) by (apply Z.leb_le; lia).
    now rewrite E1, E2.
  - rewrite (dilate_mask_get scipy h w m r2) by auto.
    destruct (Z.leb_spec r1 0) as [H1|H1].
    + unfold dilate_mask. apply Z.leb_le in H1. rewrite H1. intros Hg.
      exists p. split; [split; auto|].
      destruct scipy; [unfold dist2|rewrite cheb_refl]; nia.
    + rewrite (dilate_mask_get scipy h w m r1) by auto.
      intros (q & Hq & Hd). exists q. split; auto.
      destruct scipy; [nia|lia].
Qed.

Lemma dilate_mask_monotone_witness :
  rect 5 5 ex_dot /\ in_range 5 5 (1, 2) /\ 1 <= 3 /\
  get false (dilate_mask true ex_dot 1) (1, 2) = true /\
  get false (dilate_mask true ex_dot 3) (1, 2) = true.
Proof.
  assert (Hr : rect 5 5 ex_dot) by (split; [reflexivity|repeat constructor]).
  assert (Hp : in_range 5 5 (1, 2)) by (unfold in_range; simpl; lia).
  split; [exact Hr|]. split; [exact Hp|]. split; [lia|].
  split; [reflexivity|].
  apply (dilate_mask_monotone true 5 5 ex_dot 1 3 (1, 2) Hr Hp);
    [lia|reflexivity].
Defined.

(** X20: without SciPy [binary_morphology] keeps the pixels within chessboard
    distance 2 of a pixel whose whole 3 x 3 neighbourhood (as far as it
    lies in the array) belongs to the mask: an erosion by the 3 x 3 square
    and two dilations by it. *)
Theorem binary_morphology_fallback_blocks h w m p :
  rect h w m -> in_range h w p ->
  (get false (binary_morphology false m) p = true <->
   exists c, in_range h w c /\ cheb p c <= 2 /\
     forall q, in_range h w q -> cheb c q <= 1 -> get false m q = true).
Proof.
  intros Hm Hp. unfold binary_morphology.
  assert (He : rect h w (positive (minimum_filter (astype_int m) 3)))
    by now apply rect_min_step.
  pose proof (rect_max_step h w _ He) as Hd.
  rewrite (max_step_get h w) by auto. split.
  - intros (q1 & [Hq1 Hg1] & Hc1).
    apply (max_step_get h w) in Hg1 as (c & [Hc Hgc] & Hc2); auto.
    exists c. split; auto. split.
    + now apply (cheb_trans p q1 c 1 1).
    + now apply (min_step_get h w).
  - intros (c & Hc & Hd2 & Hall).
    destruct (cheb_step h w p c 1) as (q1 & Hq1 & H1 & H2); auto; try lia.
    exists q1. split; auto. split; auto.
    apply (max_step_get h w); auto.
    exists c. split; auto. split; auto. now apply (min_step_get h w).
Qed.

Lemma binary_morphology_fallback_blocks_witness :
  let m := [[true; true; true; false];
            [true; true; true; false];
            [true; true; true; false];
            [false; false; false; false]] in
  rect 4 4 m /\ in_range 4 4 (3, 3) /\
  (get false (binary_morphology false m) (3, 3) = true <->
   exists c, in_range 4 4 c /\ cheb (3, 3) c <= 2 /\
     forall q, in_range 4 4 q -> cheb c q <= 1 -> get false m q = true).
Proof.
  intros m.
  assert (Hr : rect 4 4 m) by (split; [reflexivity|repeat constructor]).
  assert (Hp : in_range 4 4 (3, 3)) by (unfold in_range; simpl; lia).
  split; [exact Hr|]. split; [exact Hp|].
  exact (binary_morphology_fallback_blocks 4 4 m (3, 3) Hr Hp).
Defined.

(** X21: without SciPy [binary_morphology] adds no pixel farther than one
    step (diagonals included) from the mask, and it drops every part of the
    mask that holds no full 3 x 3 neighbourhood. *)
Theorem binary_morphology_fallback_near_mask h w m p :
  rect h w m -> in_range h w p ->
  get false (binary_morphology false m) p = true ->
  (exists q, fg m h w q /\ cheb p q <= 1) /\
  (exists c, fg m h w c /\
     forall q, in_range h w q -> cheb c q <= 1 -> get false m q = true).
Proof.
  intros Hm Hp Hg.
  assert (He : rect h w (positive (minimum_filter (astype_int m) 3)))
    by now apply rect_min_step.
  pose proof (rect_max_step h w _ He) as Hd.
  unfold binary_morphology in Hg.
  apply (max_step_get h w) in Hg as (q1 & [Hq1 Hg1] & Hc1); auto.
  apply (max_step_get h w) in Hg1 as (c & [Hc Hgc] & Hc2); auto.
  pose proof (proj1 (min_step_get h w m c Hm Hc) Hgc) as Hall.
  split.
  - destruct (cheb_step h w c p 1) as (q & Hq & H1 & H2); auto; try lia.
    { apply cheb_sym. now apply (cheb_trans p q1 c 1 1). }
    exists q. split; [|now apply cheb_sym].
    split; auto.
  - exists c. split; auto. split; auto. apply Hall; auto.
    rewrite cheb_refl. lia.
Qed.

Lemma binary_morphology_fallback_near_mask_witness :
  let m := [[true; true; true; false];
            [true; true; true; false];
            [true; true; true; false];
            [false; false; false; false]] in
  rect 4 4 m /\ in_range 4 4 (3, 3) /\
  get false (binary_morphology false m) (3, 3) = true /\
  (exists q, fg m 4 4 q /\ cheb (3, 3) q <= 1).
Proof.
  intros m.
  assert (Hr : rect 4 4 m) by (split; [reflexivity|repeat constructor]).
  assert (Hp : in_range 4 4 (3, 3)) by (unfold in_range; simpl; lia).
  split; [exact Hr|]. split; [exact Hp|]. split; [reflexivity|].
  exact (proj1 (binary_morphology_fallback_near_mask 4 4 m (3, 3) Hr Hp
                  eq_refl)).
Defined.

(** ** Loading: [load_and_clean_csv] *)

(** A row that holds the two infinities and a NaN: their median is NaN,
    in the first pass and in the second, and the NaN stays in the grid. *)
Example load_and_clean_csv_inf_ex :
  load_and_clean_csv [[PosInf; NegInf; NaN]] [] (Some (1, 3))
  = Loaded ([[PosInf; NegInf; NaN]], (1, 3)).
Proof. reflexivity. Qed.

Lemma slice_to_nonneg {A} (l : list A) n :
  0 <= n -> slice_to l n = firstn (Z.to_nat n) l.
Proof.
  intros Hn. unfold slice_to. destruct (Z.ltb_spec n 0); [lia|reflexivity].
Qed.

Lemma In_firstn {A} n (l : list A) x : In x (firstn n l) -> In x l.
Proof.
  intros H. rewrite <- (firstn_skipn n l). apply in_or_app. now left.
Qed.

Lemma In_slice_to {A} (l : list A) n x : In x (slice_to l n) -> In x l.
Proof. unfold slice_to. destruct (n <? 0); apply In_firstn. Qed.

Lemma is_nan_NaN v : is_nan v = true -> v = NaN.
Proof. now destruct v. Qed.

Lemma is_nan_fill med v : is_nan med = false -> is_nan (fill med v) = false.
Proof. intros Hm. unfold fill. now destruct (is_nan v) eqn:E. Qed.

Lemma fill_NaN v : fill NaN v = v.
Proof. unfold fill. destruct (is_nan v) eqn:E; [|reflexivity].
  symmetry. now apply is_nan_NaN. Qed.

Lemma no_nan_map_fill med l :
  is_nan med = false -> existsb is_nan (map (fill med) l) = false.
Proof.
  intros Hm. induction l as [|v l IH]; [reflexivity|].
  cbn [map existsb]. now rewrite is_nan_fill, IH.
Qed.

Lemma no_nan_repeat x n : is_nan x = false -> existsb is_nan (repeat x n) = false.
Proof.
  intros Hx. induction n as [|n IH]; [reflexivity|].
  cbn [repeat existsb]. now rewrite Hx, IH.
Qed.

Lemma numbers_app l1 l2 : numbers (l1 ++ l2) = numbers l1 ++ numbers l2.
Proof. apply filter_app. Qed.

Lemma numbers_repeat_nan n : numbers (repeat NaN n) = [].
Proof. induction n as [|n IH]; [reflexivity|exact IH]. Qed.

Lemma map_fill_clean med l :
  existsb is_nan l = false -> map (fill med) l = l.
Proof.
  induction l as [|v l IH]; [reflexivity|].
  cbn [existsb map]. intros H. apply orb_false_iff in H as [Hv Hl].
  unfold fill at 1. now rewrite Hv, IH.
Qed.

(** Filling twice with the same median changes nothing more. *)
Lemma refill_row_filled gm rr :
  let m := median_or gm (numbers rr) in
  refill_row gm (map (fill m) rr) = map (fill m) rr.
Proof.
  intros m. unfold refill_row.
  destruct (existsb is_nan (map (fill m) rr)) eqn:E; [|reflexivity].
  destruct (is_nan m) eqn:Em.
  - apply is_nan_NaN in Em.
    assert (Eid : map (fill m) rr = rr).
    { rewrite Em. transitivity (map (fun v : cell => v) rr); [|apply map_id].
      apply map_ext. exact fill_NaN. }
    rewrite Eid. exact Eid.
  - rewrite no_nan_map_fill in E by auto. discriminate.
Qed.

Lemma refill_row_repeat gm n : refill_row gm (repeat gm n) = repeat gm n.
Proof.
  unfold refill_row.
  destruct (existsb is_nan (repeat gm n)) eqn:E; [|reflexivity].
  destruct (is_nan gm) eqn:Em.
  - apply is_nan_NaN in Em. subst gm.
    rewrite numbers_repeat_nan. cbn [median_or].
    transitivity (map (fun v : cell => v) (repeat NaN n)); [|apply map_id].
    apply map_ext. exact fill_NaN.
  - rewrite no_nan_repeat in E by auto. discriminate.
Qed.

Lemma length_clean_row gm tc r :
  0 <= tc -> length (clean_row gm tc r) = Z.to_nat tc.
Proof.
  intros Htc. unfold clean_row. rewrite length_map.
  destruct (Z.gtb_spec (Z.of_nat (length r)) tc) as [Hgt|Hle].
  - rewrite slice_to_nonneg, length_firstn by auto. lia.
  - rewrite length_app, repeat_length. lia.
Qed.

(** A cell of a cleaned row: the cell of the row, a NaN or a missing cell
    replaced by the median of the values that are not NaN among the first
    [target_cols] cells of the row, or by the global median when there is
    none. *)
Lemma nth_clean_row gm tc r j :
  0 <= tc -> (j < Z.to_nat tc)%nat ->
  nth j (clean_row gm tc r) NaN
  = fill (median_or gm (numbers (firstn (Z.to_nat tc) r))) (nth j r NaN).
Proof.
  intros Htc Hj. unfold clean_row.
  destruct (Z.gtb_spec (Z.of_nat (length r)) tc) as [Hgt|Hle].
  - rewrite slice_to_nonneg by auto.
    set (med := median_or gm (numbers (firstn (Z.to_nat tc) r))).
    rewrite (nth_indep _ NaN (fill med NaN))
      by (rewrite length_map, length_firstn; lia).
    rewrite map_nth, nth_firstn.
    destruct (Nat.ltb_spec j (Z.to_nat tc)); [reflexivity|lia].
  - rewrite numbers_app, numbers_repeat_nan, app_nil_r.
    rewrite (firstn_all2 (n := Z.to_nat tc)) by lia.
    set (med := median_or gm (numbers r)).
    rewrite (nth_indep _ NaN (fill med NaN))
      by (rewrite length_map, length_app, repeat_length; lia).
    rewrite map_nth. f_equal.
    destruct (Nat.lt_ge_cases j (length r)) as [Hlt|Hge].
    + now rewrite app_nth1.
    + rewrite app_nth2, nth_repeat, nth_overflow by auto. reflexivity.
Qed.

(** The second pass finds nothing to change: a NaN that the first pass
    left is the median itself. *)
Lemma refill_processed_rows gm tr tc rows :
  refill gm (processed_rows gm tr tc rows) = processed_rows gm tr tc rows.
Proof.
  unfold refill.
  destruct (existsb (existsb is_nan) (processed_rows gm tr tc rows));
    [|reflexivity].
  unfold processed_rows. rewrite map_app. f_equal.
  - rewrite map_map.
    transitivity (map (clean_row gm tc) (slice_to rows tr)); [|reflexivity].
    apply map_ext. intros r. unfold clean_row. apply refill_row_filled.
  - rewrite map_repeat. f_equal. apply refill_row_repeat.
Qed.

Lemma length_processed_rows gm tr tc rows :
  0 <= tr -> length (processed_rows gm tr tc rows) = Z.to_nat tr.
Proof.
  intros Htr. unfold processed_rows.
  rewrite length_app, repeat_length, length_map, slice_to_nonneg by auto.
  rewrite length_firstn. lia.
Qed.

Lemma row_length_processed_rows gm tr tc rows row :
  0 <= tc -> In row (processed_rows gm tr tc rows) ->
  length row = Z.to_nat tc.
Proof.
  intros Htc Hin. unfold processed_rows in Hin.
  apply in_app_or in Hin as [Hin|Hin].
  - apply in_map_iff in Hin as (r & <- & _). now apply length_clean_row.
  - apply repeat_spec in Hin. subst row. apply repeat_length.
Qed.

Lemma rect_processed_rows gm tr tc rows :
  0 <= tr -> 0 <= tc ->
  rect (Z.to_nat tr) (Z.to_nat tc) (processed_rows gm tr tc rows).
Proof.
  intros Htr Htc. split.
  - now apply length_processed_rows.
  - apply Forall_forall. intros row Hin.
    now apply (row_length_processed_rows gm tr tc rows).
Qed.

Lemma np_array_rect h w (rows : list (list cell)) :
  rect h w rows -> np_array rows = Loaded rows.
Proof.
  intros [Hl Hf]. unfold np_array. destruct rows as [|r t]; [reflexivity|].
  rewrite Forall_forall in Hf.
  replace (forallb (fun r' => (length r' =? length r)%nat) t) with true;
    [reflexivity|].
  symmetry. apply forallb_forall. intros r' Hr'. apply Nat.eqb_eq.
  rewrite (Hf r) by now left. rewrite (Hf r') by now right. reflexivity.
Qed.

Lemma np_array_inv rows T : np_array rows = Loaded T -> T = rows.
Proof.
  unfold np_array. destruct rows as [|r t]; [congruence|].
  destruct (forallb _ t); congruence.
Qed.

(** What a successful call returns. *)
Lemma load_and_clean_csv_inv rows shapes ov T s :
  load_and_clean_csv rows shapes ov = Loaded (T, s) ->
  rows <> [] /\
  target_shape (Z.of_nat (length rows)) (median_cols rows) shapes ov = Some s /\
  T = processed_rows (global_median rows) (fst s) (snd s) rows.
Proof.
  unfold load_and_clean_csv.
  destruct (Z.eqb_spec (Z.of_nat (length rows)) 0) as [E|Hn]; [discriminate|].
  destruct (target_shape _ _ shapes ov) as [[tr tc]|]; [|discriminate].
  destruct (np_array _) as [T0|e] eqn:Ea; [|discriminate].
  apply np_array_inv in Ea. intros H. inversion H; subst. cbn [fst snd].
  split; [intros E; subst rows; now apply Hn|]. split; [reflexivity|].
  apply refill_processed_rows.
Qed.

(** With rows and a target without negative column count the call
    succeeds. *)
Lemma load_and_clean_csv_ok rows shapes ov tr tc :
  rows <> [] ->
  target_shape (Z.of_nat (length rows)) (median_cols rows) shapes ov
  = Some (tr, tc) ->
  0 <= tc ->
  load_and_clean_csv rows shapes ov
  = Loaded (processed_rows (global_median rows) tr tc rows, (tr, tc)).
Proof.
  intros Hne Ht Htc. unfold load_and_clean_csv.
  destruct (Z.eqb_spec (Z.of_nat (length rows)) 0) as [E|Hn].
  { destruct rows; [congruence|discriminate]. }
  rewrite Ht.
  assert (Ha : np_array (processed_rows (global_median rows) tr tc rows)
               = Loaded (processed_rows (global_median rows) tr tc rows)).
  { apply (np_array_rect
             (length (processed_rows (global_median rows) tr tc rows))
             (Z.to_nat tc)).
    split; [reflexivity|]. apply Forall_forall. intros row Hin.
    now apply (row_length_processed_rows (global_median rows) tr tc rows). }
  rewrite Ha. now rewrite refill_processed_rows.
Qed.

(** A cell of the processed rows, inside the target shape. *)
Lemma get_processed_rows gm tr tc rows p :
  in_range (Z.to_nat tr) (Z.to_nat tc) p ->
  get NaN (processed_rows gm tr tc rows) p
  = fill (median_or gm
            (numbers (firstn (Z.to_nat tc) (nth (Z.to_nat (fst p)) rows []))))
      (get NaN rows p).
Proof.
  intros [Hi Hj]. unfold get, processed_rows.
  set (i := Z.to_nat (fst p)). set (j := Z.to_nat (snd p)).
  assert (Htr : 0 <= tr) by lia. assert (Htc : 0 <= tc) by lia.
  assert (Hi' : (i < Z.to_nat tr)%nat) by lia.
  assert (Hj' : (j < Z.to_nat tc)%nat) by lia.
  rewrite slice_to_nonneg by auto.
  rewrite length_map, length_firstn.
  destruct (Nat.lt_ge_cases i (length rows)) as [Hlt|Hge].
  - rewrite app_nth1 by (rewrite length_map, length_firstn; lia).
    rewrite (nth_indep _ [] (clean_row gm tc []))
      by (rewrite length_map, length_firstn; lia).
    rewrite map_nth, nth_firstn.
    destruct (Nat.ltb_spec i (Z.to_nat tr)); [|lia].
    now apply nth_clean_row.
  - rewrite app_nth2 by (rewrite length_map, length_firstn; lia).
    rewrite length_map, length_firstn.
    rewrite nth_repeat_lt by lia. rewrite nth_repeat_lt by lia.
    repeat rewrite (nth_overflow rows) by lia. rewrite firstn_nil.
    now destruct j.
Qed.

(** The median of finite numbers is a finite number. *)
Lemma median_cells_finite vals :
  vals <> [] -> (forall v, In v vals -> exists x, v = Num x) ->
  exists x, median_cells vals = Num x.
Proof.
  intros Hne Hall. unfold median_cells. cbv zeta.
  set (s := sort_by cell_lt vals).
  assert (Hlen : length s = length vals) by apply length_sort_by.
  assert (Hpos : (0 < length vals)%nat)
    by (destruct vals; [congruence|simpl; lia]).
  assert (Hnth : forall k, (k < length vals)%nat ->
                           exists x, nth k s NaN = Num x).
  { intros k Hk. apply Hall. apply (In_sort_by cell_lt).
    apply nth_In. fold s. lia. }
  rewrite Hlen.
  assert (Hdiv : (length vals / 2 < length vals)%nat)
    by (apply Nat.div_lt; lia).
  destruct (Nat.even (length vals)).
  - destruct (Hnth (length vals / 2 - 1)%nat ltac:(lia)) as [a ->].
    destruct (Hnth (length vals / 2)%nat Hdiv) as [b ->].
    cbn [cell_add cell_half]. eauto.
  - apply Hnth, Hdiv.
Qed.

(** The loop that chooses among the standard shapes keeps the first shape
    of the smallest score. *)
Lemma choose_shape_loop n mc l :
  forall pre best,
    (best = None /\ pre = [] \/
     exists s pre1 post1,
       best = Some (s, shape_score n mc s) /\ pre = pre1 ++ s :: post1 /\
       (forall s', In s' pre1 -> shape_score n mc s < shape_score n mc s') /\
       (forall s', In s' post1 -> shape_score n mc s <= shape_score n mc s')) ->
    let res :=
      fold_left
        (fun best s =>
           let score := shape_score n mc s in
           match best with
           | None => Some (s, score)
           | Some (_, best_score) =>
               if score <? best_score then Some (s, score) else best
           end) l best in
    res = None /\ pre ++ l = [] \/
    exists s pre1 post1,
      res = Some (s, shape_score n mc s) /\ pre ++ l = pre1 ++ s :: post1 /\
      (forall s', In s' pre1 -> shape_score n mc s < shape_score n mc s') /\
      (forall s', In s' post1 -> shape_score n mc s <= shape_score n mc s').
Proof.
  induction l as [|a l IH]; intros pre best Hb; cbn [fold_left].
  - cbv zeta. now rewrite app_nil_r.
  - cbv zeta. replace (pre ++ a :: l) with ((pre ++ [a]) ++ l)
      by (now rewrite <- app_assoc).
    apply IH. right.
    destruct Hb as [[-> ->]|(s & pre1 & post1 & -> & -> & H1 & H2)].
    + exists a, [], []. split; [reflexivity|]. split; [reflexivity|].
      split; intros s' [].
    + destruct (Z.ltb_spec (shape_score n mc a) (shape_score n mc s)) as [Hlt|Hge].
      * exists a, (pre1 ++ s :: post1), []. split; [reflexivity|].
        split; [reflexivity|]. split; [|intros s' []].
        intros s' Hin. apply in_app_or in Hin as [Hin|[<-|Hin]]; auto.
        -- specialize (H1 s' Hin). lia.
        -- specialize (H2 s' Hin). lia.
      * exists s, pre1, (post1 ++ [a]). split; [reflexivity|].
        split; [now rewrite <- app_assoc|]. split; auto.
        intros s' Hin. apply in_app_or in Hin as [Hin|[<-|[]]]; auto.
Qed.

Lemma choose_shape_spec n mc shapes :
  choose_shape n mc shapes = None /\ shapes = [] \/
  exists s pre post,
    choose_shape n mc shapes = Some (s, shape_score n mc s) /\
    shapes = pre ++ s :: post /\
    (forall s', In s' pre -> shape_score n mc s < shape_score n mc s') /\
    (forall s', In s' post -> shape_score n mc s <= shape_score n mc s').
Proof.
  apply (choose_shape_loop n mc shapes [] None). now left.
Qed.

(** The median of equal values. *)
Lemma np_median_repeat c n : (0 < n)%nat -> (np_median (repeat c n) == c)%Q.
Proof.
  intros Hn. unfold np_median. cbv zeta.
  set (s := sort_by Qlt_bool (repeat c n)).
  assert (Hlen : length s = n)
    by (unfold s; now rewrite length_sort_by, repeat_length).
  assert (Hnth : forall k, (k < n)%nat -> nth k s 0%Q = c).
  { intros k Hk. apply (repeat_spec n). apply (In_sort_by Qlt_bool).
    apply nth_In. now rewrite length_sort_by, repeat_length. }
  rewrite Hlen.
  assert (Hdiv : (n / 2 < n)%nat) by (apply Nat.div_lt; lia).
  destruct (Nat.even n).
  - rewrite !Hnth by lia. field.
  - rewrite Hnth by lia. reflexivity.
Qed.

Lemma median_cols_rect h w (rows : list (list cell)) :
  rect h w rows -> (0 < h)%nat -> median_cols rows = Z.of_nat w.
Proof.
  intros [Hl Hf] Hh. unfold median_cols. rewrite Forall_forall in Hf.
  rewrite (map_ext_in _ (fun _ => inject_Z (Z.of_nat w)))
    by (intros r Hr; now rewrite (Hf r Hr)).
  rewrite map_const, Hl, np_median_repeat by auto. apply Qfloor_Z.
Qed.

Lemma no_nan_flat (rows : list (list cell)) :
  (forall row v, In row rows -> In v row -> is_nan v = false) ->
  forall row, In row rows -> existsb is_nan row = false.
Proof.
  intros H row Hrow. apply not_true_is_false. intros E.
  apply existsb_exists in E as (v & Hv & En).
  rewrite (H row v Hrow Hv) in En. discriminate.
Qed.

(** A complete grid of the target shape is its own cleaning. *)
Lemma processed_rows_clean gm h w (rows : list (list cell)) :
  rect h w rows ->
  (forall row v, In row rows -> In v row -> is_nan v = false) ->
  processed_rows gm (Z.of_nat h) (Z.of_nat w) rows = rows.
Proof.
  intros [Hl Hf] Hc. unfold processed_rows. rewrite Forall_forall in Hf.
  rewrite slice_to_nonneg by lia. rewrite Nat2Z.id.
  rewrite firstn_all2 by lia.
  rewrite length_map, Hl, Z.sub_diag. cbn [Z.to_nat repeat].
  rewrite app_nil_r.
  transitivity (map (fun r : list cell => r) rows); [|apply map_id].
  apply map_ext_in. intros r Hr. unfold clean_row.
  destruct (Z.gtb_spec (Z.of_nat (length r)) (Z.of_nat w)) as [Hgt|_].
  { rewrite (Hf r Hr) in Hgt. lia. }
  rewrite (Hf r Hr), Z.sub_diag. cbn [Z.to_nat repeat]. rewrite app_nil_r.
  apply map_fill_clean. now apply (no_nan_flat rows).
Qed.

Lemma target_shape_cases n mc shapes ov :
  target_shape n mc shapes ov = None /\ ov = None /\ shapes = [] \/
  exists s,
    target_shape n mc shapes ov = Some s /\
    (ov = Some s \/
     ov = None /\
     exists pre post,
       shapes = pre ++ s :: post /\
       (forall s', In s' pre -> shape_score n mc s < shape_score n mc s') /\
       (forall s', In s' post -> shape_score n mc s <= shape_score n mc s')).
Proof.
  unfold target_shape. destruct ov as [s|].
  - right. exists s. split; [reflexivity|now left].
  - destruct (choose_shape_spec n mc shapes)
      as [[-> ->]|(s & pre & post & -> & E & H1 & H2)].
    + left. auto.
    + right. exists s. split; [reflexivity|]. right. split; [reflexivity|].
      exists pre, post. auto.
Qed.

(** X22: the errors of the loading.  Without a parsed row it raises the
    RuntimeError; with rows but neither an override nor a standard shape it
    fails on the missing shape; and when no shape in play has a negative
    column count, [np.array] never meets ragged rows: every other call
    returns a grid. *)
Theorem load_and_clean_csv_errors rows shapes ov :
  (forall s, In s shapes -> 0 <= snd s) ->
  (forall s, ov = Some s -> 0 <= snd s) ->
  (load_and_clean_csv rows shapes ov = Failed RuntimeError_no_rows <->
   rows = []) /\
  (load_and_clean_csv rows shapes ov = Failed TypeError_no_shape <->
   rows <> [] /\ ov = None /\ shapes = []) /\
  (rows <> [] -> (ov = None -> shapes <> []) ->
   exists T s, load_and_clean_csv rows shapes ov = Loaded (T, s)).
Proof.
  intros Hs Ho.
  destruct rows as [|r0 rows'].
  { split; [split; auto|]. split; [|congruence].
    split; [discriminate|]. intros [H _]. congruence. }
  set (rows := r0 :: rows').
  assert (Hne : rows <> []) by discriminate.
  destruct (target_shape_cases (Z.of_nat (length rows)) (median_cols rows)
              shapes ov) as [(Et & -> & ->)|(s & Et & Hcase)].
  - assert (E : load_and_clean_csv rows [] None = Failed TypeError_no_shape).
    { unfold load_and_clean_csv. rewrite Et.
      destruct (Z.eqb_spec (Z.of_nat (length rows)) 0) as [E0|_];
        [discriminate|reflexivity]. }
    rewrite E. split; [split; [discriminate|congruence]|].
    split; [split; auto|]. intros _ H. now destruct H.
  - assert (Hc : 0 <= snd s).
    { destruct Hcase as [E|(_ & pre & post & E & _)]; [now apply Ho|].
      apply Hs. rewrite E. apply in_or_app. right. now left. }
    destruct s as [tr tc]. cbn [snd] in Hc.
    rewrite (load_and_clean_csv_ok rows shapes ov tr tc Hne Et Hc).
    split; [split; [discriminate|congruence]|].
    split.
    + split; [discriminate|]. intros (_ & -> & ->).
      unfold target_shape in Et. discriminate.
    + intros _ _. eauto.
Qed.

Lemma load_and_clean_csv_errors_witness :
  (forall s, In s [(4, 3); (2, 2)] -> 0 <= snd s) /\
  (load_and_clean_csv [] [(4, 3); (2, 2)] None = Failed RuntimeError_no_rows) /\
  exists T s, load_and_clean_csv ex_rows [(4, 3); (2, 2)] None = Loaded (T, s).
Proof.
  assert (Hs : forall s, In s [(4, 3); (2, 2)] -> 0 <= snd s).
  { intros s [<-|[<-|[]]]; simpl; lia. }
  assert (Ho : forall s : Z * Z, None = Some s -> 0 <= snd s) by discriminate.
  split; [exact Hs|]. split.
  - apply (load_and_clean_csv_errors [] [(4, 3); (2, 2)] None Hs Ho).
    reflexivity.
  - apply (load_and_clean_csv_errors ex_rows [(4, 3); (2, 2)] None Hs Ho);
      discriminate.
Defined.

(** X23: the grid returned has the target shape (a target without negative
    entry): rows too long are cut, rows too short and missing rows are
    filled up. *)
Theorem load_and_clean_csv_shape rows shapes ov T tr tc :
  load_and_clean_csv rows shapes ov = Loaded (T, (tr, tc)) ->
  0 <= tr -> 0 <= tc ->
  rect (Z.to_nat tr) (Z.to_nat tc) T.
Proof.
  intros Hl Htr Htc.
  apply load_and_clean_csv_inv in Hl as (_ & _ & ->).
  now apply rect_processed_rows.
Qed.

Lemma load_and_clean_csv_shape_witness :
  exists T,
    load_and_clean_csv ex_rows [(4, 3); (2, 2)] None = Loaded (T, (4, 3)) /\
    rect 4 3 T.
Proof.
  eexists. split; [vm_compute; reflexivity|].
  apply (load_and_clean_csv_shape ex_rows [(4, 3); (2, 2)] None _ 4 3);
    [vm_compute; reflexivity|lia|lia].
Defined.

(** X24: when no parsed cell is infinite, the grid returned holds no NaN:
    every median is then a finite number.  (An infinite cell can leave
    one: the median of inf and -inf is NaN.) *)
Theorem load_and_clean_csv_no_nan rows shapes ov T s row v :
  (forall r c, In r rows -> In c r -> is_inf c = false) ->
  load_and_clean_csv rows shapes ov = Loaded (T, s) ->
  In row T -> In v row -> is_nan v = false.
Proof.
  intros Hfin Hl Hrow Hv.
  apply load_and_clean_csv_inv in Hl as (_ & _ & ->).
  assert (Hnum : forall l, (forall c, In c l -> is_inf c = false) ->
                 forall c, In c (numbers l) -> exists x, c = Num x).
  { intros l Hl c Hc. apply filter_In in Hc as [Hc Hn].
    specialize (Hl c Hc). destruct c; try discriminate. eauto. }
  assert (Hmed : forall d l, is_nan d = false ->
                 (forall c, In c l -> exists x, c = Num x) ->
                 is_nan (median_or d l) = false).
  { intros d l Hd Hl. destruct l as [|c l]; [exact Hd|].
    destruct (median_cells_finite (c :: l)) as [x Ex]; [discriminate|exact Hl|].
    cbn [median_or]. now rewrite Ex. }
  assert (Hgm : is_nan (global_median rows) = false).
  { apply Hmed; [reflexivity|]. intros c Hc.
    apply in_flat_map in Hc as (r & Hr & Hc).
    apply (Hnum r); auto. intros c' Hc'. now apply (Hfin r). }
  unfold processed_rows in Hrow. apply in_app_or in Hrow as [Hrow|Hrow].
  - apply in_map_iff in Hrow as (r & <- & Hr).
    assert (Hr' : In r rows) by now apply In_slice_to in Hr.
    unfold clean_row in Hv.
    apply in_map_iff in Hv as (c & <- & Hc). apply is_nan_fill.
    apply Hmed; auto. apply Hnum. intros c' Hc'.
    destruct (Z.of_nat (length r) >? snd s).
    + apply (Hfin r); auto. now apply In_slice_to in Hc'.
    + apply in_app_or in Hc' as [Hc'|Hc']; [now apply (Hfin r)|].
      apply repeat_spec in Hc'. now subst c'.
  - apply repeat_spec in Hrow. subst row.
    apply repeat_spec in Hv. now subst v.
Qed.

Lemma load_and_clean_csv_no_nan_witness :
  exists T,
    load_and_clean_csv ex_rows [(4, 3); (2, 2)] None = Loaded (T, (4, 3)) /\
    forall row v, In row T -> In v row -> is_nan v = false.
Proof.
  eexists. split; [vm_compute; reflexivity|]. intros row v.
  apply (load_and_clean_csv_no_nan ex_rows [(4, 3); (2, 2)] None _ (4, 3)).
  - intros r c Hr Hc.
    repeat (destruct Hr as [<-|Hr];
            [repeat (destruct Hc as [<-|Hc]; [reflexivity|]); destruct Hc|]).
    destruct Hr.
  - vm_compute. reflexivity.
Defined.

(** X25: every cell of the grid returned: the value parsed at this place
    when it is not NaN; else the median of the values that are not NaN
    among the first [target_cols] cells of its row; and the median of all
    the values parsed that are not NaN (0 when there is none) when that row
    holds none or is missing. *)
Theorem load_and_clean_csv_cells rows shapes ov T tr tc p :
  load_and_clean_csv rows shapes ov = Loaded (T, (tr, tc)) ->
  in_range (Z.to_nat tr) (Z.to_nat tc) p ->
  get NaN T p
  = if is_nan (get NaN rows p)
    then median_or (median_or (Num 0) (flat_map numbers rows))
           (numbers (firstn (Z.to_nat tc) (nth (Z.to_nat (fst p)) rows [])))
    else get NaN rows p.
Proof.
  intros Hl Hp.
  apply load_and_clean_csv_inv in Hl as (_ & _ & ->). cbn [fst snd].
  rewrite get_processed_rows by auto. reflexivity.
Qed.

Lemma load_and_clean_csv_cells_witness :
  exists T,
    load_and_clean_csv ex_rows [(4, 3); (2, 2)] None = Loaded (T, (4, 3)) /\
    in_range 4 3 (1, 2) /\
    get NaN T (1, 2) = median_cells [Num 4; Num 6].
Proof.
  eexists. split; [vm_compute; reflexivity|].
  assert (Hp : in_range (Z.to_nat 4) (Z.to_nat 3) (1, 2))
    by (unfold in_range; simpl; lia).
  split; [exact Hp|].
  rewrite (load_and_clean_csv_cells ex_rows [(4, 3); (2, 2)] None _ 4 3 (1, 2)
             ltac:(vm_compute; reflexivity) Hp).
  reflexivity.
Defined.

(** X26: without an override the target is the standard shape nearest to the
    observed one, the absolute differences of the row counts and of the
    column counts added up, and the first of them in the list when several
    are as near. *)
Theorem load_and_clean_csv_nearest_shape rows shapes T s :
  load_and_clean_csv rows shapes None = Loaded (T, s) ->
  let score := shape_score (Z.of_nat (length rows)) (median_cols rows) in
  exists pre post,
    shapes = pre ++ s :: post /\
    (forall s', In s' pre -> score s < score s') /\
    (forall s', In s' post -> score s <= score s').
Proof.
  intros Hl score.
  apply load_and_clean_csv_inv in Hl as (_ & Et & _).
  destruct (target_shape_cases (Z.of_nat (length rows)) (median_cols rows)
              shapes None) as [(E & _)|(s0 & E & Hcase)]; [congruence|].
  assert (s0 = s) by congruence. subst s0.
  destruct Hcase as [E'|(_ & H)]; [discriminate|exact H].
Qed.

Lemma load_and_clean_csv_nearest_shape_witness :
  exists T pre post,
    load_and_clean_csv ex_rows [(2, 2); (4, 3); (3, 4)] None
    = Loaded (T, (4, 3)) /\
    [(2, 2); (4, 3); (3, 4)] = pre ++ (4, 3) :: post /\
    (forall s', In s' pre ->
       shape_score 3 (median_cols ex_rows) (4, 3)
       < shape_score 3 (median_cols ex_rows) s') /\
    (forall s', In s' post ->
       shape_score 3 (median_cols ex_rows) (4, 3)
       <= shape_score 3 (median_cols ex_rows) s').
Proof.
  eexists.
  destruct (load_and_clean_csv_nearest_shape ex_rows
              [(2, 2); (4, 3); (3, 4)] _ (4, 3)
              ltac:(vm_compute; reflexivity))
    as (pre & post & E & H1 & H2).
  exists pre, post. split; [vm_compute; reflexivity|].
  split; [exact E|]. split; [exact H1|exact H2].
Defined.

(** X27: a complete grid (no NaN, at least one row, all rows of one length) is
    returned as it is when its shape is the override, and without an
    override when its shape is one of the standard shapes. *)
Theorem load_and_clean_csv_complete_grid h w rows shapes ov :
  rect h w rows -> (0 < h)%nat ->
  (forall row v, In row rows -> In v row -> is_nan v = false) ->
  ov = Some (Z.of_nat h, Z.of_nat w) \/
  ov = None /\ In (Z.of_nat h, Z.of_nat w) shapes ->
  load_and_clean_csv rows shapes ov
  = Loaded (rows, (Z.of_nat h, Z.of_nat w)).
Proof.
  intros Hr Hh Hc Hov.
  assert (Hne : rows <> []).
  { destruct Hr as [Hl _]. intros E. subst rows. simpl in Hl. lia. }
  assert (Hlen : length rows = h) by apply Hr.
  assert (Et : target_shape (Z.of_nat (length rows)) (median_cols rows)
                 shapes ov = Some (Z.of_nat h, Z.of_nat w)).
  { destruct Hov as [->|[-> Hin]]; [reflexivity|].
    rewrite (median_cols_rect h w), Hlen by auto.
    destruct (target_shape_cases (Z.of_nat h) (Z.of_nat w) shapes None)
      as [(_ & _ & E)|(s & E & Hcase)].
    { subst shapes. destruct Hin. }
    rewrite E. f_equal.
    destruct Hcase as [E'|(_ & pre & post & Es & H1 & H2)]; [discriminate|].
    assert (H0 : shape_score (Z.of_nat h) (Z.of_nat w)
                   (Z.of_nat h, Z.of_nat w) = 0)
      by (unfold shape_score; cbn [fst snd]; lia).
    assert (Hle : shape_score (Z.of_nat h) (Z.of_nat w) s <= 0).
    { rewrite Es in Hin. apply in_app_or in Hin as [Hin|[Eq|Hin]].
      - specialize (H1 _ Hin). lia.
      - rewrite Eq. lia.
      - specialize (H2 _ Hin). lia. }
    unfold shape_score in Hle. destruct s as [a b]. cbn [fst snd] in Hle.
    f_equal; lia. }
  rewrite (load_and_clean_csv_ok rows shapes ov _ _ Hne Et) by lia.
  now rewrite (processed_rows_clean _ h w).
Qed.

Lemma load_and_clean_csv_complete_grid_witness :
  let rows : list (list cell) := [[Num 1; Num 2]; [Num 3; Num 4]] in
  rect 2 2 rows /\
  load_and_clean_csv rows [(4, 3); (2, 2)] None = Loaded (rows, (2, 2)).
Proof.
  intros rows.
  assert (Hr : rect 2 2 rows) by (split; [reflexivity|repeat constructor]).
  split; [exact Hr|].
  apply (load_and_clean_csv_complete_grid 2 2 rows [(4, 3); (2, 2)] None Hr).
  - lia.
  - intros row v [<-|[<-|[]]] [<-|[<-|[]]]; reflexivity.
  - right. split; [reflexivity|]. right. left. reflexivity.
Defined.
